(** * CloakBet: the card duel contract, its draw engine and its comparator

    A shallow embedding of the Solidity contract [CloakBet].  Encrypted
    integers are modelled by their plaintexts: [euint8] and [euint64] are
    [Z] with the wrap-around of their width written out, [ebool] is [bool],
    and a handle never assigned is the zero plaintext (an absent result for
    [p0Wins]).  The random value that [FHE.randEuint8(64)] returns is an
    explicit argument.  Storage mappings are finite maps read with a zero
    default; a revert is an [Err] result and leaves the storage as it was.
    Access grants ([FHE.allow], [FHE.allowThis],
    [FHE.makePubliclyDecryptable]) and events change no value that the
    contract reads back, and are left out. *)

From Stdlib Require Import ZArith Bool List Lia.
From Stdlib Require String.
From stdpp Require Import base numbers option list gmap.

Local Open Scope Z_scope.

(** ** Plaintext meaning of the encrypted-integer operations *)

Module FHE.

Definition wrap8 (x : Z) : Z := x mod 2 ^ 8.
Definition wrap64 (x : Z) : Z := x mod 2 ^ 64.

Definition asEuint8 (v : Z) : Z := wrap8 v.
Definition asEuint64 (v : Z) : Z := wrap64 v.

(** 8-bit operations. *)
Definition add8 (a b : Z) : Z := wrap8 (a + b).
Definition and8 (a b : Z) : Z := Z.land a b.
Definition rem8 (a b : Z) : Z := a mod b.
Definition div8 (a b : Z) : Z := a / b.

(** 64-bit operations; a shift or rotation amount is taken modulo the
    width of the shifted operand. *)
Definition and64 (a b : Z) : Z := Z.land a b.
Definition or64 (a b : Z) : Z := Z.lor a b.
Definition shl64 (a b : Z) : Z := wrap64 (Z.shiftl a (b mod 64)).
Definition shr64 (a b : Z) : Z := Z.shiftr a (b mod 64).
Definition rotr64 (a b : Z) : Z :=
  let s := b mod 64 in
  wrap64 (Z.lor (Z.shiftr a s) (Z.shiftl a (64 - s))).

(** Comparisons and booleans. *)
Definition eq (a b : Z) : bool := a =? b.
Definition gt (a b : Z) : bool := b <? a.
Definition and_ (a b : bool) : bool := a && b.
Definition or_ (a b : bool) : bool := a || b.
Definition select {A : Type} (c : bool) (a b : A) : A := if c then a else b.

End FHE.

(** ** Constants of the contract *)

Definition HAND_SIZE : Z := 6.
Definition DECK_SIZE : Z := 52.
Definition RANKS : Z := 13.
Definition _DUMMY_USED_MASK : Z := 0xFFF0000000000000.

(** ** The unique-draw engine *)

Definition _skipIfLowerFull (mask idx bits ones : Z) : Z * Z :=
  let onesEnc := FHE.asEuint64 ones in
  let lower := FHE.and64 mask onesEnc in
  let lowerFull := FHE.eq lower onesEnc in
  let newMask := FHE.select lowerFull (FHE.shr64 mask bits) mask in
  let newIdx := FHE.select lowerFull (FHE.add8 idx bits) idx in
  (newMask, newIdx).

Definition _firstZeroBitIndex (mask : Z) : Z :=
  let idx := FHE.asEuint8 0 in
  let '(mask, idx) := _skipIfLowerFull mask idx 32 0xFFFFFFFF in
  let '(mask, idx) := _skipIfLowerFull mask idx 16 0xFFFF in
  let '(mask, idx) := _skipIfLowerFull mask idx 8 0xFF in
  let '(mask, idx) := _skipIfLowerFull mask idx 4 0xF in
  let '(mask, idx) := _skipIfLowerFull mask idx 2 0x3 in
  let low1 := FHE.and64 mask (FHE.asEuint64 1) in
  let low1Full := FHE.eq low1 (FHE.asEuint64 1) in
  FHE.select low1Full (FHE.add8 idx 1) idx.

(** [start] is the value returned by [FHE.randEuint8(64)]. *)
Definition _drawUniqueCard (usedMask start : Z) : Z * Z :=
  let maskWithDummies := FHE.or64 usedMask (FHE.asEuint64 _DUMMY_USED_MASK) in
  let rotated := FHE.rotr64 maskWithDummies start in
  let pos := _firstZeroBitIndex rotated in
  let card64 := FHE.add8 pos start in
  let card := FHE.and8 card64 63 in
  let bit := FHE.shl64 (FHE.asEuint64 1) card in
  let newMask := FHE.or64 usedMask bit in
  (card, newMask).

(** ** The showdown comparison, as [_finishGame] computes it on two cards *)

Definition showdown (c0 c1 : Z) : bool :=
  let r0 := FHE.rem8 c0 RANKS in
  let r1 := FHE.rem8 c1 RANKS in
  let s0 := FHE.div8 c0 RANKS in
  let s1 := FHE.div8 c1 RANKS in
  let rankGt := FHE.gt r0 r1 in
  let rankEq := FHE.eq r0 r1 in
  let suitGt := FHE.gt s0 s1 in
  FHE.or_ rankGt (FHE.and_ rankEq suitGt).

(** ** Reference notions used to state the properties *)

(** Position of the least-significant zero bit, by a linear scan of at most
    [fuel] positions starting at [i]. *)
Fixpoint scan_zero (fuel : nat) (m i : Z) : Z :=
  match fuel with
  | O => i
  | S f => if Z.testbit m i then scan_zero f m (i + 1) else i
  end.

Definition lowest_zero_bit (m : Z) : Z := scan_zero 64 m 0.

Definition is_lowest_zero (m p : Z) : Prop :=
  0 <= p /\ Z.testbit m p = false /\ forall j, 0 <= j < p -> Z.testbit m j = true.

Definition rank (card : Z) : Z := card mod 13.
Definition suit (card : Z) : Z := card / 13.

Definition plain_rule (a b : Z) : Prop :=
  rank a > rank b \/ (rank a = rank b /\ suit a > suit b).

(** ** Errors and results *)

Inductive Error : Type :=
  | GameNotFound (gameId : Z)
  | GameNotOpen (gameId : Z)
  | GameFull (gameId : Z)
  | GameNotReady (gameId : Z)
  | GameAlreadyStarted (gameId : Z)
  | GameAlreadyFinished (gameId : Z)
  | HandsNotDealt (gameId : Z)
  | HandsAlreadyDealt (gameId : Z)
  | NotAPlayer (gameId : Z)
  | AlreadyPlayed (gameId : Z)
  | InvalidHandIndex (handIndex : Z)
  | Panic (code : Z).

(** A call either returns a value or reverts with an error; a revert leaves
    the storage as it was before the call. *)
Inductive Result (A : Type) : Type :=
  | Ok (a : A)
  | Err (e : Error).

Arguments Ok {A} a.
Arguments Err {A} e.

#[global] Instance Result_ret : MRet Result := fun A a => Ok a.
#[global] Instance Result_bind : MBind Result := fun A B f r =>
  match r with
  | Ok a => f a
  | Err e => Err e
  end.

(** Checked arithmetic of Solidity 0.8 and bounds-checked array access. *)
Definition MAX_UINT256 : Z := 2 ^ 256 - 1.
Definition MAX_UINT8 : Z := 2 ^ 8 - 1.

Definition checked_add (bound a b : Z) : Result Z :=
  if a + b <=? bound then Ok (a + b) else Err (Panic 0x11).

Definition checked_sub (a b : Z) : Result Z :=
  if b <=? a then Ok (a - b) else Err (Panic 0x11).

Definition array_get (l : list Z) (i : Z) : Result Z :=
  if (0 <=? i) && (i <? Z.of_nat (length l))
  then match l !! Z.to_nat i with
       | Some x => Ok x
       | None => Err (Panic 0x32)
       end
  else Err (Panic 0x32).

Definition array_set (l : list Z) (i x : Z) : Result (list Z) :=
  if (0 <=? i) && (i <? Z.of_nat (length l))
  then Ok (<[Z.to_nat i := x]> l)
  else Err (Panic 0x32).

Definition array_pop (l : list Z) : Result (list Z) :=
  match l with
  | [] => Err (Panic 0x31)
  | _ => Ok (removelast l)
  end.

(** ** Storage *)

Abbreviation address := Z (only parsing).

Record Game : Type := mkGame {
  player0 : address;
  player1 : address;
  started : bool;
  finished : bool;
  createdAt : Z;
  usedMask : Z;
  dealIndex : Z;
  hand0 : list Z;
  hand1 : list Z;
  playedIndex0 : Z;
  playedIndex1 : Z;
  hasPlayed0 : bool;
  hasPlayed1 : bool;
  p0Wins : option bool
}.

(** A storage slot never written: every field is zero; the handle of the
    result is unset. *)
Definition empty_game : Game :=
  mkGame 0 0 false false 0 0 0 (replicate 6 0) (replicate 6 0) 0 0 false false None.

Definition set_player0 (v : address) (g : Game) : Game :=
  mkGame v (player1 g) (started g) (finished g) (createdAt g) (usedMask g) (dealIndex g)
    (hand0 g) (hand1 g) (playedIndex0 g) (playedIndex1 g) (hasPlayed0 g) (hasPlayed1 g) (p0Wins g).

Definition set_player1 (v : address) (g : Game) : Game :=
  mkGame (player0 g) v (started g) (finished g) (createdAt g) (usedMask g) (dealIndex g)
    (hand0 g) (hand1 g) (playedIndex0 g) (playedIndex1 g) (hasPlayed0 g) (hasPlayed1 g) (p0Wins g).

Definition set_started (v : bool) (g : Game) : Game :=
  mkGame (player0 g) (player1 g) v (finished g) (createdAt g) (usedMask g) (dealIndex g)
    (hand0 g) (hand1 g) (playedIndex0 g) (playedIndex1 g) (hasPlayed0 g) (hasPlayed1 g) (p0Wins g).

Definition set_finished (v : bool) (g : Game) : Game :=
  mkGame (player0 g) (player1 g) (started g) v (createdAt g) (usedMask g) (dealIndex g)
    (hand0 g) (hand1 g) (playedIndex0 g) (playedIndex1 g) (hasPlayed0 g) (hasPlayed1 g) (p0Wins g).

Definition set_createdAt (v : Z) (g : Game) : Game :=
  mkGame (player0 g) (player1 g) (started g) (finished g) v (usedMask g) (dealIndex g)
    (hand0 g) (hand1 g) (playedIndex0 g) (playedIndex1 g) (hasPlayed0 g) (hasPlayed1 g) (p0Wins g).

Definition set_usedMask (v : Z) (g : Game) : Game :=
  mkGame (player0 g) (player1 g) (started g) (finished g) (createdAt g) v (dealIndex g)
    (hand0 g) (hand1 g) (playedIndex0 g) (playedIndex1 g) (hasPlayed0 g) (hasPlayed1 g) (p0Wins g).

Definition set_dealIndex (v : Z) (g : Game) : Game :=
  mkGame (player0 g) (player1 g) (started g) (finished g) (createdAt g) (usedMask g) v
    (hand0 g) (hand1 g) (playedIndex0 g) (playedIndex1 g) (hasPlayed0 g) (hasPlayed1 g) (p0Wins g).

Definition set_hand0 (v : list Z) (g : Game) : Game :=
  mkGame (player0 g) (player1 g) (started g) (finished g) (createdAt g) (usedMask g) (dealIndex g)
    v (hand1 g) (playedIndex0 g) (playedIndex1 g) (hasPlayed0 g) (hasPlayed1 g) (p0Wins g).

Definition set_hand1 (v : list Z) (g : Game) : Game :=
  mkGame (player0 g) (player1 g) (started g) (finished g) (createdAt g) (usedMask g) (dealIndex g)
    (hand0 g) v (playedIndex0 g) (playedIndex1 g) (hasPlayed0 g) (hasPlayed1 g) (p0Wins g).

Definition set_playedIndex0 (v : Z) (g : Game) : Game :=
  mkGame (player0 g) (player1 g) (started g) (finished g) (createdAt g) (usedMask g) (dealIndex g)
    (hand0 g) (hand1 g) v (playedIndex1 g) (hasPlayed0 g) (hasPlayed1 g) (p0Wins g).

Definition set_playedIndex1 (v : Z) (g : Game) : Game :=
  mkGame (player0 g) (player1 g) (started g) (finished g) (createdAt g) (usedMask g) (dealIndex g)
    (hand0 g) (hand1 g) (playedIndex0 g) v (hasPlayed0 g) (hasPlayed1 g) (p0Wins g).

Definition set_hasPlayed0 (v : bool) (g : Game) : Game :=
  mkGame (player0 g) (player1 g) (started g) (finished g) (createdAt g) (usedMask g) (dealIndex g)
    (hand0 g) (hand1 g) (playedIndex0 g) (playedIndex1 g) v (hasPlayed1 g) (p0Wins g).

Definition set_hasPlayed1 (v : bool) (g : Game) : Game :=
  mkGame (player0 g) (player1 g) (started g) (finished g) (createdAt g) (usedMask g) (dealIndex g)
    (hand0 g) (hand1 g) (playedIndex0 g) (playedIndex1 g) (hasPlayed0 g) v (p0Wins g).

Definition set_p0Wins (v : option bool) (g : Game) : Game :=
  mkGame (player0 g) (player1 g) (started g) (finished g) (createdAt g) (usedMask g) (dealIndex g)
    (hand0 g) (hand1 g) (playedIndex0 g) (playedIndex1 g) (hasPlayed0 g) (hasPlayed1 g) v.

Record Contract : Type := mkContract {
  nextGameId : Z;
  _games : gmap Z Game;
  _openGameIds : list Z;
  _openIndexPlusOne : gmap Z Z
}.

(** Reading a mapping at a key never written gives the zero value. *)
Definition game_at (s : Contract) (gameId : Z) : Game :=
  default empty_game (_games s !! gameId).

Definition open_index_at (s : Contract) (gameId : Z) : Z :=
  default 0 (_openIndexPlusOne s !! gameId).

Definition set_game (gameId : Z) (g : Game) (s : Contract) : Contract :=
  mkContract (nextGameId s) (<[gameId := g]> (_games s)) (_openGameIds s) (_openIndexPlusOne s).

Definition set_nextGameId (v : Z) (s : Contract) : Contract :=
  mkContract v (_games s) (_openGameIds s) (_openIndexPlusOne s).

Definition set_openGameIds (v : list Z) (s : Contract) : Contract :=
  mkContract (nextGameId s) (_games s) v (_openIndexPlusOne s).

Definition set_open_index (gameId v : Z) (s : Contract) : Contract :=
  mkContract (nextGameId s) (_games s) (_openGameIds s) (<[gameId := v]> (_openIndexPlusOne s)).

(** The contract right after deployment. *)
Definition init : Contract := mkContract 0 ∅ [] ∅.

(** ** Internal functions *)

Definition _getGame (s : Contract) (gameId : Z) : Result Game :=
  let g := game_at s gameId in
  if player0 g =? 0 then Err (GameNotFound gameId) else Ok g.

Definition _pushOpen (gameId : Z) (s : Contract) : Result Contract :=
  lenPlusOne ← checked_add MAX_UINT256 (Z.of_nat (length (_openGameIds s))) 1;
  let s := set_open_index gameId lenPlusOne s in
  Ok (set_openGameIds (_openGameIds s ++ [gameId]) s).

Definition _removeOpen (gameId : Z) (s : Contract) : Result Contract :=
  let idxPlusOne := open_index_at s gameId in
  if idxPlusOne =? 0 then Ok s else
  idx ← checked_sub idxPlusOne 1;
  lastIdx ← checked_sub (Z.of_nat (length (_openGameIds s))) 1;
  s ← (if negb (idx =? lastIdx) then
         moved ← array_get (_openGameIds s) lastIdx;
         ids ← array_set (_openGameIds s) idx moved;
         idx1 ← checked_add MAX_UINT256 idx 1;
         Ok (set_open_index moved idx1 (set_openGameIds ids s))
       else Ok s);
  ids ← array_pop (_openGameIds s);
  Ok (set_open_index gameId 0 (set_openGameIds ids s)).

(** [_finishGame] on the game record; the comparison itself is [showdown]. *)
Definition _finishGame (gameId : Z) (g : Game) : Result Game :=
  c0 ← array_get (hand0 g) (playedIndex0 g);
  c1 ← array_get (hand1 g) (playedIndex1 g);
  let p0Wins := showdown c0 c1 in
  let g := set_p0Wins (Some p0Wins) g in
  Ok (set_finished true g).

(** ** External functions; [sender] is [msg.sender] *)

Definition createGame (sender timestamp : Z) (s : Contract) : Result (Contract * Z) :=
  let gameId := nextGameId s in
  next ← checked_add MAX_UINT256 (nextGameId s) 1;
  let s := set_nextGameId next s in
  let g := game_at s gameId in
  let g := set_player0 sender g in
  let g := set_createdAt timestamp g in
  s ← _pushOpen gameId (set_game gameId g s);
  Ok (s, gameId).

Definition joinGame (sender gameId : Z) (s : Contract) : Result Contract :=
  g ← _getGame s gameId;
  if started g then Err (GameAlreadyStarted gameId) else
  if negb (player1 g =? 0) then Err (GameFull gameId) else
  if player0 g =? 0 then Err (GameNotFound gameId) else
  if player0 g =? sender then Err (GameNotOpen gameId) else
  let g := set_player1 sender g in
  _removeOpen gameId (set_game gameId g s).

Definition startGame (sender gameId : Z) (s : Contract) : Result Contract :=
  g ← _getGame s gameId;
  if started g then Err (GameAlreadyStarted gameId) else
  if (player0 g =? 0) || (player1 g =? 0) then Err (GameNotReady gameId) else
  if negb (sender =? player0 g) && negb (sender =? player1 g) then Err (NotAPlayer gameId) else
  let g := set_started true g in
  let g := set_dealIndex 0 g in
  let g := set_usedMask (FHE.asEuint64 0) g in
  Ok (set_game gameId g s).

(** [start0] and [start1] are the two values that [FHE.randEuint8(64)]
    returns in the two draws of the round. *)
Definition dealRound (sender gameId start0 start1 : Z) (s : Contract) : Result Contract :=
  g ← _getGame s gameId;
  if negb (started g) then Err (GameNotReady gameId) else
  if finished g then Err (GameAlreadyFinished gameId) else
  if HAND_SIZE <=? dealIndex g then Err (HandsAlreadyDealt gameId) else
  if negb (sender =? player0 g) && negb (sender =? player1 g) then Err (NotAPlayer gameId) else
  let i := dealIndex g in
  let used := usedMask g in
  let '(c0, used0) := _drawUniqueCard used start0 in
  let used := used0 in
  h0 ← array_set (hand0 g) i c0;
  let g := set_hand0 h0 g in
  let '(c1, used1) := _drawUniqueCard used start1 in
  let used := used1 in
  h1 ← array_set (hand1 g) i c1;
  let g := set_hand1 h1 g in
  let g := set_usedMask used g in
  i1 ← checked_add MAX_UINT8 i 1;
  let g := set_dealIndex i1 g in
  Ok (set_game gameId g s).

Definition playCard (sender gameId handIndex : Z) (s : Contract) : Result Contract :=
  g ← _getGame s gameId;
  if negb (started g) then Err (GameNotReady gameId) else
  if finished g then Err (GameAlreadyFinished gameId) else
  if dealIndex g <? HAND_SIZE then Err (HandsNotDealt gameId) else
  if HAND_SIZE <=? handIndex then Err (InvalidHandIndex handIndex) else
  let isP0 := sender =? player0 g in
  let isP1 := sender =? player1 g in
  if negb isP0 && negb isP1 then Err (NotAPlayer gameId) else
  g ← (if isP0 then
         if hasPlayed0 g then Err (AlreadyPlayed gameId) else
         Ok (set_playedIndex0 handIndex (set_hasPlayed0 true g))
       else
         if hasPlayed1 g then Err (AlreadyPlayed gameId) else
         Ok (set_playedIndex1 handIndex (set_hasPlayed1 true g)));
  g ← (if hasPlayed0 g && hasPlayed1 g then _finishGame gameId g else Ok g);
  Ok (set_game gameId g s).

(** ** Views *)

Definition getOpenGameIds (s : Contract) : list Z := _openGameIds s.

Definition getHand (gameId : Z) (player : address) (s : Contract) : Result (list Z) :=
  g ← _getGame s gameId;
  if player =? player0 g then Ok (hand0 g) else
  if player =? player1 g then Ok (hand1 g) else
  Err (NotAPlayer gameId).

Definition getResult (gameId : Z) (s : Contract) : Result (option bool) :=
  g ← _getGame s gameId;
  Ok (p0Wins g).

Definition getPlayedIndexes (gameId : Z) (s : Contract) : Result (bool * Z * bool * Z) :=
  g ← _getGame s gameId;
  Ok (hasPlayed0 g, playedIndex0 g, hasPlayed1 g, playedIndex1 g).

(** ** Transactions and reachable states *)

Inductive Call : Type :=
  | CreateGame
  | JoinGame (gameId : Z)
  | StartGame (gameId : Z)
  | DealRound (gameId start0 start1 : Z)
  | PlayCard (gameId handIndex : Z).

Record Tx : Type := mkTx { sender : address; timestamp : Z; call : Call }.

Definition exec (s : Contract) (tx : Tx) : Result Contract :=
  match call tx with
  | CreateGame => r ← createGame (sender tx) (timestamp tx) s; Ok (fst r)
  | JoinGame gameId => joinGame (sender tx) gameId s
  | StartGame gameId => startGame (sender tx) gameId s
  | DealRound gameId start0 start1 => dealRound (sender tx) gameId start0 start1 s
  | PlayCard gameId handIndex => playCard (sender tx) gameId handIndex s
  end.

(** The random values of a deal lie in [0..63], as [FHE.randEuint8(64)]
    returns them. *)
Definition valid_tx (tx : Tx) : bool :=
  match call tx with
  | DealRound _ start0 start1 =>
      (0 <=? start0) && (start0 <? 64) && (0 <=? start1) && (start1 <? 64)
  | _ => true
  end.

Definition apply_tx (s : Contract) (tx : Tx) : Contract :=
  match exec s tx with
  | Ok s' => s'
  | Err _ => s
  end.

Definition run (s : Contract) (txs : list Tx) : Contract := fold_left apply_tx txs s.

Inductive reachable : Contract -> Prop :=
  | reachable_init : reachable init
  | reachable_step s tx s' :
      reachable s -> valid_tx tx = true -> exec s tx = Ok s' -> reachable s'.

(** 1 when the call is a [dealRound] on [gameId], else 0. *)
Definition deal_on (gameId : Z) (c : Call) : Z :=
  match c with
  | DealRound g _ _ => if g =? gameId then 1 else 0
  | _ => 0
  end.

(** Number of [dealRound] calls on [gameId] that succeed along a run. *)
Fixpoint deals_done (gameId : Z) (s : Contract) (txs : list Tx) : Z :=
  match txs with
  | [] => 0
  | tx :: rest =>
      (match exec s tx with
       | Ok _ => deal_on gameId (call tx)
       | Err _ => 0
       end) + deals_done gameId (apply_tx s tx) rest
  end.

(** The cards dealt so far in a game: the first [dealIndex] entries of each
    hand. *)
Definition dealt0 (g : Game) : list Z := take (Z.to_nat (dealIndex g)) (hand0 g).
Definition dealt1 (g : Game) : list Z := take (Z.to_nat (dealIndex g)) (hand1 g).
Definition dealt (g : Game) : list Z := dealt0 g ++ dealt1 g.

(** The game record once [playCard] has recorded the move of slot 0
    ([isP0]) or of slot 1, before it tests whether both have played. *)
Definition record_play (isP0 : bool) (handIndex : Z) (g : Game) : Game :=
  if isP0 then set_playedIndex0 handIndex (set_hasPlayed0 true g)
  else set_playedIndex1 handIndex (set_hasPlayed1 true g).

Definition in_deck (c : Z) : Prop := 0 <= c < 52.

(** ** A sample session, used to instantiate the theorems *)

Definition alice : address := 0xA11CE.
Definition bob : address := 0xB0B.
Definition carol : address := 0xCA401.

Definition sample_setup : list Tx :=
  [mkTx alice 1 CreateGame; mkTx bob 2 (JoinGame 0); mkTx alice 3 (StartGame 0)].

Definition sample_deals : list Tx :=
  [mkTx alice 4 (DealRound 0 5 17); mkTx bob 5 (DealRound 0 0 63);
   mkTx alice 6 (DealRound 0 40 41); mkTx alice 7 (DealRound 0 51 52);
   mkTx alice 8 (DealRound 0 12 12); mkTx alice 9 (DealRound 0 7 30)].

Definition sample_plays : list Tx :=
  [mkTx alice 10 (PlayCard 0 0); mkTx bob 11 (PlayCard 0 3)].

Definition sample_run : list Tx := sample_setup ++ sample_deals ++ sample_plays.

(** The game record of the sample session once the hands are dealt and
    both moves are recorded, right before the showdown. *)
Definition sample_game : Game :=
  mkGame alice bob true false 1 2255099422453927 6
    [5; 0; 40; 51; 12; 7] [17; 1; 41; 2; 13; 30] 0 3 true true None.

(** ** Invariants and the step relation of one game *)

(** The used-mask is a 64-bit value whose set bits are exactly the cards of
    the list [D]. *)
Definition mask_tracks (used : Z) (D : list Z) : Prop :=
  0 <= used < 2 ^ 64 /\
  forall j, 0 <= j -> (Z.testbit used j = true <-> j ∈ D).

Record game_inv (g : Game) : Prop := mkGameInv {
  gi_len0 : length (hand0 g) = 6%nat;
  gi_len1 : length (hand1 g) = 6%nat;
  gi_deal : 0 <= dealIndex g <= HAND_SIZE;
  gi_players : player0 g <> 0 -> player0 g <> player1 g;
  gi_unstarted : started g = false ->
                 dealIndex g = 0 /\ hasPlayed0 g = false /\ hasPlayed1 g = false;
  gi_started : started g = true -> player0 g <> 0 /\ player1 g <> 0;
  gi_played : hasPlayed0 g = true \/ hasPlayed1 g = true -> dealIndex g = HAND_SIZE;
  gi_finished : finished g = hasPlayed0 g && hasPlayed1 g;
  gi_result : finished g = true <-> is_Some (p0Wins g);
  gi_mask : mask_tracks (usedMask g) (dealt g);
  gi_nodup : NoDup (dealt g);
  gi_deck : Forall in_deck (dealt g)
}.

(** What a successful transaction [tx] does to the record of game [gid]
    when it changes it. *)
Inductive game_step (gid : Z) (tx : Tx) (g : Game) : Game -> Prop :=
  | gs_create :
      call tx = CreateGame -> g = empty_game ->
      game_step gid tx g (set_createdAt (timestamp tx) (set_player0 (sender tx) g))
  | gs_join :
      call tx = JoinGame gid ->
      player0 g <> 0 -> started g = false -> player1 g = 0 -> player0 g <> sender tx ->
      game_step gid tx g (set_player1 (sender tx) g)
  | gs_start :
      call tx = StartGame gid ->
      player0 g <> 0 -> player1 g <> 0 -> started g = false ->
      game_step gid tx g (set_usedMask 0 (set_dealIndex 0 (set_started true g)))
  | gs_deal start0 start1 :
      call tx = DealRound gid start0 start1 ->
      player0 g <> 0 -> started g = true -> finished g = false ->
      0 <= dealIndex g < HAND_SIZE ->
      let d0 := _drawUniqueCard (usedMask g) start0 in
      let d1 := _drawUniqueCard (snd d0) start1 in
      game_step gid tx g
        (set_dealIndex (dealIndex g + 1)
           (set_usedMask (snd d1)
              (set_hand1 (<[Z.to_nat (dealIndex g) := fst d1]> (hand1 g))
                 (set_hand0 (<[Z.to_nat (dealIndex g) := fst d0]> (hand0 g)) g))))
  | gs_play handIndex g2 :
      call tx = PlayCard gid handIndex ->
      player0 g <> 0 -> started g = true -> finished g = false ->
      HAND_SIZE <= dealIndex g ->
      (sender tx = player0 g \/ sender tx = player1 g) ->
      let isP0 := sender tx =? player0 g in
      let g1 := record_play isP0 handIndex g in
      (if isP0 then hasPlayed0 g = false else hasPlayed1 g = false) ->
      (if hasPlayed0 g1 && hasPlayed1 g1 then _finishGame gid g1 = Ok g2 else g2 = g1) ->
      game_step gid tx g g2.

(** The open list and the index mapping describe each other: position [i]
    of the list holds [gid] exactly when the mapping sends [gid] to [i + 1]. *)
Definition open_index_ok (s : Contract) : Prop :=
  (forall (i : nat) gid,
      _openGameIds s !! i = Some gid -> open_index_at s gid = Z.of_nat i + 1) /\
  (forall gid,
      open_index_at s gid <> 0 ->
      1 <= open_index_at s gid /\
      _openGameIds s !! Z.to_nat (open_index_at s gid - 1) = Some gid).

Record contract_inv (s : Contract) : Prop := mkContractInv {
  ci_next : 0 <= nextGameId s <= MAX_UINT256;
  ci_fresh : forall gid, nextGameId s <= gid -> _games s !! gid = None;
  ci_games : forall gid, game_inv (game_at s gid);
  ci_open : open_index_ok s;
  ci_open_old : forall gid, gid ∈ _openGameIds s -> gid < nextGameId s;
  ci_open_len : Z.of_nat (length (_openGameIds s)) <= nextGameId s
}.

(** ** The remaining views *)

Record GameInfo : Type := mkGameInfo {
  info_player0 : address;
  info_player1 : address;
  info_started : bool;
  info_finished : bool;
  info_bothPlayed : bool;
  info_dealIndex : Z;
  info_createdAt : Z
}.

Definition getGameInfo (gameId : Z) (s : Contract) : Result GameInfo :=
  g ← _getGame s gameId;
  Ok (mkGameInfo (player0 g) (player1 g) (started g) (finished g)
        (hasPlayed0 g && hasPlayed1 g) (dealIndex g) (createdAt g)).

(** ** Transactions as the chain delivers them *)

(** A transaction of the chain has a non-zero sender and a [uint8] hand
    index, besides the random values of [valid_tx]. *)
Definition wf_tx (tx : Tx) : bool :=
  valid_tx tx && negb (sender tx =? 0) &&
  match call tx with
  | PlayCard _ handIndex => (0 <=? handIndex) && (handIndex <? 256)
  | _ => true
  end.

Inductive reachable_wf : Contract -> Prop :=
  | reachable_wf_init : reachable_wf init
  | reachable_wf_step s tx s' :
      reachable_wf s -> wf_tx tx = true -> exec s tx = Ok s' -> reachable_wf s'.

(** The game whose record a call writes. *)
Definition touched (s : Contract) (c : Call) : Z :=
  match c with
  | CreateGame => nextGameId s
  | JoinGame g | StartGame g | DealRound g _ _ | PlayCard g _ => g
  end.

(** Sum of the weights of the calls that succeed along a run. *)
Fixpoint successes (weight : Call -> Z) (s : Contract) (txs : list Tx) : Z :=
  match txs with
  | [] => 0
  | tx :: rest =>
      (match exec s tx with
       | Ok _ => weight (call tx)
       | Err _ => 0
       end) + successes weight (apply_tx s tx) rest
  end.

Definition create_on (c : Call) : Z :=
  match c with
  | CreateGame => 1
  | _ => 0
  end.

Definition start_on (gameId : Z) (c : Call) : Z :=
  match c with
  | StartGame g => if g =? gameId then 1 else 0
  | _ => 0
  end.

Definition play_on (gameId : Z) (c : Call) : Z :=
  match c with
  | PlayCard g _ => if g =? gameId then 1 else 0
  | _ => 0
  end.

(** Number of slots that have played. *)
Definition plays_recorded (g : Game) : Z :=
  Z.b2z (hasPlayed0 g) + Z.b2z (hasPlayed1 g).

(** A recorded play has a hand index inside the hand. *)
Definition played_in_hand (g : Game) : Prop :=
  (hasPlayed0 g = true -> 0 <= playedIndex0 g < HAND_SIZE) /\
  (hasPlayed1 g = true -> 0 <= playedIndex1 g < HAND_SIZE).

(** The result of a finished game is the comparison of the two cards at the
    played positions. *)
Definition result_of_played (g : Game) : Prop :=
  finished g = true ->
  exists c0 c1,
    hand0 g !! Z.to_nat (playedIndex0 g) = Some c0 /\
    hand1 g !! Z.to_nat (playedIndex1 g) = Some c1 /\
    p0Wins g = Some (showdown c0 c1).

(** Everything a game has recorded in [g] is still recorded in [g']. *)
Definition game_extends (g g' : Game) : Prop :=
  (started g = true -> started g' = true) /\
  (finished g = true -> finished g' = true) /\
  dealIndex g <= dealIndex g' /\
  (player0 g <> 0 -> player0 g' = player0 g /\ createdAt g' = createdAt g) /\
  (player1 g <> 0 -> player1 g' = player1 g) /\
  (forall i : nat, (i < Z.to_nat (dealIndex g))%nat ->
     hand0 g' !! i = hand0 g !! i /\ hand1 g' !! i = hand1 g !! i) /\
  (hasPlayed0 g = true -> hasPlayed0 g' = true /\ playedIndex0 g' = playedIndex0 g) /\
  (hasPlayed1 g = true -> hasPlayed1 g' = true /\ playedIndex1 g' = playedIndex1 g).

(** What holds besides [contract_inv] when every sender is non-zero and
    every hand index a [uint8]: the ids below [nextGameId] all exist, the
    open list holds exactly those with an empty slot 1, and recorded plays
    lie inside the hand. *)
Record wf_inv (s : Contract) : Prop := mkWfInv {
  wi_exists : forall gid, 0 <= gid < nextGameId s -> player0 (game_at s gid) <> 0;
  wi_open : forall gid,
      gid ∈ _openGameIds s <->
      0 <= gid < nextGameId s /\ player1 (game_at s gid) = 0;
  wi_played : forall gid, played_in_hand (game_at s gid)
}.

(** The record of a game after [dealRound] with the random values [start0]
    and [start1]. *)
Definition dealt_round (start0 start1 : Z) (g : Game) : Game :=
  let d0 := _drawUniqueCard (usedMask g) start0 in
  let d1 := _drawUniqueCard (snd d0) start1 in
  set_dealIndex (dealIndex g + 1)
    (set_usedMask (snd d1)
       (set_hand1 (<[Z.to_nat (dealIndex g) := fst d1]> (hand1 g))
          (set_hand0 (<[Z.to_nat (dealIndex g) := fst d0]> (hand0 g)) g))).

(** The record after a successful play: the move is recorded and, when
    both have played, the result is set from the two played cards. *)
Definition after_play (g1 g2 : Game) : Prop :=
  if hasPlayed0 g1 && hasPlayed1 g1
  then exists c0 c1,
         hand0 g1 !! Z.to_nat (playedIndex0 g1) = Some c0 /\
         hand1 g1 !! Z.to_nat (playedIndex1 g1) = Some c1 /\
         g2 = set_finished true (set_p0Wins (Some (showdown c0 c1)) g1)
  else g2 = g1.

(** A game of players [a] and [b] that is started, has [k] rounds dealt and
    no play recorded. *)
Definition dealing (a b : address) (k : Z) (g : Game) : Prop :=
  player0 g = a /\ player1 g = b /\ started g = true /\ finished g = false /\
  dealIndex g = k /\ hasPlayed0 g = false /\ hasPlayed1 g = false.

(** A whole session on the game [gid]: created by [a], joined by [b],
    started, dealt with the random values [starts], played at the hand
    positions [i0] and [i1]. *)
Definition deal_txs (a : address) (gid : Z) (starts : list (Z * Z)) : list Tx :=
  map (fun r => mkTx a 0 (DealRound gid (fst r) (snd r))) starts.

Definition session_txs (a b : address) (gid : Z) (starts : list (Z * Z)) (i0 i1 : Z)
  : list Tx :=
  [mkTx a 0 CreateGame; mkTx b 0 (JoinGame gid); mkTx a 0 (StartGame gid)]
  ++ deal_txs a gid starts
  ++ [mkTx a 0 (PlayCard gid i0); mkTx b 0 (PlayCard gid i1)].

Definition sample_starts : list (Z * Z) :=
  [(5, 17); (0, 63); (40, 41); (51, 52); (12, 12); (7, 30)].

Definition valid_starts (starts : list (Z * Z)) : bool :=
  forallb (fun r => (0 <=? fst r) && (fst r <? 64) && (0 <=? snd r) && (snd r <? 64)) starts.

(** ** The reference comparison of the test suite ([computeWinner]) *)

(** On integers, [%] of JavaScript is the truncating remainder and
    [Math.floor(x / 13)] the floor division. *)
Definition computeWinner (card0 card1 : Z) : bool :=
  let r0 := Z.rem card0 13 in
  let r1 := Z.rem card1 13 in
  let s0 := card0 / 13 in
  let s1 := card1 / 13 in
  if negb (r0 =? r1) then r1 <? r0 else s1 <? s0.

(** ** The card labels of the front end ([formatCard]) *)

Module Frontend.

Import Stdlib.Strings.String.

Definition SUITS : list string := ["Clubs"; "Diamonds"; "Hearts"; "Spades"]%string.

Definition RANKS : list string :=
  ["2"; "3"; "4"; "5"; "6"; "7"; "8"; "9"; "10"; "J"; "Q"; "K"; "A"]%string.

(** [arr[i]] of JavaScript for an integer [i]: undefined outside the array. *)
Definition js_index (arr : list string) (i : Z) : option string :=
  if i <? 0 then None else arr !! Z.to_nat i.

(** [x ?? d]. *)
Definition nullish (x : option string) (d : string) : string :=
  match x with
  | Some v => v
  | None => d
  end.

Record DecryptedCard : Type := mkCard {
  value : Z;
  rank : string;
  suit : string;
  label : string
}.

(** [value] is an integer, as a decrypted [euint8] is. *)
Definition formatCard (value : Z) : DecryptedCard :=
  let rankIndex := Z.rem value 13 in
  let suitIndex := value / 13 in
  let rank := nullish (js_index RANKS rankIndex) "?" in
  let suit := nullish (js_index SUITS suitIndex) "?" in
  mkCard value rank suit (rank ++ " of " ++ suit)%string.

Definition unknown : string := "?"%string.

(** No value of the list gets an unknown rank or suit. *)
Definition labels_known (values : list Z) : bool :=
  forallb (fun a => negb (String.eqb (rank (formatCard a)) unknown) &&
                    negb (String.eqb (suit (formatCard a)) unknown)) values.

(** All ordered pairs of the list give equal labels only for equal values. *)
Definition labels_distinct (values : list Z) : bool :=
  forallb (fun a =>
    forallb (fun b => implb (String.eqb (label (formatCard a)) (label (formatCard b)))
                            (a =? b)) values) values.

End Frontend.

(** * Proofs *)

(** ** Bits *)

Section Bits.

Lemma scan_zero_spec (fuel : nat) (m : Z) :
  forall i, 0 <= i ->
    i <= scan_zero fuel m i <= i + Z.of_nat fuel /\
    (forall j, i <= j < scan_zero fuel m i -> Z.testbit m j = true) /\
    (scan_zero fuel m i < i + Z.of_nat fuel -> Z.testbit m (scan_zero fuel m i) = false).
Proof.
  induction fuel as [|f IH]; intros i Hi; simpl scan_zero.
  - repeat split; try lia.
  - destruct (Z.testbit m i) eqn:Hb.
    + destruct (IH (i + 1) ltac:(lia)) as (Hr & Hones & Hzero).
      split; [lia|]. split.
      * intros j Hj. destruct (Z.eq_dec j i) as [->|Hne]; [exact Hb|].
        apply Hones. lia.
      * intros Hlt. apply Hzero. lia.
    + split; [lia|]. split; [intros j Hj; lia|]. intros _. exact Hb.
Qed.

Lemma is_lowest_zero_unique (m p q : Z) :
  is_lowest_zero m p -> is_lowest_zero m q -> p = q.
Proof.
  intros (Hp & Hp0 & Hp1) (Hq & Hq0 & Hq1).
  destruct (Z.lt_trichotomy p q) as [Hlt|[Heq|Hgt]]; [|exact Heq|].
  - rewrite Hq1 in Hp0 by lia. discriminate.
  - rewrite Hp1 in Hq0 by lia. discriminate.
Qed.

Lemma lowest_zero_bit_spec (m : Z) :
  (exists i, 0 <= i < 64 /\ Z.testbit m i = false) ->
  is_lowest_zero m (lowest_zero_bit m) /\ lowest_zero_bit m < 64.
Proof.
  intros (i & Hi & Hb). unfold lowest_zero_bit.
  destruct (scan_zero_spec 64 m 0 ltac:(lia)) as (Hr & Hones & Hzero).
  assert (Hlt : scan_zero 64 m 0 < 64).
  { destruct (Z_lt_ge_dec (scan_zero 64 m 0) 64) as [H|H]; [exact H|].
    rewrite Hones in Hb by lia. discriminate. }
  split; [|exact Hlt].
  split; [lia|]. split; [apply Hzero; lia|].
  intros j Hj. apply Hones. lia.
Qed.

(** The lower [b] bits are all set exactly when masking with [b] ones
    gives [b] ones. *)
Lemma land_ones_full (m b : Z) :
  0 <= b ->
  (Z.land m (Z.ones b) = Z.ones b <-> forall j, 0 <= j < b -> Z.testbit m j = true).
Proof.
  intros Hb. split.
  - intros Heq j Hj.
    assert (H : Z.testbit (Z.land m (Z.ones b)) j = true).
    { rewrite Heq. apply Z.ones_spec_low. lia. }
    rewrite Z.land_spec in H. apply andb_true_iff in H. tauto.
  - intros Hall. apply Z.bits_inj'. intros n Hn.
    rewrite Z.land_spec.
    destruct (Z_lt_ge_dec n b) as [Hlt|Hge].
    + rewrite Hall by lia. reflexivity.
    + rewrite Z.ones_spec_high by lia. apply andb_false_r.
Qed.

(** One step of the binary search keeps the position of the lowest zero
    bit, measured from the original origin, and halves the window. *)
Lemma skipIfLowerFull_step (m idx b p : Z) :
  0 < b < 64 -> 0 <= idx -> idx + b < 256 ->
  is_lowest_zero m p -> p < 2 * b ->
  exists p',
    is_lowest_zero (fst (_skipIfLowerFull m idx b (Z.ones b))) p' /\
    0 <= p' < b /\
    snd (_skipIfLowerFull m idx b (Z.ones b)) + p' = idx + p /\
    idx <= snd (_skipIfLowerFull m idx b (Z.ones b)).
Proof.
  intros Hb Hidx Hsum (Hp & Hp0 & Hp1) Hlt.
  assert (Hones : 0 <= Z.ones b < 2 ^ 64).
  { rewrite Z.ones_equiv. split.
    - assert (0 < 2 ^ b) by (apply Z.pow_pos_nonneg; lia). lia.
    - assert (2 ^ b <= 2 ^ 64) by (apply Z.pow_le_mono_r; lia). lia. }
  unfold _skipIfLowerFull, FHE.asEuint64, FHE.wrap64, FHE.and64, FHE.eq,
    FHE.select, FHE.shr64, FHE.add8, FHE.wrap8. simpl fst; simpl snd.
  rewrite (Z.mod_small (Z.ones b)) by exact Hones.
  destruct (Z.eqb_spec (Z.land m (Z.ones b)) (Z.ones b)) as [Hfull|Hnot].
  - pose proof (proj1 (land_ones_full m b ltac:(lia)) Hfull) as Hall.
    assert (Hpb : b <= p).
    { destruct (Z_lt_ge_dec p b) as [H|H]; [|lia].
      rewrite Hall in Hp0 by lia. discriminate. }
    exists (p - b).
    rewrite (Z.mod_small b 64) by lia.
    rewrite (Z.mod_small (idx + b)) by (change (2 ^ 8) with 256; lia).
    repeat split; try lia.
    + rewrite Z.shiftr_spec by lia. replace (p - b + b) with p by lia. exact Hp0.
    + intros j Hj. rewrite Z.shiftr_spec by lia. apply Hp1. lia.
  - exists p.
    assert (Hpb : p < b).
    { destruct (Z_lt_ge_dec p b) as [H|H]; [exact H|].
      exfalso. apply Hnot. apply land_ones_full; [lia|].
      intros j Hj. apply Hp1. lia. }
    repeat split; try lia; assumption.
Qed.

Lemma land_one_full (m : Z) : Z.land m 1 = 1 <-> Z.testbit m 0 = true.
Proof.
  change 1 with (Z.ones 1) at 1 2. rewrite land_ones_full by lia.
  split.
  - intros H. apply H. lia.
  - intros H j Hj. replace j with 0 by lia. exact H.
Qed.

(** The binary search returns the position of the lowest zero bit whenever
    there is one among the 64 bits. *)
Lemma firstZeroBitIndex_lowest (m p : Z) :
  is_lowest_zero m p -> p < 64 -> _firstZeroBitIndex m = p.
Proof.
  intros Hlow Hp. unfold _firstZeroBitIndex.
  change (FHE.asEuint8 0) with 0.
  change 0xFFFFFFFF with (Z.ones 32). change 0xFFFF with (Z.ones 16).
  change 0xFF with (Z.ones 8). change 0xF with (Z.ones 4). change 0x3 with (Z.ones 2).
  destruct (skipIfLowerFull_step m 0 32 p) as (p1 & L1 & B1 & S1 & I1); try lia; [exact Hlow|].
  destruct (_skipIfLowerFull m 0 32 (Z.ones 32)) as [m1 i1]. simpl fst in *; simpl snd in *.
  destruct (skipIfLowerFull_step m1 i1 16 p1) as (p2 & L2 & B2 & S2 & I2); try lia; [exact L1|].
  destruct (_skipIfLowerFull m1 i1 16 (Z.ones 16)) as [m2 i2]. simpl fst in *; simpl snd in *.
  destruct (skipIfLowerFull_step m2 i2 8 p2) as (p3 & L3 & B3 & S3 & I3); try lia; [exact L2|].
  destruct (_skipIfLowerFull m2 i2 8 (Z.ones 8)) as [m3 i3]. simpl fst in *; simpl snd in *.
  destruct (skipIfLowerFull_step m3 i3 4 p3) as (p4 & L4 & B4 & S4 & I4); try lia; [exact L3|].
  destruct (_skipIfLowerFull m3 i3 4 (Z.ones 4)) as [m4 i4]. simpl fst in *; simpl snd in *.
  destruct (skipIfLowerFull_step m4 i4 2 p4) as (p5 & L5 & B5 & S5 & I5); try lia; [exact L4|].
  destruct (_skipIfLowerFull m4 i4 2 (Z.ones 2)) as [m5 i5]. simpl fst in *; simpl snd in *.
  destruct L5 as (Hp5 & Hz5 & Ho5).
  unfold FHE.and64, FHE.eq, FHE.select, FHE.add8, FHE.wrap8.
  change (FHE.asEuint64 1) with 1.
  destruct (Z.eqb_spec (Z.land m5 1) 1) as [Hfull|Hnot].
  - apply land_one_full in Hfull.
    assert (p5 = 1).
    { destruct (Z.eq_dec p5 0) as [->|]; [congruence|lia]. }
    rewrite Z.mod_small by (change (2 ^ 8) with 256; lia). lia.
  - assert (p5 = 0).
    { destruct (Z.eq_dec p5 0) as [|Hne]; [assumption|].
      exfalso. apply Hnot. apply land_one_full. apply Ho5. lia. }
    lia.
Qed.

Lemma testbit_high (a j : Z) :
  0 <= a < 2 ^ 64 -> 64 <= j -> Z.testbit a j = false.
Proof.
  intros Ha Hj. rewrite <- (Z.mod_small a (2 ^ 64)) by exact Ha.
  apply Z.mod_pow2_bits_high. lia.
Qed.

(** Bit [i] of the rotation is bit [(i + s) mod 64] of the operand. *)
Lemma rotr64_testbit (a s i : Z) :
  (forall j, 64 <= j -> Z.testbit a j = false) ->
  0 <= s < 64 -> 0 <= i < 64 ->
  Z.testbit (FHE.rotr64 a s) i = Z.testbit a ((i + s) mod 64).
Proof.
  intros Hhigh Hs Hi. unfold FHE.rotr64, FHE.wrap64.
  rewrite (Z.mod_small s 64) by lia.
  rewrite Z.mod_pow2_bits_low by lia.
  rewrite Z.lor_spec, Z.shiftr_spec, Z.shiftl_spec by lia.
  destruct (Z_lt_ge_dec (i + s) 64) as [Hlt|Hge].
  - rewrite (Z.mod_small (i + s)) by lia.
    rewrite (Z.testbit_neg_r a (i - (64 - s))) by lia.
    apply orb_false_r.
  - rewrite (Hhigh (i + s)) by lia. simpl orb.
    f_equal. symmetry.
    replace (i + s) with ((i - (64 - s)) + 1 * 64) by lia.
    rewrite Z.mod_add by lia. apply Z.mod_small. lia.
Qed.

(** The sentinel mask has exactly the bits 52..63. *)
Lemma dummy_testbit (j : Z) :
  0 <= j -> Z.testbit _DUMMY_USED_MASK j = (52 <=? j) && (j <? 64).
Proof.
  intros Hj. change _DUMMY_USED_MASK with (Z.shiftl (Z.ones 12) 52).
  rewrite Z.shiftl_spec by lia.
  destruct (Z.leb_spec 52 j) as [H52|H52]; simpl andb.
  - destruct (Z.ltb_spec j 64) as [H64|H64].
    + apply Z.ones_spec_low. lia.
    + apply Z.ones_spec_high. lia.
  - apply Z.testbit_neg_r. lia.
Qed.

Lemma with_dummies_testbit (used j : Z) :
  0 <= used < 2 ^ 64 -> 0 <= j ->
  Z.testbit (FHE.or64 used (FHE.asEuint64 _DUMMY_USED_MASK)) j =
  Z.testbit used j || ((52 <=? j) && (j <? 64)).
Proof.
  intros Hu Hj. change (FHE.asEuint64 _DUMMY_USED_MASK) with _DUMMY_USED_MASK.
  unfold FHE.or64. rewrite Z.lor_spec, dummy_testbit by lia. reflexivity.
Qed.

(** What one draw returns, given the position [p] of the lowest zero bit
    of the rotated mask. *)
Lemma drawUniqueCard_at (used start p : Z) :
  0 <= used < 2 ^ 64 -> 0 <= start < 64 ->
  is_lowest_zero (FHE.rotr64 (FHE.or64 used (FHE.asEuint64 _DUMMY_USED_MASK)) start) p ->
  p < 64 ->
  let card := (p + start) mod 64 in
  _drawUniqueCard used start = (card, Z.lor used (Z.shiftl 1 card)) /\
  0 <= card < 52 /\ Z.testbit used card = false.
Proof.
  intros Hu Hs Hlow Hp card.
  assert (Hcard : 0 <= card < 64) by (apply Z.mod_pos_bound; lia).
  pose proof Hlow as (Hp0 & Hzero & _).
  rewrite rotr64_testbit in Hzero; try lia.
  2:{ intros j Hj. rewrite with_dummies_testbit by lia.
      rewrite (testbit_high used j) by lia.
      destruct (Z.ltb_spec j 64); [lia|]. apply andb_false_r. }
  fold card in Hzero. rewrite with_dummies_testbit in Hzero by lia.
  apply orb_false_iff in Hzero. destruct Hzero as [Hfree Hsent].
  assert (Hdeck : card < 52).
  { destruct (Z.leb_spec 52 card) as [H52|H52]; [|exact H52].
    destruct (Z.ltb_spec card 64); [discriminate|lia]. }
  split; [|split; [lia|exact Hfree]].
  unfold _drawUniqueCard. rewrite (firstZeroBitIndex_lowest _ p Hlow Hp).
  unfold FHE.add8, FHE.wrap8, FHE.and8, FHE.shl64, FHE.or64, FHE.wrap64.
  change (FHE.asEuint64 1) with 1.
  rewrite (Z.mod_small (p + start)) by (change (2 ^ 8) with 256; lia).
  change 63 with (Z.ones 6). rewrite Z.land_ones by lia.
  change (2 ^ 6) with 64. fold card.
  rewrite (Z.mod_small card 64) by lia.
  rewrite Z.shiftl_1_l.
  rewrite (Z.mod_small (2 ^ card)).
  2:{ split; [apply Z.pow_nonneg; lia|apply Z.pow_lt_mono_r; lia]. }
  reflexivity.
Qed.

(** A free deck slot leaves a zero bit in the rotated mask. *)
Lemma rotated_has_zero (used start : Z) :
  0 <= used < 2 ^ 64 -> 0 <= start < 64 ->
  (exists i, 0 <= i < 52 /\ Z.testbit used i = false) ->
  exists k, 0 <= k < 64 /\
    Z.testbit (FHE.rotr64 (FHE.or64 used (FHE.asEuint64 _DUMMY_USED_MASK)) start) k = false.
Proof.
  intros Hu Hs (i & Hi & Hfree).
  exists ((i - start) mod 64).
  assert (Hk : 0 <= (i - start) mod 64 < 64) by (apply Z.mod_pos_bound; lia).
  split; [exact Hk|].
  rewrite rotr64_testbit; try lia.
  2:{ intros j Hj. rewrite with_dummies_testbit by lia.
      rewrite (testbit_high used j) by lia.
      destruct (Z.ltb_spec j 64); [lia|]. apply andb_false_r. }
  rewrite Zplus_mod_idemp_l. replace (i - start + start) with i by lia.
  rewrite (Z.mod_small i 64) by lia.
  rewrite with_dummies_testbit by lia. rewrite Hfree.
  destruct (Z.leb_spec 52 i); [lia|]. reflexivity.
Qed.

End Bits.

(** ** Storage access *)

Section Storage.

Lemma game_at_set_game (s : Contract) (gid gid' : Z) (g : Game) :
  game_at (set_game gid g s) gid' = if decide (gid = gid') then g else game_at s gid'.
Proof.
  unfold game_at, set_game; simpl. rewrite lookup_insert. 
  destruct (decide (gid = gid')); reflexivity.
Qed.

Lemma game_at_set_game_eq (s : Contract) (gid : Z) (g : Game) :
  game_at (set_game gid g s) gid = g.
Proof. rewrite game_at_set_game. destruct (decide (gid = gid)); congruence. Qed.

Lemma game_at_set_game_ne (s : Contract) (gid gid' : Z) (g : Game) :
  gid <> gid' -> game_at (set_game gid g s) gid' = game_at s gid'.
Proof. intros H. rewrite game_at_set_game. destruct (decide (gid = gid')); congruence. Qed.

Lemma open_index_at_set (s : Contract) (gid gid' v : Z) :
  open_index_at (set_open_index gid v s) gid' =
  if decide (gid = gid') then v else open_index_at s gid'.
Proof.
  unfold open_index_at, set_open_index; simpl. rewrite lookup_insert.
  destruct (decide (gid = gid')); reflexivity.
Qed.

Lemma getGame_ok (s : Contract) (gid : Z) (g : Game) :
  _getGame s gid = Ok g <-> g = game_at s gid /\ player0 (game_at s gid) <> 0.
Proof.
  unfold _getGame. destruct (Z.eqb_spec (player0 (game_at s gid)) 0) as [H|H].
  - split; [discriminate|]. intros [_ Hne]. contradiction.
  - split; [intros [= <-]; auto|]. intros [-> _]. reflexivity.
Qed.

Lemma getGame_err (s : Contract) (gid : Z) :
  player0 (game_at s gid) = 0 -> _getGame s gid = Err (GameNotFound gid).
Proof. intros H. unfold _getGame. rewrite H. reflexivity. Qed.

Lemma getGame_found (s : Contract) (gid : Z) :
  player0 (game_at s gid) <> 0 -> _getGame s gid = Ok (game_at s gid).
Proof. intros H. apply getGame_ok. auto. Qed.

End Storage.

(** ** What a successful call did *)

(** Splits a hypothesis that a monadic computation succeeded. *)
Ltac ok_inv H :=
  repeat match type of H with
    | Err _ = Ok _ => discriminate H
    | Ok _ = Ok _ => injection H as H
    | mbind _ ?m = Ok _ =>
        let E := fresh "E" in
        destruct m eqn:E; [cbn [mbind Result_bind] in H | discriminate H]
    | (if ?b then _ else _) = Ok _ =>
        let E := fresh "E" in destruct b eqn:E
    | (let '(_, _) := ?p in _) = Ok _ =>
        let E := fresh "E" in destruct p eqn:E
    end.

(** Turns boolean tests among the hypotheses into propositions. *)
Ltac zbool :=
  repeat match goal with
    | H : (_ && _) = true |- _ => apply andb_true_iff in H as [? ?]
    | H : (_ || _) = false |- _ => apply orb_false_iff in H as [? ?]
    | H : negb _ = false |- _ => apply negb_false_iff in H
    | H : negb _ = true |- _ => apply negb_true_iff in H
    | H : (_ <=? _) = true |- _ => apply Z.leb_le in H
    | H : (_ <=? _) = false |- _ => apply Z.leb_gt in H
    | H : (_ <? _) = true |- _ => apply Z.ltb_lt in H
    | H : (_ <? _) = false |- _ => apply Z.ltb_ge in H
    | H : (_ =? _) = true |- _ => apply Z.eqb_eq in H
    | H : (_ =? _) = false |- _ => apply Z.eqb_neq in H
    end.

(** Computes the projections of updated game records. *)
Ltac game_cbn :=
  cbn [player0 player1 started finished createdAt usedMask dealIndex hand0 hand1
       playedIndex0 playedIndex1 hasPlayed0 hasPlayed1 p0Wins
       set_player0 set_player1 set_started set_finished set_createdAt set_usedMask
       set_dealIndex set_hand0 set_hand1 set_playedIndex0 set_playedIndex1
       set_hasPlayed0 set_hasPlayed1 set_p0Wins] in *.

Ltac ok_inv_all :=
  repeat match goal with
    | H : _ = Ok _ |- _ => progress ok_inv H
    end.

Section Inversion.

Lemma is_player_cases (sender : Z) (g : Game) :
  negb (sender =? player0 g) && negb (sender =? player1 g) = false ->
  sender = player0 g \/ sender = player1 g.
Proof.
  intros H. destruct (Z.eqb_spec sender (player0 g)); [auto|].
  destruct (Z.eqb_spec sender (player1 g)); [auto|discriminate].
Qed.

Lemma checked_add_ok (bound a b r : Z) :
  checked_add bound a b = Ok r <-> a + b <= bound /\ r = a + b.
Proof.
  unfold checked_add. destruct (Z.leb_spec (a + b) bound).
  - split; [intros [= <-]; auto|intros [_ ->]; reflexivity].
  - split; [discriminate|lia].
Qed.

Lemma checked_sub_ok (a b r : Z) :
  checked_sub a b = Ok r <-> b <= a /\ r = a - b.
Proof.
  unfold checked_sub. destruct (Z.leb_spec b a).
  - split; [intros [= <-]; auto|intros [_ ->]; reflexivity].
  - split; [discriminate|lia].
Qed.

Lemma array_set_ok (l l' : list Z) (i x : Z) :
  array_set l i x = Ok l' <->
  0 <= i < Z.of_nat (length l) /\ l' = <[Z.to_nat i := x]> l.
Proof.
  unfold array_set. split.
  - intros H. ok_inv H. zbool. subst. split; [lia|reflexivity].
  - intros [Hi ->].
    destruct (Z.leb_spec 0 i); [|lia].
    destruct (Z.ltb_spec i (Z.of_nat (length l))); [|lia]. reflexivity.
Qed.

Lemma array_get_ok (l : list Z) (i x : Z) :
  array_get l i = Ok x <-> 0 <= i /\ l !! Z.to_nat i = Some x.
Proof.
  unfold array_get. split.
  - intros H. ok_inv H. zbool.
    destruct (l !! Z.to_nat i) eqn:El; [|discriminate].
    injection H as ->. auto.
  - intros [Hi Hl]. pose proof (lookup_lt_Some _ _ _ Hl) as Hlen.
    destruct (Z.leb_spec 0 i); [|lia].
    destruct (Z.ltb_spec i (Z.of_nat (length l))); [|lia].
    simpl. rewrite Hl. reflexivity.
Qed.

Lemma startGame_ok (sender gid : Z) (s s' : Contract) :
  startGame sender gid s = Ok s' ->
  let g := game_at s gid in
  player0 g <> 0 /\ player1 g <> 0 /\ started g = false /\
  (sender = player0 g \/ sender = player1 g) /\
  s' = set_game gid (set_usedMask 0 (set_dealIndex 0 (set_started true g))) s.
Proof.
  intros H g. unfold startGame in H. ok_inv H.
  apply getGame_ok in E as [-> Hp0]. fold g in E0, E1, E2 |- *.
  apply is_player_cases in E2. zbool.
  subst s'. auto 10.
Qed.

Lemma dealRound_ok (sender gid start0 start1 : Z) (s s' : Contract) :
  dealRound sender gid start0 start1 s = Ok s' ->
  let g := game_at s gid in
  let d0 := _drawUniqueCard (usedMask g) start0 in
  let d1 := _drawUniqueCard (snd d0) start1 in
  player0 g <> 0 /\ started g = true /\ finished g = false /\
  0 <= dealIndex g < Z.of_nat (length (hand0 g)) /\
  dealIndex g < Z.of_nat (length (hand1 g)) /\
  dealIndex g < HAND_SIZE /\
  (sender = player0 g \/ sender = player1 g) /\
  s' = set_game gid
         (set_dealIndex (dealIndex g + 1)
            (set_usedMask (snd d1)
               (set_hand1 (<[Z.to_nat (dealIndex g) := fst d1]> (hand1 g))
                  (set_hand0 (<[Z.to_nat (dealIndex g) := fst d0]> (hand0 g)) g)))) s.
Proof.
  intros H g d0 d1. unfold dealRound in H. ok_inv H.
  apply getGame_ok in E as [-> Hp0]. fold g in E0, E1, E2, E3, E4, E5, H |- *.
  cbn [hand1 set_hand0] in E7. fold g in E7, E8.
  apply array_set_ok in E5 as [? ->]. apply array_set_ok in E7 as [? ->].
  apply checked_add_ok in E8 as [? ->].
  apply is_player_cases in E3. zbool.
  subst d0 d1. rewrite E4. cbn [snd]. rewrite E6. cbn [fst snd].
  subst. repeat (split; [first [assumption | lia]|]). reflexivity.
Qed.

Lemma removeOpen_frame (gid : Z) (s s' : Contract) :
  _removeOpen gid s = Ok s' ->
  _games s' = _games s /\ nextGameId s' = nextGameId s.
Proof.
  intros H. unfold _removeOpen in H. ok_inv H; ok_inv_all; subst; auto.
Qed.

Lemma removeOpen_game_at (gid gid' : Z) (s s' : Contract) :
  _removeOpen gid s = Ok s' -> game_at s' gid' = game_at s gid'.
Proof.
  intros H. apply removeOpen_frame in H as [Hg _]. unfold game_at. rewrite Hg. reflexivity.
Qed.

Lemma joinGame_ok (sender gid : Z) (s s' : Contract) :
  joinGame sender gid s = Ok s' ->
  let g := game_at s gid in
  player0 g <> 0 /\ started g = false /\ player1 g = 0 /\ player0 g <> sender /\
  _removeOpen gid (set_game gid (set_player1 sender g) s) = Ok s'.
Proof.
  intros H g. unfold joinGame in H.
  destruct (_getGame s gid) as [g0|] eqn:E; [|discriminate].
  apply getGame_ok in E as [-> Hp0]. cbn [mbind Result_bind] in H. fold g in H, Hp0.
  destruct (started g) eqn:E0; [discriminate|].
  destruct (negb (player1 g =? 0)) eqn:E1; [discriminate|].
  destruct (player0 g =? 0) eqn:E2; [discriminate|].
  destruct (player0 g =? sender) eqn:E3; [discriminate|].
  zbool. auto.
Qed.

Lemma pushOpen_frame (gid : Z) (s s' : Contract) :
  _pushOpen gid s = Ok s' ->
  _games s' = _games s /\ nextGameId s' = nextGameId s /\
  _openGameIds s' = _openGameIds s ++ [gid] /\
  _openIndexPlusOne s' =
    <[gid := Z.of_nat (length (_openGameIds s)) + 1]> (_openIndexPlusOne s).
Proof.
  intros H. unfold _pushOpen in H. ok_inv H.
  apply checked_add_ok in E as [_ ->]. subst. auto.
Qed.

Lemma createGame_ok (sender timestamp gid : Z) (s s' : Contract) :
  createGame sender timestamp s = Ok (s', gid) ->
  gid = nextGameId s /\ nextGameId s + 1 <= MAX_UINT256 /\
  _pushOpen gid
    (set_game gid (set_createdAt timestamp (set_player0 sender (game_at s gid)))
       (set_nextGameId (nextGameId s + 1) s)) = Ok s'.
Proof.
  intros H. unfold createGame in H. ok_inv H.
  apply checked_add_ok in E as [? ->]. subst. auto.
Qed.

Lemma finishGame_ok (gid : Z) (g g' : Game) :
  _finishGame gid g = Ok g' ->
  exists c0 c1,
    hand0 g !! Z.to_nat (playedIndex0 g) = Some c0 /\
    hand1 g !! Z.to_nat (playedIndex1 g) = Some c1 /\
    g' = set_finished true (set_p0Wins (Some (showdown c0 c1)) g).
Proof.
  intros H. unfold _finishGame in H. ok_inv H.
  apply array_get_ok in E as [_ E]. apply array_get_ok in E0 as [_ E0].
  exists a, a0. subst. auto.
Qed.

Lemma playCard_ok (sender gid handIndex : Z) (s s' : Contract) :
  playCard sender gid handIndex s = Ok s' ->
  let g := game_at s gid in
  let isP0 := sender =? player0 g in
  let g1 := record_play isP0 handIndex g in
  player0 g <> 0 /\ started g = true /\ finished g = false /\
  HAND_SIZE <= dealIndex g /\ handIndex < HAND_SIZE /\
  (sender = player0 g \/ sender = player1 g) /\
  (if isP0 then hasPlayed0 g = false else hasPlayed1 g = false) /\
  exists g2,
    (if hasPlayed0 g1 && hasPlayed1 g1 then _finishGame gid g1 = Ok g2 else g2 = g1) /\
    s' = set_game gid g2 s.
Proof.
  intros H g isP0 g1. unfold playCard in H.
  destruct (_getGame s gid) as [g0|] eqn:E; [|discriminate].
  apply getGame_ok in E as [-> Hp0]. cbn [mbind Result_bind] in H. fold g in H, Hp0.
  destruct (negb (started g)) eqn:E0; [discriminate|].
  destruct (finished g) eqn:E1; [discriminate|].
  destruct (dealIndex g <? HAND_SIZE) eqn:E2; [discriminate|].
  destruct (HAND_SIZE <=? handIndex) eqn:E3; [discriminate|].
  destruct (negb (sender =? player0 g) && negb (sender =? player1 g)) eqn:E4; [discriminate|].
  apply is_player_cases in E4. zbool. fold isP0 in H.
  assert (Hrec : (if isP0 then hasPlayed0 g = false else hasPlayed1 g = false) /\
                 exists g2, (if hasPlayed0 g1 && hasPlayed1 g1
                             then _finishGame gid g1 = Ok g2 else g2 = g1) /\
                            s' = set_game gid g2 s).
  { subst g1. unfold record_play. destruct isP0.
    - destruct (hasPlayed0 g) eqn:Eh; [discriminate|]. cbn [mbind Result_bind] in H.
      split; [reflexivity|].
      match type of H with context [if ?c then _ else _] => destruct c end.
      + destruct (_finishGame gid _) as [g2|] eqn:Ef; [|discriminate].
        injection H as <-. exists g2. auto.
      + injection H as <-. eexists; split; reflexivity.
    - destruct (hasPlayed1 g) eqn:Eh; [discriminate|]. cbn [mbind Result_bind] in H.
      split; [reflexivity|].
      match type of H with context [if ?c then _ else _] => destruct c end.
      + destruct (_finishGame gid _) as [g2|] eqn:Ef; [|discriminate].
        injection H as <-. exists g2. auto.
      + injection H as <-. eexists; split; reflexivity. }
  destruct Hrec as [Hplayed Hg2].
  repeat (split; [first [assumption | lia]|]). exact Hg2.
Qed.

End Inversion.

(** ** Dealing keeps the cards distinct *)

Section Deal.

Lemma lor_range (a b : Z) :
  0 <= a < 2 ^ 64 -> 0 <= b < 2 ^ 64 -> 0 <= Z.lor a b < 2 ^ 64.
Proof.
  intros Ha Hb.
  assert (Hmod : Z.lor a b = Z.lor a b mod 2 ^ 64).
  { apply Z.bits_inj'. intros n Hn.
    destruct (Z_lt_ge_dec n 64) as [Hlt|Hge].
    - rewrite Z.mod_pow2_bits_low by lia. reflexivity.
    - rewrite Z.mod_pow2_bits_high by lia.
      rewrite Z.lor_spec, (testbit_high a n), (testbit_high b n) by lia. reflexivity. }
  rewrite Hmod. apply Z.mod_pos_bound. lia.
Qed.

Lemma bit_testbit (c j : Z) :
  0 <= c -> 0 <= j -> (Z.testbit (Z.shiftl 1 c) j = true <-> j = c).
Proof.
  intros Hc Hj. rewrite Z.shiftl_1_l, Z.pow2_bits_eqb by lia.
  rewrite Z.eqb_eq. split; congruence.
Qed.

(** Fewer than 52 cards dealt leave a free deck slot. *)
Lemma free_slot_exists (used : Z) (D : list Z) :
  mask_tracks used D -> (length D < 52)%nat ->
  exists i, 0 <= i < 52 /\ Z.testbit used i = false.
Proof.
  intros [_ Hbits] Hlen.
  destruct (Forall_Exists_dec (fun i => Z.testbit used i = true)
              (fun i => Z.testbit used i = false)
              (fun i => match Z.testbit used i as b
                              return {b = true} + {b = false} with
                        | true => left eq_refl
                        | false => right eq_refl
                        end)
              (seqZ 0 52)) as [Hall|Hex].
  - exfalso.
    assert (Hsub : seqZ 0 52 ⊆+ D).
    { apply NoDup_submseteq; [apply NoDup_seqZ|].
      intros x Hx. apply Hbits.
      - apply elem_of_seqZ in Hx. lia.
      - rewrite Forall_forall in Hall. apply Hall. exact Hx. }
    apply submseteq_length in Hsub. rewrite length_seqZ in Hsub. lia.
  - apply Exists_exists in Hex as (i & Hi & Hfree).
    exists i. apply elem_of_seqZ in Hi. split; [lia|exact Hfree].
Qed.

(** One draw against a mask that tracks the cards [D]. *)
Lemma draw_fresh (used : Z) (D : list Z) (start : Z) :
  mask_tracks used D -> (length D < 52)%nat -> 0 <= start < 64 ->
  let d := _drawUniqueCard used start in
  in_deck (fst d) /\ (fst d ∉ D) /\ mask_tracks (snd d) (fst d :: D).
Proof.
  intros Htracks Hlen Hstart d.
  pose proof (free_slot_exists used D Htracks Hlen) as Hfree.
  destruct Htracks as [Hrange Hbits].
  pose proof (rotated_has_zero used start Hrange Hstart Hfree) as Hzero.
  apply lowest_zero_bit_spec in Hzero as [Hlow Hp].
  destruct (drawUniqueCard_at used start _ Hrange Hstart Hlow Hp) as (Hd & Hdeck & Hbit).
  subst d. rewrite Hd. cbn [fst snd].
  set (card := (_ + start) mod 64) in *.
  split; [exact Hdeck|]. split.
  - intros Hin. apply Hbits in Hin; [congruence|lia].
  - split.
    + apply lor_range; [exact Hrange|].
      rewrite Z.shiftl_1_l. split; [apply Z.pow_nonneg; lia|].
      apply Z.pow_lt_mono_r; lia.
    + intros j Hj. rewrite Z.lor_spec, orb_true_iff, elem_of_cons.
      rewrite (Hbits j Hj). rewrite (bit_testbit card j) by lia. tauto.
Qed.

Lemma take_S_insert (l : list Z) (n : nat) (x : Z) :
  (n < length l)%nat -> take (S n) (<[n := x]> l) = take n l ++ [x].
Proof.
  intros Hn. rewrite (take_S_r _ _ x) by (apply list_lookup_insert_eq; exact Hn).
  rewrite take_insert_ge by lia. reflexivity.
Qed.

(** A dealt round adds the two drawn cards to the dealt cards. *)
Lemma dealt_after_round (g : Game) (c0 c1 used : Z) :
  0 <= dealIndex g ->
  (Z.to_nat (dealIndex g) < length (hand0 g))%nat ->
  (Z.to_nat (dealIndex g) < length (hand1 g))%nat ->
  dealt (set_dealIndex (dealIndex g + 1)
           (set_usedMask used
              (set_hand1 (<[Z.to_nat (dealIndex g) := c1]> (hand1 g))
                 (set_hand0 (<[Z.to_nat (dealIndex g) := c0]> (hand0 g)) g))))
  ≡ₚ c1 :: c0 :: dealt g.
Proof.
  intros Hk H0 H1. unfold dealt, dealt0, dealt1.
  cbn [dealIndex hand0 hand1 set_dealIndex set_usedMask set_hand0 set_hand1].
  replace (Z.to_nat (dealIndex g + 1)) with (S (Z.to_nat (dealIndex g))) by lia.
  rewrite !take_S_insert by assumption.
  solve_Permutation.
Qed.

Lemma length_dealt (g : Game) :
  game_inv g -> length (dealt g) = (2 * Z.to_nat (dealIndex g))%nat.
Proof.
  intros Hinv. destruct Hinv. unfold dealt, dealt0, dealt1, HAND_SIZE in *.
  rewrite length_app, !length_take. lia.
Qed.

End Deal.

(** ** Every step of a game keeps its invariant *)

Section GameInvariant.

Lemma mask_tracks_zero : mask_tracks 0 [].
Proof.
  split; [lia|]. intros j Hj. rewrite Z.bits_0. split; [discriminate|].
  intros H. inversion H.
Qed.

Lemma mask_tracks_perm (used : Z) (D D' : list Z) :
  D' ≡ₚ D -> mask_tracks used D -> mask_tracks used D'.
Proof.
  intros Hperm [Hrange Hbits]. split; [exact Hrange|].
  intros j Hj. rewrite Hperm. apply Hbits. exact Hj.
Qed.

Lemma game_inv_empty : game_inv empty_game.
Proof.
  split; cbn; try (intros; congruence); try tauto; try reflexivity.
  - unfold HAND_SIZE. lia.
  - intros [H|H]; discriminate.
  - split; [discriminate|]. intros [x Hx]. discriminate.
  - apply mask_tracks_zero.
  - constructor.
  - constructor.
Qed.

Lemma game_step_inv (gid : Z) (tx : Tx) (g g' : Game) :
  valid_tx tx = true -> game_inv g -> game_step gid tx g g' -> game_inv g'.
Proof.
  intros Hvalid Hinv Hstep.
  destruct Hstep as [Hc -> | Hc Hp0 Hs Hp1 Hne | Hc Hp0 Hp1 Hs
                    | start0 start1 Hc Hp0 Hs Hf Hk d0 d1
                    | handIndex g2 Hc Hp0 Hs Hf Hk Hsender isP0 g1 Hnot Hfin].
  - (* create *)
    pose proof game_inv_empty as [].
    split; cbn; try assumption; intros; try assumption; discriminate.
  - (* join *)
    destruct Hinv.
    split; cbn; try assumption; intros; try congruence.
  - (* start *)
    destruct Hinv. destruct (gi_unstarted0 Hs) as (Hk0 & Hh0 & Hh1).
    split; cbn; try assumption; intros; try congruence; try tauto.
    + destruct H; congruence.
    + apply mask_tracks_zero.
    + constructor.
    + constructor.
  - (* deal *)
    assert (Hs0 : 0 <= start0 < 64 /\ 0 <= start1 < 64).
    { unfold valid_tx in Hvalid. rewrite Hc in Hvalid. zbool. lia. }
    pose proof (length_dealt g Hinv) as Hlen.
    destruct Hinv. unfold HAND_SIZE in *.
    destruct (draw_fresh (usedMask g) (dealt g) start0 gi_mask0 ltac:(lia) ltac:(lia))
      as (Hdeck0 & Hnew0 & Htracks0).
    fold d0 in Hdeck0, Hnew0, Htracks0.
    destruct (draw_fresh (snd d0) (fst d0 :: dealt g) start1 Htracks0
                ltac:(cbn [length]; lia) ltac:(lia))
      as (Hdeck1 & Hnew1 & Htracks1).
    fold d1 in Hdeck1, Hnew1, Htracks1.
    pose proof (dealt_after_round g (fst d0) (fst d1) (snd d1)
                  ltac:(lia) ltac:(lia) ltac:(lia)) as Hperm.
    clearbody d0 d1.
    split.
    + cbn. rewrite length_insert. assumption.
    + cbn. rewrite length_insert. assumption.
    + cbn. unfold HAND_SIZE. lia.
    + cbn. assumption.
    + cbn. congruence.
    + cbn. assumption.
    + cbn. intros H. apply gi_played0 in H. lia.
    + cbn. assumption.
    + cbn. assumption.
    + apply (mask_tracks_perm _ _ _ Hperm). exact Htracks1.
    + rewrite Hperm. apply NoDup_cons. split; [exact Hnew1|].
      apply NoDup_cons. split; assumption.
    + rewrite Hperm. apply Forall_cons_2; [exact Hdeck1|].
      apply Forall_cons_2; assumption.
  - (* play *)
    destruct Hinv. unfold HAND_SIZE in *.
    assert (Hd1 : dealt g1 = dealt g)
      by (subst g1; unfold record_play; destruct isP0; reflexivity).
    destruct (hasPlayed0 g1 && hasPlayed1 g1) eqn:Hboth.
    + apply finishGame_ok in Hfin as (c0 & c1 & _ & _ & ->).
      apply andb_true_iff in Hboth as [Hb0 Hb1].
      split; try (change (dealt (set_finished _ (set_p0Wins _ g1))) with (dealt g1);
                  rewrite Hd1; assumption).
      all: subst g1; unfold record_play in *; destruct isP0; game_cbn.
      all: try assumption; try (unfold HAND_SIZE; lia); try congruence.
      all: try (intros; reflexivity).
      all: try (intros; unfold HAND_SIZE; lia).
      all: try (split; intros; eauto).
      all: try (rewrite ?Hb0, ?Hb1; reflexivity).
    + subst g2.
      split; try (rewrite Hd1; assumption).
      all: subst g1; unfold record_play in *; destruct isP0; game_cbn.
      all: try assumption; try (unfold HAND_SIZE; lia); try congruence.
      all: try (intros; unfold HAND_SIZE; lia).
Qed.

End GameInvariant.

(** ** Every successful transaction is a step of the games it touches *)

Section ContractInvariant.

Lemma game_at_fresh (s : Contract) (gid : Z) :
  _games s !! gid = None -> game_at s gid = empty_game.
Proof. intros H. unfold game_at. rewrite H. reflexivity. Qed.

(** A successful transaction changes the record of a game only by a step
    of that game. *)
Lemma exec_game_step (s s' : Contract) (tx : Tx) (gid : Z) :
  (forall id, nextGameId s <= id -> _games s !! id = None) ->
  exec s tx = Ok s' ->
  game_at s' gid = game_at s gid \/ game_step gid tx (game_at s gid) (game_at s' gid).
Proof.
  intros Hfresh Hexec. unfold exec in Hexec.
  destruct (call tx) as [|id|id|id start0 start1|id handIndex] eqn:Hc.
  - (* createGame *)
    destruct (createGame (sender tx) (timestamp tx) s) as [[s1 id]|] eqn:Hcr; [|discriminate].
    cbn in Hexec. injection Hexec as ->.
    apply createGame_ok in Hcr as (-> & _ & Hpush).
    apply pushOpen_frame in Hpush as (Hg & _).
    assert (Hat : forall k, game_at s' k =
               game_at (set_game (nextGameId s)
                 (set_createdAt (timestamp tx)
                    (set_player0 (sender tx) (game_at s (nextGameId s))))
                 (set_nextGameId (nextGameId s + 1) s)) k).
    { intros k. unfold game_at at 1 2. rewrite Hg. reflexivity. }
    rewrite Hat. destruct (decide (nextGameId s = gid)) as [<-|Hne].
    + right. rewrite game_at_set_game_eq.
      rewrite (game_at_fresh s (nextGameId s)) by (apply Hfresh; lia).
      apply gs_create; [exact Hc|reflexivity].
    + left. rewrite game_at_set_game_ne by exact Hne. reflexivity.
  - (* joinGame *)
    apply joinGame_ok in Hexec as (Hp0 & Hs & Hp1 & Hne & Hrem).
    rewrite (removeOpen_game_at _ gid _ _ Hrem).
    destruct (decide (id = gid)) as [->|Hneq].
    + right. rewrite game_at_set_game_eq. apply gs_join; assumption.
    + left. apply game_at_set_game_ne. exact Hneq.
  - (* startGame *)
    apply startGame_ok in Hexec as (Hp0 & Hp1 & Hs & Hsender & ->).
    destruct (decide (id = gid)) as [->|Hneq].
    + right. rewrite game_at_set_game_eq. apply gs_start; assumption.
    + left. apply game_at_set_game_ne. exact Hneq.
  - (* dealRound *)
    apply dealRound_ok in Hexec as (Hp0 & Hs & Hf & Hk0 & Hk1 & Hk & Hsender & ->).
    destruct (decide (id = gid)) as [->|Hneq].
    + right. rewrite game_at_set_game_eq. apply gs_deal; try assumption. lia.
    + left. apply game_at_set_game_ne. exact Hneq.
  - (* playCard *)
    apply playCard_ok in Hexec
      as (Hp0 & Hs & Hf & Hk & Hidx & Hsender & Hnot & g2 & Hfin & ->).
    destruct (decide (id = gid)) as [->|Hneq].
    + right. rewrite game_at_set_game_eq.
      apply (gs_play gid tx _ handIndex g2); assumption.
    + left. apply game_at_set_game_ne. exact Hneq.
Qed.

End ContractInvariant.

(** ** The open-game index *)

Section OpenIndex.

Lemma removeOpen_absent (gid : Z) (s : Contract) :
  open_index_at s gid = 0 -> _removeOpen gid s = Ok s.
Proof. intros H. unfold _removeOpen. rewrite H. reflexivity. Qed.

Lemma open_absent_iff (gid : Z) (s : Contract) :
  open_index_ok s -> (open_index_at s gid = 0 <-> gid ∉ _openGameIds s).
Proof.
  intros [Hfwd Hbwd]. split.
  - intros Hz Hin. apply list_elem_of_lookup in Hin as [i Hi].
    apply Hfwd in Hi. lia.
  - intros Hnot. destruct (Z.eq_dec (open_index_at s gid) 0) as [Hz|Hnz]; [exact Hz|].
    exfalso. apply Hnot. destruct (Hbwd gid Hnz) as [_ Hl].
    eapply list_elem_of_lookup_2. exact Hl.
Qed.

Lemma array_pop_ok (l : list Z) :
  l <> [] -> array_pop l = Ok (take (length l - 1) l).
Proof.
  intros Hne. unfold array_pop. destruct l as [|x l]; [congruence|].
  rewrite removelast_firstn_len. f_equal. f_equal. cbn [length]. lia.
Qed.

(** Removing an id keeps the index and the list in step, never panics,
    and leaves the id unindexed. *)
Lemma removeOpen_ok (gid : Z) (s : Contract) :
  open_index_ok s ->
  Z.of_nat (length (_openGameIds s)) <= MAX_UINT256 ->
  exists s',
    _removeOpen gid s = Ok s' /\
    open_index_ok s' /\ open_index_at s' gid = 0 /\
    (forall x, x ∈ _openGameIds s' -> x ∈ _openGameIds s) /\
    (length (_openGameIds s') <= length (_openGameIds s))%nat.
Proof.
  intros Hok Hmax.
  destruct (Z.eq_dec (open_index_at s gid) 0) as [Hz|Hnz].
  { exists s. rewrite removeOpen_absent by exact Hz. auto. }
  pose proof Hok as [Hfwd Hbwd].
  destruct (Hbwd gid Hnz) as [Hp Hl].
  set (p := open_index_at s gid) in *.
  set (ids := _openGameIds s) in *.
  set (i := Z.to_nat (p - 1)) in *.
  pose proof (lookup_lt_Some _ _ _ Hl) as Hi.
  assert (Hinj : forall j x, ids !! j = Some x -> (x = gid <-> j = i)).
  { intros j x Hj. split.
    - intros ->. apply Hfwd in Hj. fold p in Hj. lia.
    - intros ->. congruence. }
  unfold _removeOpen. fold p ids.
  destruct (Z.eqb_spec p 0) as [|_]; [contradiction|].
  rewrite (proj2 (checked_sub_ok p 1 (p - 1))) by (split; [lia|reflexivity]).
  rewrite (proj2 (checked_sub_ok (Z.of_nat (length ids)) 1 (Z.of_nat (length ids) - 1)))
    by (split; [lia|reflexivity]).
  cbn [mbind Result_bind].
  destruct (Z.eqb_spec (p - 1) (Z.of_nat (length ids) - 1)) as [Hlast|Hmid]; cbn [negb].
  - (* the removed id is the last of the list *)
    cbn [mbind Result_bind]. fold ids.
    rewrite array_pop_ok by (intros E; rewrite E in Hi; cbn in Hi; lia).
    cbn [mbind Result_bind]. eexists. split; [reflexivity|].
    assert (Hi' : i = (length ids - 1)%nat) by lia.
    split; [split|].
    + intros j x Hj. cbn [_openGameIds set_open_index set_openGameIds] in Hj.
      apply lookup_take_Some in Hj as [Hj Hlt].
      rewrite open_index_at_set. destruct (decide (gid = x)) as [<-|Hne].
      * apply Hinj in Hj. assert (j = i) by tauto. lia.
      * change (open_index_at (set_openGameIds _ s) x) with (open_index_at s x).
        apply Hfwd. exact Hj.
    + intros x. rewrite open_index_at_set. destruct (decide (gid = x)) as [<-|Hne]; [congruence|].
      change (open_index_at (set_openGameIds _ s) x) with (open_index_at s x).
      intros Hx. destruct (Hbwd x Hx) as [Hq Hlx]. split; [exact Hq|].
      cbn [_openGameIds set_open_index set_openGameIds].
      apply lookup_take_Some. split; [exact Hlx|].
      pose proof (lookup_lt_Some _ _ _ Hlx).
      assert (Z.to_nat (open_index_at s x - 1) <> i).
      { intros E. apply (Hinj _ _ Hlx) in E. congruence. }
      lia.
    + split; [rewrite open_index_at_set; destruct (decide (gid = gid)); congruence|].
      cbn [_openGameIds set_open_index set_openGameIds]. split.
      * intros x Hx. apply elem_of_take in Hx as (j & Hj & _).
        eapply list_elem_of_lookup_2. exact Hj.
      * rewrite length_take. lia.
  - (* another id is moved into the hole *)
    destruct (lookup_lt_is_Some_2 ids (length ids - 1) ltac:(lia)) as [m Hm].
    assert (Hget : array_get ids (Z.of_nat (length ids) - 1) = Ok m).
    { apply array_get_ok. split; [lia|].
      replace (Z.to_nat (Z.of_nat (length ids) - 1)) with (length ids - 1)%nat by lia.
      exact Hm. }
    rewrite Hget. cbn [mbind Result_bind].
    rewrite (proj2 (array_set_ok ids _ (p - 1) m)) by (split; [lia|reflexivity]).
    cbn [mbind Result_bind]. fold i.
    rewrite (proj2 (checked_add_ok MAX_UINT256 (p - 1) 1 p)) by (split; lia).
    cbn [mbind Result_bind].
    cbn [_openGameIds set_open_index set_openGameIds].
    rewrite array_pop_ok
      by (intros E; apply (f_equal length) in E; rewrite length_insert in E; cbn in E; lia).
    cbn [mbind Result_bind]. rewrite length_insert. eexists. split; [reflexivity|].
    assert (Hmi : open_index_at s m = Z.of_nat (length ids - 1) + 1) by (apply Hfwd; exact Hm).
    assert (Hmg : m <> gid) by (intros ->; fold p in Hmi; lia).
    assert (Hidx : forall x,
               open_index_at
                 (set_open_index gid 0
                    (set_openGameIds (take (length ids - 1) (<[i:=m]> ids))
                       (set_open_index m p (set_openGameIds (<[i:=m]> ids) s)))) x =
               if decide (gid = x) then 0 else if decide (m = x) then p
               else open_index_at s x).
    { intros x. rewrite open_index_at_set. destruct (decide (gid = x)); [reflexivity|].
      change (open_index_at (set_openGameIds ?l ?t) x) with (open_index_at t x).
      rewrite open_index_at_set. destruct (decide (m = x)); reflexivity. }
    split; [split|].
    + intros j x Hj. cbn [_openGameIds set_open_index set_openGameIds] in Hj.
      apply lookup_take_Some in Hj as [Hj Hlt]. rewrite Hidx.
      destruct (decide (i = j)) as [<-|Hij].
      * rewrite list_lookup_insert_eq in Hj by exact Hi. injection Hj as <-.
        destruct (decide (gid = m)); [congruence|].
        destruct (decide (m = m)); [lia|congruence].
      * rewrite list_lookup_insert_ne in Hj by exact Hij.
        destruct (decide (gid = x)) as [<-|Hgx].
        { apply Hinj in Hj. assert (j = i) by tauto. congruence. }
        destruct (decide (m = x)) as [<-|Hmx].
        { apply Hfwd in Hj. lia. }
        apply Hfwd. exact Hj.
    + intros x. rewrite Hidx.
      cbn [_openGameIds set_open_index set_openGameIds].
      destruct (decide (gid = x)) as [<-|Hgx]; [congruence|].
      destruct (decide (m = x)) as [<-|Hmx].
      * intros _. split; [exact Hp|]. fold i.
        apply lookup_take_Some. split; [|lia].
        apply list_lookup_insert_eq. exact Hi.
      * intros Hx. destruct (Hbwd x Hx) as [Hq Hlx]. split; [exact Hq|].
        pose proof (lookup_lt_Some _ _ _ Hlx).
        assert (Z.to_nat (open_index_at s x - 1) <> i).
        { intros E. apply (Hinj _ _ Hlx) in E. congruence. }
        assert (Z.to_nat (open_index_at s x - 1) <> (length ids - 1)%nat).
        { intros E. rewrite E in Hlx. congruence. }
        apply lookup_take_Some. split; [|lia].
        rewrite list_lookup_insert_ne by congruence. exact Hlx.
    + split; [rewrite Hidx; destruct (decide (gid = gid)); congruence|].
      cbn [_openGameIds set_open_index set_openGameIds]. split.
      * intros x Hx. apply elem_of_take in Hx as (j & Hj & _).
        destruct (decide (i = j)) as [<-|Hij].
        { rewrite list_lookup_insert_eq in Hj by exact Hi. injection Hj as <-.
          eapply list_elem_of_lookup_2. exact Hm. }
        { rewrite list_lookup_insert_ne in Hj by exact Hij.
          eapply list_elem_of_lookup_2. exact Hj. }
      * rewrite length_take, length_insert. lia.
Qed.

End OpenIndex.

(** ** The contract invariant holds in every reachable state *)

Section Reachable.

Lemma contract_inv_init : contract_inv init.
Proof.
  split; cbn.
  - unfold MAX_UINT256. lia.
  - intros gid _. apply lookup_empty.
  - intros gid. unfold game_at. cbn. rewrite lookup_empty. apply game_inv_empty.
  - split.
    + intros i gid H. destruct i; discriminate.
    + intros gid H. exfalso. apply H. unfold open_index_at. cbn.
      rewrite lookup_empty. reflexivity.
  - intros gid H. inversion H.
  - lia.
Qed.

Lemma existing_lt_next (s : Contract) (gid : Z) :
  contract_inv s -> player0 (game_at s gid) <> 0 -> gid < nextGameId s.
Proof.
  intros Hinv Hp0. destruct (Z_lt_ge_dec gid (nextGameId s)) as [H|H]; [exact H|].
  exfalso. apply Hp0. rewrite game_at_fresh; [reflexivity|].
  apply (ci_fresh s Hinv). lia.
Qed.

(** Writing back the record of an existing game keeps everything but the
    game invariants, which the caller supplies. *)
Lemma set_game_inv (s : Contract) (gid : Z) (g : Game) :
  contract_inv s -> player0 (game_at s gid) <> 0 -> game_inv g ->
  contract_inv (set_game gid g s).
Proof.
  intros Hinv Hp0 Hg. pose proof (existing_lt_next s gid Hinv Hp0) as Hlt.
  destruct Hinv. split; cbn [nextGameId _games _openGameIds set_game]; try assumption.
  - intros id Hid. rewrite lookup_insert_ne by lia. apply ci_fresh0. exact Hid.
  - intros id. rewrite game_at_set_game. destruct (decide (gid = id)); [exact Hg|].
    apply ci_games0.
Qed.

Lemma pushOpen_ok (gid : Z) (s : Contract) :
  open_index_ok s -> gid ∉ _openGameIds s ->
  Z.of_nat (length (_openGameIds s)) + 1 <= MAX_UINT256 ->
  exists s',
    _pushOpen gid s = Ok s' /\ open_index_ok s' /\
    _games s' = _games s /\ nextGameId s' = nextGameId s /\
    _openGameIds s' = _openGameIds s ++ [gid].
Proof.
  intros Hok Hnew Hmax. pose proof Hok as [Hfwd Hbwd].
  unfold _pushOpen.
  rewrite (proj2 (checked_add_ok MAX_UINT256 _ 1 _)) by (split; [exact Hmax|reflexivity]).
  cbn [mbind Result_bind]. eexists. split; [reflexivity|].
  split; [|auto]. split.
  - intros j x Hj. cbn [_openGameIds set_open_index set_openGameIds] in Hj.
    change (open_index_at (set_openGameIds ?l ?t) x) with (open_index_at t x).
    rewrite open_index_at_set.
    apply lookup_app_Some in Hj as [Hj|[Hlen Hj]].
    + destruct (decide (gid = x)) as [<-|Hne].
      * exfalso. apply Hnew. eapply list_elem_of_lookup_2. exact Hj.
      * apply Hfwd. exact Hj.
    + destruct (j - length (_openGameIds s))%nat as [|k] eqn:Hk; [|discriminate].
      injection Hj as <-. destruct (decide (gid = gid)); [lia|congruence].
  - intros x. cbn [_openGameIds set_open_index set_openGameIds].
    change (open_index_at (set_openGameIds ?l ?t) x) with (open_index_at t x).
    rewrite open_index_at_set. destruct (decide (gid = x)) as [<-|Hne].
    + intros _. split; [lia|].
      replace (Z.to_nat (Z.of_nat (length (_openGameIds s)) + 1 - 1))
        with (length (_openGameIds s)) by lia.
      apply list_lookup_middle. reflexivity.
    + intros Hx. destruct (Hbwd x Hx) as [Hq Hl]. split; [exact Hq|].
      apply lookup_app_l_Some. exact Hl.
Qed.

(** [createGame] succeeds exactly while the id counter can be incremented. *)
Lemma createGame_inv (sender timestamp : Z) (s : Contract) :
  contract_inv s -> nextGameId s + 1 <= MAX_UINT256 ->
  exists s',
    createGame sender timestamp s = Ok (s', nextGameId s) /\
    contract_inv s' /\
    _openGameIds s' = _openGameIds s ++ [nextGameId s].
Proof.
  intros Hinv Hmax. pose proof Hinv as [].
  unfold createGame.
  rewrite (proj2 (checked_add_ok MAX_UINT256 _ 1 _)) by (split; [exact Hmax|reflexivity]).
  cbn [mbind Result_bind].
  set (g := set_createdAt timestamp (set_player0 sender
              (game_at (set_nextGameId (nextGameId s + 1) s) (nextGameId s)))).
  set (s1 := set_game (nextGameId s) g (set_nextGameId (nextGameId s + 1) s)).
  assert (Hnew : nextGameId s ∉ _openGameIds s).
  { intros Hin. apply ci_open_old0 in Hin. lia. }
  destruct (pushOpen_ok (nextGameId s) s1) as (s' & Hpush & Hok' & Hg' & Hn' & Hids');
    [exact ci_open0|exact Hnew|cbn; lia|].
  rewrite Hpush. cbn [mbind Result_bind]. exists s'. split; [reflexivity|].
  split; [|exact Hids'].
  assert (Hg : game_inv g).
  { subst g. change (game_at (set_nextGameId _ s) ?k) with (game_at s k).
    rewrite game_at_fresh by (apply ci_fresh0; lia).
    pose proof game_inv_empty as [].
    split; cbn; try assumption; intros; try assumption; discriminate. }
  split.
  - rewrite Hn'. cbn. lia.
  - intros id Hid. rewrite Hn' in Hid. cbn in Hid. rewrite Hg'. cbn.
    rewrite lookup_insert_ne by lia. apply ci_fresh0. lia.
  - intros id. unfold game_at. rewrite Hg'. fold (game_at s1 id).
    subst s1. rewrite game_at_set_game. destruct (decide (nextGameId s = id)); [exact Hg|].
    apply ci_games0.
  - exact Hok'.
  - intros id Hin. rewrite Hids' in Hin. rewrite Hn'. cbn.
    apply elem_of_app in Hin as [Hin|Hin].
    + apply ci_open_old0 in Hin. lia.
    + apply list_elem_of_singleton in Hin. lia.
  - rewrite Hids', Hn', length_app. cbn. lia.
Qed.

Lemma exec_inv (s s' : Contract) (tx : Tx) :
  contract_inv s -> valid_tx tx = true -> exec s tx = Ok s' -> contract_inv s'.
Proof.
  intros Hinv Hvalid Hexec.
  assert (Hgames : forall gid, game_inv (game_at s' gid)).
  { intros gid.
    destruct (exec_game_step s s' tx gid (ci_fresh s Hinv) Hexec) as [->|Hstep].
    - apply (ci_games s Hinv).
    - eapply game_step_inv; [exact Hvalid|apply (ci_games s Hinv)|exact Hstep]. }
  unfold exec in Hexec.
  destruct (call tx) as [|id|id|id start0 start1|id handIndex] eqn:Hc.
  - destruct (createGame (sender tx) (timestamp tx) s) as [[s1 id]|] eqn:Hcr; [|discriminate].
    cbn in Hexec. injection Hexec as ->.
    pose proof (createGame_ok _ _ _ _ _ Hcr) as (-> & Hmax & _).
    destruct (createGame_inv (sender tx) (timestamp tx) s Hinv Hmax) as (s2 & Hcr2 & Hinv2 & _).
    rewrite Hcr in Hcr2. injection Hcr2 as ->. exact Hinv2.
  - pose proof (joinGame_ok _ _ _ _ Hexec) as (Hp0 & Hs & Hp1 & Hne & Hrem).
    pose proof (existing_lt_next s id Hinv Hp0) as Hlt.
    pose proof (removeOpen_frame _ _ _ Hrem) as [Hg' Hn'].
    pose proof Hinv as [].
    destruct (removeOpen_ok id (set_game id (set_player1 (sender tx) (game_at s id)) s))
      as (s2 & Hrem2 & Hok2 & _ & Hsub & Hlen); [exact ci_open0|cbn; lia|].
    rewrite Hrem in Hrem2. injection Hrem2 as <-.
    split; try assumption.
    + rewrite Hn'. exact ci_next0.
    + intros gid Hgid. rewrite Hn' in Hgid. rewrite Hg'. cbn.
      rewrite lookup_insert_ne by (cbn in Hgid; lia). apply ci_fresh0. exact Hgid.
    + intros gid Hin. rewrite Hn'. apply Hsub in Hin. apply ci_open_old0. exact Hin.
    + rewrite Hn'. cbn in Hlen |- *. lia.
  - apply startGame_ok in Hexec as (Hp0 & _ & _ & _ & ->).
    apply set_game_inv; [exact Hinv|exact Hp0|].
    specialize (Hgames id). rewrite game_at_set_game_eq in Hgames. exact Hgames.
  - apply dealRound_ok in Hexec as (Hp0 & _ & _ & _ & _ & _ & _ & ->).
    apply set_game_inv; [exact Hinv|exact Hp0|].
    specialize (Hgames id). rewrite game_at_set_game_eq in Hgames. exact Hgames.
  - apply playCard_ok in Hexec as (Hp0 & _ & _ & _ & _ & _ & _ & g2 & _ & ->).
    apply set_game_inv; [exact Hinv|exact Hp0|].
    specialize (Hgames id). rewrite game_at_set_game_eq in Hgames. exact Hgames.
Qed.

Lemma reachable_inv (s : Contract) : reachable s -> contract_inv s.
Proof.
  induction 1 as [|s tx s' _ IH Hvalid Hexec].
  - apply contract_inv_init.
  - eapply exec_inv; eassumption.
Qed.

Lemma run_reachable (txs : list Tx) :
  forall s, reachable s -> forallb valid_tx txs = true -> reachable (run s txs).
Proof.
  induction txs as [|tx txs IH]; intros s Hs Hvalid; cbn in *; [exact Hs|].
  apply andb_true_iff in Hvalid as [Hv Hvs].
  apply IH; [|exact Hvs]. unfold apply_tx.
  destruct (exec s tx) as [s'|e] eqn:He; [|exact Hs].
  eapply reachable_step; eassumption.
Qed.

End Reachable.


(** ** The exhausted mask *)

Section AllOnes.

Lemma all_ones_char (m : Z) :
  0 <= m < 2 ^ 64 ->
  (forall j, 0 <= j < 64 -> Z.testbit m j = true) ->
  m = 2 ^ 64 - 1.
Proof.
  intros Hm Hall. change (2 ^ 64 - 1) with (Z.ones 64).
  apply Z.bits_inj'. intros n Hn.
  destruct (Z_lt_ge_dec n 64) as [Hlt|Hge].
  - rewrite Hall by lia. symmetry. apply Z.ones_spec_low. lia.
  - rewrite testbit_high by lia. symmetry. apply Z.ones_spec_high. lia.
Qed.

Lemma no_zero_bit_all_ones (m : Z) :
  0 <= m < 2 ^ 64 ->
  ~ (exists i, 0 <= i < 64 /\ Z.testbit m i = false) ->
  m = 2 ^ 64 - 1.
Proof.
  intros Hm Hnone. apply all_ones_char; [exact Hm|].
  intros j Hj. destruct (Z.testbit m j) eqn:Hb; [reflexivity|].
  exfalso. apply Hnone. exists j. auto.
Qed.

Lemma zero_bit_dec (m : Z) :
  {exists i, 0 <= i < 64 /\ Z.testbit m i = false} +
  {~ exists i, 0 <= i < 64 /\ Z.testbit m i = false}.
Proof.
  destruct (scan_zero_spec 64 m 0 ltac:(lia)) as (Hr & Hones & Hzero).
  destruct (Z_lt_ge_dec (scan_zero 64 m 0) 64) as [Hlt|Hge].
  - left. exists (scan_zero 64 m 0). split; [lia|]. apply Hzero. lia.
  - right. intros (i & Hi & Hb). rewrite Hones in Hb by lia. discriminate.
Qed.

Lemma rotr64_all_ones (start : Z) :
  0 <= start < 64 -> FHE.rotr64 (2 ^ 64 - 1) start = 2 ^ 64 - 1.
Proof.
  intros Hs. apply all_ones_char.
  - unfold FHE.rotr64, FHE.wrap64. apply Z.mod_pos_bound. lia.
  - intros j Hj. rewrite rotr64_testbit; [| |lia|lia].
    + change (2 ^ 64 - 1) with (Z.ones 64). apply Z.ones_spec_low.
      apply Z.mod_pos_bound. lia.
    + intros k Hk. change (2 ^ 64 - 1) with (Z.ones 64).
      apply Z.ones_spec_high. lia.
Qed.

(** With every deck slot used, the mask with sentinels is all ones. *)
Lemma full_deck_with_dummies (used : Z) :
  0 <= used < 2 ^ 64 ->
  Z.land used (2 ^ 52 - 1) = 2 ^ 52 - 1 ->
  FHE.or64 used (FHE.asEuint64 _DUMMY_USED_MASK) = 2 ^ 64 - 1.
Proof.
  intros Hu Hfull. change (2 ^ 52 - 1) with (Z.ones 52) in Hfull.
  pose proof (proj1 (land_ones_full used 52 ltac:(lia)) Hfull) as Hlow.
  apply all_ones_char.
  - change (FHE.asEuint64 _DUMMY_USED_MASK) with _DUMMY_USED_MASK.
    apply lor_range; [exact Hu|]. unfold _DUMMY_USED_MASK. lia.
  - intros j Hj. rewrite with_dummies_testbit by lia.
    destruct (Z.leb_spec 52 j) as [H52|H52].
    + destruct (Z.ltb_spec j 64); [|lia]. apply orb_true_r.
    + rewrite Hlow by lia. reflexivity.
Qed.

End AllOnes.

(** ** The deal counter along a run *)

Section DealCounter.

Lemma exec_dealIndex (s s' : Contract) (tx : Tx) (gid : Z) :
  contract_inv s -> exec s tx = Ok s' ->
  dealIndex (game_at s' gid) = dealIndex (game_at s gid) + deal_on gid (call tx).
Proof.
  intros Hinv Hexec.
  destruct (exec_game_step s s' tx gid (ci_fresh s Hinv) Hexec) as [Heq|Hstep].
  - (* the record did not change: the call was not a deal on this game *)
    rewrite Heq. unfold exec in Hexec.
    destruct (call tx) as [|id|id|id start0 start1|id handIndex] eqn:Hc;
      cbn [deal_on]; try lia.
    destruct (Z.eqb_spec id gid) as [->|Hne]; [|lia].
    apply dealRound_ok in Hexec as (_ & _ & _ & _ & _ & _ & _ & ->).
    rewrite game_at_set_game_eq in Heq.
    apply (f_equal dealIndex) in Heq. cbn in Heq. lia.
  - pose proof (ci_games s Hinv gid) as Hg.
    destruct Hstep as [Hc -> | Hc Hp0 Hs Hp1 Hne | Hc Hp0 Hp1 Hs
                      | start0 start1 Hc Hp0 Hs Hf Hk d0 d1
                      | handIndex g2 Hc Hp0 Hs Hf Hk Hsender isP0 g1 Hnot Hfin];
      rewrite Hc; cbn [deal_on].
    + cbn. lia.
    + cbn. lia.
    + destruct (gi_unstarted _ Hg Hs) as (Hk0 & _). cbn. lia.
    + rewrite Z.eqb_refl. cbn. lia.
    + assert (Hd1 : dealIndex g1 = dealIndex (game_at s gid))
        by (subst g1; unfold record_play; destruct isP0; reflexivity).
      destruct (hasPlayed0 g1 && hasPlayed1 g1).
      * apply finishGame_ok in Hfin as (c0 & c1 & _ & _ & ->). cbn. lia.
      * subst g2. lia.
Qed.

Lemma deals_done_dealIndex (gid : Z) (txs : list Tx) :
  forall s, reachable s -> forallb valid_tx txs = true ->
    deals_done gid s txs =
    dealIndex (game_at (run s txs) gid) - dealIndex (game_at s gid).
Proof.
  induction txs as [|tx txs IH]; intros s Hs Hvalid.
  - cbn. lia.
  - cbn [forallb] in Hvalid. apply andb_true_iff in Hvalid as [Hv Hvs].
    change (run s (tx :: txs)) with (run (apply_tx s tx) txs).
    cbn [deals_done]. unfold apply_tx.
    destruct (exec s tx) as [s'|e] eqn:He.
    + rewrite (IH s' (reachable_step s tx s' Hs Hv He) Hvs).
      rewrite (exec_dealIndex s s' tx gid (reachable_inv s Hs) He). lia.
    + rewrite (IH s Hs Hvs). lia.
Qed.

End DealCounter.

(** ** Finished games *)

Section Finished.

Lemma finished_facts (g : Game) :
  game_inv g -> finished g = true ->
  started g = true /\ player0 g <> 0 /\ hasPlayed0 g = true /\ hasPlayed1 g = true.
Proof.
  intros Hg Hf. pose proof Hg as [].
  rewrite gi_finished0 in Hf. apply andb_true_iff in Hf as [H0 H1].
  assert (Hs : started g = true).
  { destruct (started g) eqn:E; [reflexivity|].
    destruct (gi_unstarted0 eq_refl) as (_ & Hh & _). congruence. }
  destruct (gi_started0 Hs) as [Hp0 _]. auto.
Qed.

(** No step leaves a finished game. *)
Lemma game_step_not_finished (gid : Z) (tx : Tx) (g g' : Game) :
  game_inv g -> game_step gid tx g g' -> finished g = false.
Proof.
  intros Hg Hstep.
  destruct (finished g) eqn:Hf; [|reflexivity].
  destruct (finished_facts g Hg Hf) as (Hs & Hp0 & _).
  destruct Hstep; subst; cbn in *; congruence.
Qed.

Lemma game_step_flags (gid : Z) (tx : Tx) (g g' : Game) :
  game_step gid tx g g' ->
  (started g = true -> started g' = true) /\
  (finished g = true -> finished g' = true).
Proof.
  intros Hstep.
  destruct Hstep as [Hc -> | Hc Hp0 Hs Hp1 Hne | Hc Hp0 Hp1 Hs
                    | start0 start1 Hc Hp0 Hs Hf Hk d0 d1
                    | handIndex g2 Hc Hp0 Hs Hf Hk Hsender isP0 g1 Hnot Hfin];
    try (cbn; split; congruence).
  assert (Hs1 : started g1 = started g)
    by (subst g1; unfold record_play; destruct isP0; reflexivity).
  destruct (hasPlayed0 g1 && hasPlayed1 g1).
  - apply finishGame_ok in Hfin as (c0 & c1 & _ & _ & ->). cbn. split; congruence.
  - subst g2. split; congruence.
Qed.

(** The result handle changes only in the play that completes the pair. *)
Lemma game_step_result (gid : Z) (tx : Tx) (g g' : Game) :
  game_inv g -> game_step gid tx g g' ->
  p0Wins g' = p0Wins g \/
  (p0Wins g = None /\ is_Some (p0Wins g') /\
   (exists handIndex, call tx = PlayCard gid handIndex) /\
   ~ (hasPlayed0 g = true /\ hasPlayed1 g = true) /\
   hasPlayed0 g' = true /\ hasPlayed1 g' = true /\
   finished g = false /\ finished g' = true).
Proof.
  intros Hg Hstep.
  destruct Hstep as [Hc -> | Hc Hp0 Hs Hp1 Hne | Hc Hp0 Hp1 Hs
                    | start0 start1 Hc Hp0 Hs Hf Hk d0 d1
                    | handIndex g2 Hc Hp0 Hs Hf Hk Hsender isP0 g1 Hnot Hfin];
    try (left; reflexivity).
  destruct (hasPlayed0 g1 && hasPlayed1 g1) eqn:Hboth.
  - right. apply finishGame_ok in Hfin as (c0 & c1 & _ & _ & ->).
    apply andb_true_iff in Hboth as [Hb0 Hb1].
    assert (Hnone : p0Wins g = None).
    { destruct (p0Wins g) eqn:E; [|reflexivity].
      assert (finished g = true) by (apply (gi_result g Hg); rewrite E; eauto).
      congruence. }
    split; [exact Hnone|]. split; [cbn; eauto|]. split; [eauto|].
    split; [|cbn; auto].
    intros [H0 H1]. destruct isP0; congruence.
  - left. subst g2 g1. unfold record_play. destruct isP0; reflexivity.
Qed.

End Finished.

(** ** Joining *)

Section Join.

(** In a state that satisfies the invariant, the removal that ends
    [joinGame] succeeds and leaves the id unindexed. *)
Lemma join_removeOpen (s : Contract) (sender gid : Z) :
  contract_inv s ->
  exists s',
    _removeOpen gid (set_game gid (set_player1 sender (game_at s gid)) s) = Ok s' /\
    open_index_ok s' /\ open_index_at s' gid = 0.
Proof.
  intros Hinv.
  destruct (removeOpen_ok gid (set_game gid (set_player1 sender (game_at s gid)) s))
    as (s' & Hr & Hok & Hz & _).
  - apply (ci_open s Hinv).
  - cbn. pose proof (ci_open_len s Hinv). pose proof (ci_next s Hinv). lia.
  - exists s'. auto.
Qed.

Lemma joinGame_after (s s' : Contract) (sender gid : Z) :
  contract_inv s -> joinGame sender gid s = Ok s' ->
  player1 (game_at s' gid) = sender /\
  open_index_at s' gid = 0 /\ gid ∉ getOpenGameIds s'.
Proof.
  intros Hinv Hjoin. apply joinGame_ok in Hjoin as (_ & _ & _ & _ & Hr).
  destruct (join_removeOpen s sender gid Hinv) as (s2 & Hr2 & Hok & Hz).
  rewrite Hr in Hr2. injection Hr2 as <-.
  split; [|split; [exact Hz|]].
  - rewrite (removeOpen_game_at _ gid _ _ Hr), game_at_set_game_eq. reflexivity.
  - apply open_absent_iff; assumption.
Qed.

End Join.

(** ** The sample session, evaluated *)

Example sample_run_state :
  game_at (run init sample_run) 0 =
  mkGame alice bob true true 1 2255099422453927 6
    [5; 0; 40; 51; 12; 7] [17; 1; 41; 2; 13; 30] 0 3 true true (Some true).
Proof. vm_compute. reflexivity. Qed.

Example sample_game_before_showdown :
  record_play false 3
    (game_at (run init (sample_setup ++ sample_deals ++ [mkTx alice 10 (PlayCard 0 0)])) 0)
  = sample_game.
Proof. vm_compute. reflexivity. Qed.

Example sample_open_list :
  getOpenGameIds (run init [mkTx alice 1 CreateGame; mkTx bob 2 CreateGame]) = [0; 1] /\
  getOpenGameIds (run init [mkTx alice 1 CreateGame; mkTx bob 2 CreateGame;
                            mkTx carol 3 (JoinGame 0)]) = [1].
Proof. split; vm_compute; reflexivity. Qed.

Example replay_before_other_slot :
  exec (run init (sample_setup ++ sample_deals ++ [mkTx alice 10 (PlayCard 0 0)]))
       (mkTx alice 11 (PlayCard 0 1)) = Err (AlreadyPlayed 0).
Proof. vm_compute. reflexivity. Qed.

(** Before a join, slot 1 holds the zero address, and asking for the hand
    of the zero address gives the undealt hand of slot 1. *)
Example getHand_zero_address_before_join :
  getHand 0 0 (run init [mkTx alice 1 CreateGame]) = Ok [0; 0; 0; 0; 0; 0].
Proof. vm_compute. reflexivity. Qed.

Example firstZeroBitIndex_samples :
  _firstZeroBitIndex 0 = 0 /\ _firstZeroBitIndex 7 = 3 /\
  _firstZeroBitIndex (2 ^ 63 - 1) = 63 /\ _firstZeroBitIndex (2 ^ 64 - 1 - 2 ^ 40) = 40.
Proof. repeat split; vm_compute; reflexivity. Qed.

Example drawUniqueCard_samples :
  _drawUniqueCard 0 5 = (5, 32) /\
  _drawUniqueCard (2 ^ 52 - 1 - 2 ^ 3) 10 = (3, 2 ^ 52 - 1) /\
  fst (_drawUniqueCard (2 ^ 52 - 1) 0) = 63.
Proof. repeat split; vm_compute; reflexivity. Qed.

(** ** Errors of the end of [playCard] *)

Section PlayErrors.

Lemma array_get_err (l : list Z) (i : Z) (e : Error) :
  array_get l i = Err e -> e = Panic 0x32.
Proof.
  unfold array_get. destruct ((0 <=? i) && (i <? Z.of_nat (length l))).
  - destruct (l !! Z.to_nat i); [discriminate|]. intros [= <-]. reflexivity.
  - intros [= <-]. reflexivity.
Qed.

Lemma finishGame_err (gid : Z) (g : Game) (e : Error) :
  _finishGame gid g = Err e -> e = Panic 0x32.
Proof.
  unfold _finishGame. intros H.
  destruct (array_get (hand0 g) (playedIndex0 g)) eqn:E0; cbn [mbind Result_bind] in H.
  - destruct (array_get (hand1 g) (playedIndex1 g)) eqn:E1; cbn [mbind Result_bind] in H.
    + discriminate.
    + injection H as <-. apply (array_get_err _ _ _ E1).
  - injection H as <-. apply (array_get_err _ _ _ E0).
Qed.

(** Once the play is recorded, what is left of [playCard] cannot fail with
    [AlreadyPlayed]: the only error left is the bounds check of the
    comparison. *)
Lemma playCard_tail_not_AlreadyPlayed (gid gid' : Z) (g : Game) (s : Contract) :
  (g1 ← Ok g;
   g2 ← (if hasPlayed0 g1 && hasPlayed1 g1 then _finishGame gid g1 else Ok g1);
   Ok (set_game gid g2 s)) <> Err (AlreadyPlayed gid').
Proof.
  cbn [mbind Result_bind]. intros H.
  destruct (hasPlayed0 g && hasPlayed1 g).
  - destruct (_finishGame gid g) eqn:E; cbn [mbind Result_bind] in H; [discriminate|].
    injection H as ->. apply finishGame_err in E. discriminate.
  - discriminate.
Qed.

End PlayErrors.

(** * The properties of the specification *)

(** C1. Comparator correctness: the result that [_finishGame] stores for the
    two played cards [a] (slot 0) and [b] (slot 1), distinct values of
    [0..51], is true exactly when [rank a > rank b], or the ranks are equal
    and [suit a > suit b], with [rank = card mod 13] and [suit = card / 13]. *)
Theorem showdown_matches_plain_rule (gid : Z) (g : Game) (a b : Z) :
  array_get (hand0 g) (playedIndex0 g) = Ok a ->
  array_get (hand1 g) (playedIndex1 g) = Ok b ->
  in_deck a -> in_deck b -> a <> b ->
  exists g' r,
    _finishGame gid g = Ok g' /\ p0Wins g' = Some r /\
    (r = true <-> plain_rule a b).
Proof.
  intros Ha Hb _ _ _. unfold _finishGame. rewrite Ha, Hb. cbn [mbind Result_bind].
  eexists. exists (showdown a b). split; [reflexivity|]. split; [reflexivity|].
  unfold showdown, plain_rule, rank, suit, FHE.or_, FHE.and_, FHE.gt, FHE.eq,
    FHE.rem8, FHE.div8, RANKS.
  rewrite orb_true_iff, andb_true_iff, !Z.ltb_lt, Z.eqb_eq. lia.
Qed.

Lemma showdown_matches_plain_rule_witness :
  exists g' r,
    _finishGame 0 sample_game = Ok g' /\ p0Wins g' = Some r /\
    (r = true <-> plain_rule 5 2).
Proof.
  apply (showdown_matches_plain_rule 0 sample_game 5 2).
  - reflexivity.
  - reflexivity.
  - unfold in_deck. lia.
  - unfold in_deck. lia.
  - lia.
Defined.

(** C3. One draw: for a 64-bit used-mask with a zero bit among bits 0..51
    and a random start in [0..63], the card returned is
    [(zero_bit_position + start) mod 64], where [zero_bit_position] is the
    position of the lowest zero bit of the rotated mask; it is below 52, its
    bit is zero in the input mask, and the new mask is the input mask OR
    [1 << card]. *)
Theorem drawUniqueCard_spec (used start : Z) :
  0 <= used < 2 ^ 64 ->
  (exists i, 0 <= i < 52 /\ Z.testbit used i = false) ->
  0 <= start < 64 ->
  let rotated := FHE.rotr64 (Z.lor used _DUMMY_USED_MASK) start in
  let zero_bit_position := lowest_zero_bit rotated in
  let card := fst (_drawUniqueCard used start) in
  let newMask := snd (_drawUniqueCard used start) in
  is_lowest_zero rotated zero_bit_position /\
  card = (zero_bit_position + start) mod 64 /\
  0 <= card < 52 /\
  Z.testbit used card = false /\
  newMask = Z.lor used (Z.shiftl 1 card).
Proof.
  intros Hused Hfree Hstart rotated zero_bit_position card newMask.
  pose proof (rotated_has_zero used start Hused Hstart Hfree) as Hzero.
  apply lowest_zero_bit_spec in Hzero as [Hlow Hp].
  destruct (drawUniqueCard_at used start _ Hused Hstart Hlow Hp) as (Hd & Hdeck & Hbit).
  subst card newMask. rewrite Hd. cbn [fst snd].
  split; [exact Hlow|]. split; [reflexivity|]. split; [exact Hdeck|].
  split; [exact Hbit|reflexivity].
Qed.

Lemma drawUniqueCard_spec_witness :
  let rotated := FHE.rotr64 (Z.lor 11 _DUMMY_USED_MASK) 62 in
  let zero_bit_position := lowest_zero_bit rotated in
  let card := fst (_drawUniqueCard 11 62) in
  let newMask := snd (_drawUniqueCard 11 62) in
  is_lowest_zero rotated zero_bit_position /\
  card = (zero_bit_position + 62) mod 64 /\
  0 <= card < 52 /\
  Z.testbit 11 card = false /\
  newMask = Z.lor 11 (Z.shiftl 1 card).
Proof.
  apply (drawUniqueCard_spec 11 62).
  - lia.
  - exists 2. split; [lia|reflexivity].
  - lia.
Defined.

(** C10, as amended.  For every 64-bit mask the first-zero-bit helper
    returns a value in [0..63].  When the mask has a zero bit, this is the
    0-based position of its least-significant zero bit.  For the all-ones
    mask it returns 63 (not 64), the value it also returns for the mask
    whose only zero bit is bit 63.  The draw therefore relies on the mask
    with sentinels not being all ones: with every deck slot used it returns
    [(63 + start) mod 64], a sentinel position or a card already used. *)
Theorem firstZeroBitIndex_spec (m start : Z) :
  0 <= m < 2 ^ 64 -> 0 <= start < 64 ->
  0 <= _firstZeroBitIndex m < 64 /\
  ((exists i, 0 <= i < 64 /\ Z.testbit m i = false) ->
   is_lowest_zero m (_firstZeroBitIndex m)) /\
  (m = 2 ^ 64 - 1 ->
   _firstZeroBitIndex m = 63 /\ _firstZeroBitIndex m = _firstZeroBitIndex (2 ^ 63 - 1)) /\
  (Z.land m (2 ^ 52 - 1) = 2 ^ 52 - 1 ->
   fst (_drawUniqueCard m start) = (63 + start) mod 64 /\
   Z.testbit (Z.lor m _DUMMY_USED_MASK) (fst (_drawUniqueCard m start)) = true).
Proof.
  intros Hm Hstart.
  assert (Hones : _firstZeroBitIndex (2 ^ 64 - 1) = 63) by (vm_compute; reflexivity).
  split; [|split; [|split]].
  - destruct (zero_bit_dec m) as [Hz|Hnz].
    + apply lowest_zero_bit_spec in Hz as [Hlow Hp].
      rewrite (firstZeroBitIndex_lowest m _ Hlow Hp). destruct Hlow. lia.
    + rewrite (no_zero_bit_all_ones m Hm Hnz), Hones. lia.
  - intros Hz. apply lowest_zero_bit_spec in Hz as [Hlow Hp].
    rewrite (firstZeroBitIndex_lowest m _ Hlow Hp). exact Hlow.
  - intros ->. split; [exact Hones|]. vm_compute. reflexivity.
  - intros Hfull.
    assert (Hcard : fst (_drawUniqueCard m start) = (63 + start) mod 64).
    { unfold _drawUniqueCard. cbn [fst].
      rewrite (full_deck_with_dummies m Hm Hfull), (rotr64_all_ones start Hstart), Hones.
      unfold FHE.add8, FHE.wrap8, FHE.and8.
      rewrite (Z.mod_small (63 + start)) by (change (2 ^ 8) with 256; lia).
      change 63 with (Z.ones 6) at 2. rewrite Z.land_ones by lia. reflexivity. }
    split; [exact Hcard|]. rewrite Hcard.
    pose proof (full_deck_with_dummies m Hm Hfull) as Hall.
    change (FHE.or64 m (FHE.asEuint64 _DUMMY_USED_MASK))
      with (Z.lor m _DUMMY_USED_MASK) in Hall.
    rewrite Hall. change (2 ^ 64 - 1) with (Z.ones 64).
    apply Z.ones_spec_low. apply Z.mod_pos_bound. lia.
Qed.

Lemma firstZeroBitIndex_spec_witness :
  0 <= _firstZeroBitIndex (2 ^ 52 - 1) < 64 /\
  ((exists i, 0 <= i < 64 /\ Z.testbit (2 ^ 52 - 1) i = false) ->
   is_lowest_zero (2 ^ 52 - 1) (_firstZeroBitIndex (2 ^ 52 - 1))) /\
  (2 ^ 52 - 1 = 2 ^ 64 - 1 ->
   _firstZeroBitIndex (2 ^ 52 - 1) = 63 /\
   _firstZeroBitIndex (2 ^ 52 - 1) = _firstZeroBitIndex (2 ^ 63 - 1)) /\
  (Z.land (2 ^ 52 - 1) (2 ^ 52 - 1) = 2 ^ 52 - 1 ->
   fst (_drawUniqueCard (2 ^ 52 - 1) 0) = (63 + 0) mod 64 /\
   Z.testbit (Z.lor (2 ^ 52 - 1) _DUMMY_USED_MASK) (fst (_drawUniqueCard (2 ^ 52 - 1) 0)) = true).
Proof.
  apply (firstZeroBitIndex_spec (2 ^ 52 - 1) 0).
  - lia.
  - lia.
Defined.

(** The all-ones mask does not give 64. *)
Lemma firstZeroBitIndex_all_ones_not_64 :
  _firstZeroBitIndex (2 ^ 64 - 1) = 63 /\ _firstZeroBitIndex (2 ^ 64 - 1) <> 64.
Proof. split; [vm_compute; reflexivity|vm_compute; discriminate]. Qed.


(** C7. Monotone deal counter: in every reachable state no successful
    transaction decreases [dealIndex] of any game, a successful [dealRound]
    increases it by exactly 1, and [dealRound] fails once
    [dealIndex = HAND_SIZE] (with [GameAlreadyFinished] when the game is
    finished, else with [HandsAlreadyDealt]). *)
Theorem dealIndex_monotone (s : Contract) (gid : Z) :
  reachable s ->
  let g := game_at s gid in
  (forall tx s', exec s tx = Ok s' -> dealIndex g <= dealIndex (game_at s' gid)) /\
  (forall sender start0 start1 s',
      dealRound sender gid start0 start1 s = Ok s' ->
      dealIndex (game_at s' gid) = dealIndex g + 1) /\
  (dealIndex g = HAND_SIZE ->
   forall sender start0 start1,
     dealRound sender gid start0 start1 s =
     Err (if finished g then GameAlreadyFinished gid else HandsAlreadyDealt gid)).
Proof.
  intros Hreach g. pose proof (reachable_inv s Hreach) as Hinv.
  split; [|split].
  - intros tx s' Hexec. rewrite (exec_dealIndex s s' tx gid Hinv Hexec). fold g.
    unfold deal_on. destruct (call tx); try lia. destruct (_ =? _); lia.
  - intros sender start0 start1 s' Hdeal.
    apply dealRound_ok in Hdeal as (_ & _ & _ & _ & _ & _ & _ & ->).
    rewrite game_at_set_game_eq. reflexivity.
  - intros Hfull sender start0 start1.
    pose proof (ci_games s Hinv gid) as Hg. fold g in Hg.
    assert (Hs : started g = true).
    { destruct (started g) eqn:E; [reflexivity|].
      destruct (gi_unstarted g Hg E) as [Hz _]. unfold HAND_SIZE in Hfull. lia. }
    destruct (gi_started g Hg Hs) as [Hp0 _].
    unfold dealRound. rewrite (getGame_found s gid Hp0). cbn [mbind Result_bind].
    fold g. rewrite Hs. cbn [negb]. destruct (finished g); [reflexivity|].
    rewrite Hfull, Z.leb_refl. reflexivity.
Qed.

Lemma dealIndex_monotone_witness :
  let s := run init (sample_setup ++ sample_deals) in
  let g := game_at s 0 in
  (forall tx s', exec s tx = Ok s' -> dealIndex g <= dealIndex (game_at s' 0)) /\
  (forall sender start0 start1 s',
      dealRound sender 0 start0 start1 s = Ok s' ->
      dealIndex (game_at s' 0) = dealIndex g + 1) /\
  (dealIndex g = HAND_SIZE ->
   forall sender start0 start1,
     dealRound sender 0 start0 start1 s =
     Err (if finished g then GameAlreadyFinished 0 else HandsAlreadyDealt 0)).
Proof.
  apply (dealIndex_monotone (run init (sample_setup ++ sample_deals)) 0).
  apply run_reachable; [apply reachable_init|reflexivity].
Defined.

(** C2. Uniqueness of the deal: along every run from the deployed contract,
    for every game, if [k] calls of [dealRound] on it have succeeded then
    [k <= HAND_SIZE], [dealIndex = k], each hand holds [k] dealt cards, and
    the [2 k] dealt cards are pairwise distinct values of [0..51]; so no card
    of hand 0 is in hand 1, and with [k = HAND_SIZE] the two full hands of 6
    cards are disjoint.  ([startGame] is what sets the used-mask to zero.) *)
Theorem dealt_cards_unique (txs : list Tx) (gid : Z) :
  forallb valid_tx txs = true ->
  let g := game_at (run init txs) gid in
  let k := deals_done gid init txs in
  0 <= k <= HAND_SIZE /\ dealIndex g = k /\
  length (dealt0 g) = Z.to_nat k /\ length (dealt1 g) = Z.to_nat k /\
  NoDup (dealt0 g ++ dealt1 g) /\
  Forall in_deck (dealt0 g ++ dealt1 g) /\
  (forall c, c ∈ dealt0 g -> c ∉ dealt1 g) /\
  (k = HAND_SIZE -> dealt0 g = hand0 g /\ dealt1 g = hand1 g).
Proof.
  intros Hvalid g k.
  pose proof (run_reachable txs init reachable_init Hvalid) as Hreach.
  pose proof (ci_games _ (reachable_inv _ Hreach) gid) as Hg. fold g in Hg.
  assert (Hk : k = dealIndex g).
  { subst k. rewrite (deals_done_dealIndex gid txs init reachable_init Hvalid).
    fold g. change (dealIndex (game_at init gid)) with (dealIndex empty_game).
    cbn. lia. }
  pose proof Hg as [].
  assert (Hl0 : length (dealt0 g) = Z.to_nat k).
  { unfold dealt0. rewrite length_take. unfold HAND_SIZE in *. lia. }
  assert (Hl1 : length (dealt1 g) = Z.to_nat k).
  { unfold dealt1. rewrite length_take. unfold HAND_SIZE in *. lia. }
  split; [lia|]. split; [lia|]. split; [exact Hl0|]. split; [exact Hl1|].
  split; [exact gi_nodup0|]. split; [exact gi_deck0|]. split.
  - apply NoDup_app in gi_nodup0 as (_ & Hdisj & _). exact Hdisj.
  - intros Hfull. unfold dealt0, dealt1. unfold HAND_SIZE in *.
    split; apply take_ge; lia.
Qed.

Lemma dealt_cards_unique_witness :
  let g := game_at (run init sample_run) 0 in
  let k := deals_done 0 init sample_run in
  0 <= k <= HAND_SIZE /\ dealIndex g = k /\
  length (dealt0 g) = Z.to_nat k /\ length (dealt1 g) = Z.to_nat k /\
  NoDup (dealt0 g ++ dealt1 g) /\
  Forall in_deck (dealt0 g ++ dealt1 g) /\
  (forall c, c ∈ dealt0 g -> c ∉ dealt1 g) /\
  (k = HAND_SIZE -> dealt0 g = hand0 g /\ dealt1 g = hand1 g).
Proof.
  apply (dealt_cards_unique sample_run 0). reflexivity.
Defined.

(** C8. Monotone lifecycle flags: in every reachable state no successful
    transaction resets [started] or [finished] of any game; and once a game
    is finished, [joinGame], [startGame], [dealRound] and [playCard] on it
    all revert, so the state is unchanged, and no other successful
    transaction changes its record either. *)
Theorem flags_monotone (s : Contract) (gid : Z) :
  reachable s ->
  let g := game_at s gid in
  (forall tx s', exec s tx = Ok s' ->
     (started g = true -> started (game_at s' gid) = true) /\
     (finished g = true -> finished (game_at s' gid) = true)) /\
  (finished g = true ->
   (forall sender, joinGame sender gid s = Err (GameAlreadyStarted gid)) /\
   (forall sender, startGame sender gid s = Err (GameAlreadyStarted gid)) /\
   (forall sender start0 start1,
      dealRound sender gid start0 start1 s = Err (GameAlreadyFinished gid)) /\
   (forall sender handIndex,
      playCard sender gid handIndex s = Err (GameAlreadyFinished gid)) /\
   (forall tx,
      (call tx = JoinGame gid \/ call tx = StartGame gid \/
       (exists start0 start1, call tx = DealRound gid start0 start1) \/
       (exists handIndex, call tx = PlayCard gid handIndex)) ->
      apply_tx s tx = s) /\
   (forall tx s', exec s tx = Ok s' -> game_at s' gid = g)).
Proof.
  intros Hreach g. pose proof (reachable_inv s Hreach) as Hinv.
  pose proof (ci_games s Hinv gid) as Hg. fold g in Hg.
  split.
  - intros tx s' Hexec.
    destruct (exec_game_step s s' tx gid (ci_fresh s Hinv) Hexec) as [->|Hstep].
    + fold g. auto.
    + apply (game_step_flags gid tx). exact Hstep.
  - intros Hf. destruct (finished_facts g Hg Hf) as (Hs & Hp0 & _).
    assert (Hjoin : forall sender, joinGame sender gid s = Err (GameAlreadyStarted gid)).
    { intros sender. unfold joinGame. rewrite (getGame_found s gid Hp0).
      cbn [mbind Result_bind]. fold g. rewrite Hs. reflexivity. }
    assert (Hstart : forall sender, startGame sender gid s = Err (GameAlreadyStarted gid)).
    { intros sender. unfold startGame. rewrite (getGame_found s gid Hp0).
      cbn [mbind Result_bind]. fold g. rewrite Hs. reflexivity. }
    assert (Hdeal : forall sender start0 start1,
               dealRound sender gid start0 start1 s = Err (GameAlreadyFinished gid)).
    { intros sender start0 start1. unfold dealRound. rewrite (getGame_found s gid Hp0).
      cbn [mbind Result_bind]. fold g. rewrite Hs, Hf. reflexivity. }
    assert (Hplay : forall sender handIndex,
               playCard sender gid handIndex s = Err (GameAlreadyFinished gid)).
    { intros sender handIndex. unfold playCard. rewrite (getGame_found s gid Hp0).
      cbn [mbind Result_bind]. fold g. rewrite Hs, Hf. reflexivity. }
    repeat (split; [assumption|]). split.
    + intros tx Hcall. unfold apply_tx, exec.
      destruct Hcall as [Hc|[Hc|[(start0 & start1 & Hc)|(handIndex & Hc)]]]; rewrite Hc.
      * rewrite Hjoin. reflexivity.
      * rewrite Hstart. reflexivity.
      * rewrite Hdeal. reflexivity.
      * rewrite Hplay. reflexivity.
    + intros tx s' Hexec.
      destruct (exec_game_step s s' tx gid (ci_fresh s Hinv) Hexec) as [Heq|Hstep];
        [exact Heq|].
      apply (game_step_not_finished gid tx _ _ Hg) in Hstep. fold g in Hstep. congruence.
Qed.

Lemma flags_monotone_witness :
  let s := run init sample_run in
  let g := game_at s 0 in
  (forall tx s', exec s tx = Ok s' ->
     (started g = true -> started (game_at s' 0) = true) /\
     (finished g = true -> finished (game_at s' 0) = true)) /\
  (finished g = true ->
   (forall sender, joinGame sender 0 s = Err (GameAlreadyStarted 0)) /\
   (forall sender, startGame sender 0 s = Err (GameAlreadyStarted 0)) /\
   (forall sender start0 start1,
      dealRound sender 0 start0 start1 s = Err (GameAlreadyFinished 0)) /\
   (forall sender handIndex,
      playCard sender 0 handIndex s = Err (GameAlreadyFinished 0)) /\
   (forall tx,
      (call tx = JoinGame 0 \/ call tx = StartGame 0 \/
       (exists start0 start1, call tx = DealRound 0 start0 start1) \/
       (exists handIndex, call tx = PlayCard 0 handIndex)) ->
      apply_tx s tx = s) /\
   (forall tx s', exec s tx = Ok s' -> game_at s' 0 = g)).
Proof.
  apply (flags_monotone (run init sample_run) 0).
  apply run_reachable; [apply reachable_init|reflexivity].
Defined.

(** C4, as amended.  Single showdown: in every reachable state the result
    of a game is present exactly when both slots have played, and exactly
    when the game is finished.  A successful transaction leaves the result
    as it is, unless it is the [playCard] on this game after which both
    slots have played: then the result goes from absent to present and
    [finished] from false to true in that same call.  After both have
    played, a further [playCard] by anyone fails with [GameAlreadyFinished]
    (the finished test comes first), not with [AlreadyPlayed];
    [AlreadyPlayed] is what a slot gets that plays again, with a hand index
    below [HAND_SIZE], while the other slot has not played, and it is
    returned in no other case: a [playCard] that fails with [AlreadyPlayed]
    names this game, has a hand index below [HAND_SIZE], and comes from a
    slot that has played while the other has not. *)
Theorem single_showdown (s : Contract) (gid : Z) :
  reachable s ->
  let g := game_at s gid in
  (is_Some (p0Wins g) <-> hasPlayed0 g = true /\ hasPlayed1 g = true) /\
  (is_Some (p0Wins g) <-> finished g = true) /\
  (forall tx s', exec s tx = Ok s' ->
     let g' := game_at s' gid in
     p0Wins g' = p0Wins g \/
     (p0Wins g = None /\ is_Some (p0Wins g') /\
      (exists handIndex, call tx = PlayCard gid handIndex) /\
      ~ (hasPlayed0 g = true /\ hasPlayed1 g = true) /\
      hasPlayed0 g' = true /\ hasPlayed1 g' = true /\
      finished g = false /\ finished g' = true)) /\
  (forall tx s', valid_tx tx = true -> exec s tx = Ok s' ->
     let g' := game_at s' gid in
     hasPlayed0 g' = true -> hasPlayed1 g' = true ->
     is_Some (p0Wins g') /\ finished g' = true) /\
  (hasPlayed0 g = true -> hasPlayed1 g = true ->
   forall sender handIndex,
     playCard sender gid handIndex s = Err (GameAlreadyFinished gid)) /\
  (hasPlayed0 g = true -> hasPlayed1 g = false ->
   forall handIndex, handIndex < HAND_SIZE ->
     playCard (player0 g) gid handIndex s = Err (AlreadyPlayed gid)) /\
  (hasPlayed0 g = false -> hasPlayed1 g = true ->
   forall handIndex, handIndex < HAND_SIZE ->
     playCard (player1 g) gid handIndex s = Err (AlreadyPlayed gid)) /\
  (forall sender handIndex gid',
     playCard sender gid handIndex s = Err (AlreadyPlayed gid') ->
     gid' = gid /\ handIndex < HAND_SIZE /\
     ((sender = player0 g /\ hasPlayed0 g = true /\ hasPlayed1 g = false) \/
      (sender = player1 g /\ hasPlayed1 g = true /\ hasPlayed0 g = false))).
Proof.
  intros Hreach g. pose proof (reachable_inv s Hreach) as Hinv.
  pose proof (ci_games s Hinv gid) as Hg. fold g in Hg.
  assert (Hres : forall h, game_inv h ->
            (is_Some (p0Wins h) <-> hasPlayed0 h = true /\ hasPlayed1 h = true) /\
            (is_Some (p0Wins h) <-> finished h = true)).
  { intros h Hh. pose proof Hh as []. rewrite <- gi_result0.
    rewrite gi_finished0, andb_true_iff. tauto. }
  assert (Hone : forall isP0, (if isP0 : bool then hasPlayed0 g = true else hasPlayed1 g = true) ->
            finished g = false -> started g = true /\ player0 g <> 0 /\ dealIndex g = HAND_SIZE).
  { intros isP0 Hp Hf. pose proof Hg as [].
    assert (Hk : dealIndex g = HAND_SIZE) by (apply gi_played0; destruct isP0; auto).
    assert (Hs : started g = true).
    { destruct (started g) eqn:E; [reflexivity|].
      destruct (gi_unstarted0 eq_refl) as (Hz & _). unfold HAND_SIZE in Hk. lia. }
    destruct (gi_started0 Hs). auto. }
  split; [apply (Hres g Hg)|]. split; [apply (Hres g Hg)|].
  split; [|split; [|split; [|split; [|split]]]].
  - intros tx s' Hexec g'.
    destruct (exec_game_step s s' tx gid (ci_fresh s Hinv) Hexec) as [Heq|Hstep].
    + left. subst g'. rewrite Heq. reflexivity.
    + apply (game_step_result gid tx _ _ Hg Hstep).
  - intros tx s' Hvalid Hexec g' H0 H1.
    pose proof (ci_games s' (exec_inv s s' tx Hinv Hvalid Hexec) gid) as Hg'.
    fold g' in Hg'. destruct (Hres g' Hg') as [Ha Hb].
    split; [apply Ha; auto|]. apply Hb. apply Ha. auto.
  - intros H0 H1 sender handIndex.
    assert (Hf : finished g = true) by (rewrite (gi_finished g Hg), H0, H1; reflexivity).
    destruct (finished_facts g Hg Hf) as (Hs & Hp0 & _).
    unfold playCard. rewrite (getGame_found s gid Hp0).
    cbn [mbind Result_bind]. fold g. rewrite Hs, Hf. reflexivity.
  - intros H0 H1 handIndex Hidx.
    assert (Hf : finished g = false) by (rewrite (gi_finished g Hg), H0, H1; reflexivity).
    destruct (Hone true H0 Hf) as (Hs & Hp0 & Hk).
    unfold playCard. rewrite (getGame_found s gid Hp0).
    cbn [mbind Result_bind]. fold g. rewrite Hs, Hf, Hk. cbn [negb].
    rewrite Z.ltb_irrefl.
    destruct (Z.leb_spec HAND_SIZE handIndex) as [Hge|_]; [lia|].
    rewrite Z.eqb_refl. cbn [negb andb]. rewrite H0. reflexivity.
  - intros H0 H1 handIndex Hidx.
    assert (Hf : finished g = false) by (rewrite (gi_finished g Hg), H0, H1; reflexivity).
    destruct (Hone false H1 Hf) as (Hs & Hp0 & Hk).
    pose proof (gi_players g Hg Hp0) as Hne.
    unfold playCard. rewrite (getGame_found s gid Hp0).
    cbn [mbind Result_bind]. fold g. rewrite Hs, Hf, Hk. cbn [negb].
    rewrite Z.ltb_irrefl.
    destruct (Z.leb_spec HAND_SIZE handIndex) as [Hge|_]; [lia|].
    rewrite Z.eqb_refl.
    destruct (Z.eqb_spec (player1 g) (player0 g)) as [E|_]; [congruence|].
    cbn [negb andb]. rewrite H1. reflexivity.
  - intros sender handIndex gid' Hplay.
    pose proof (gi_finished g Hg) as Hfin.
    unfold playCard, _getGame in Hplay. fold g in Hplay.
    destruct (Z.eqb_spec (player0 g) 0) as [|Hp0]; [discriminate|].
    cbn [mbind Result_bind] in Hplay.
    destruct (started g); cbn [negb] in Hplay; [|discriminate].
    destruct (finished g); [discriminate|].
    destruct (Z.ltb_spec (dealIndex g) HAND_SIZE); [discriminate|].
    destruct (Z.leb_spec HAND_SIZE handIndex); [discriminate|].
    destruct (Z.eqb_spec sender (player0 g)) as [E0|N0]; cbn [negb andb] in Hplay.
    + destruct (hasPlayed0 g) eqn:Hh0.
      * injection Hplay as <-. cbn [andb] in Hfin. symmetry in Hfin.
        split; [reflexivity|]. split; [assumption|]. left. auto.
      * apply playCard_tail_not_AlreadyPlayed in Hplay. contradiction.
    + destruct (Z.eqb_spec sender (player1 g)) as [E1|N1]; [|discriminate].
      cbn [negb] in Hplay.
      destruct (hasPlayed1 g) eqn:Hh1.
      * injection Hplay as <-. rewrite andb_true_r in Hfin. symmetry in Hfin.
        split; [reflexivity|]. split; [assumption|]. right. auto.
      * apply playCard_tail_not_AlreadyPlayed in Hplay. contradiction.
Qed.

Lemma single_showdown_witness :
  let s := run init sample_run in
  let g := game_at s 0 in
  (is_Some (p0Wins g) <-> hasPlayed0 g = true /\ hasPlayed1 g = true) /\
  (is_Some (p0Wins g) <-> finished g = true) /\
  (forall tx s', exec s tx = Ok s' ->
     let g' := game_at s' 0 in
     p0Wins g' = p0Wins g \/
     (p0Wins g = None /\ is_Some (p0Wins g') /\
      (exists handIndex, call tx = PlayCard 0 handIndex) /\
      ~ (hasPlayed0 g = true /\ hasPlayed1 g = true) /\
      hasPlayed0 g' = true /\ hasPlayed1 g' = true /\
      finished g = false /\ finished g' = true)) /\
  (forall tx s', valid_tx tx = true -> exec s tx = Ok s' ->
     let g' := game_at s' 0 in
     hasPlayed0 g' = true -> hasPlayed1 g' = true ->
     is_Some (p0Wins g') /\ finished g' = true) /\
  (hasPlayed0 g = true -> hasPlayed1 g = true ->
   forall sender handIndex,
     playCard sender 0 handIndex s = Err (GameAlreadyFinished 0)) /\
  (hasPlayed0 g = true -> hasPlayed1 g = false ->
   forall handIndex, handIndex < HAND_SIZE ->
     playCard (player0 g) 0 handIndex s = Err (AlreadyPlayed 0)) /\
  (hasPlayed0 g = false -> hasPlayed1 g = true ->
   forall handIndex, handIndex < HAND_SIZE ->
     playCard (player1 g) 0 handIndex s = Err (AlreadyPlayed 0)) /\
  (forall sender handIndex gid',
     playCard sender 0 handIndex s = Err (AlreadyPlayed gid') ->
     gid' = 0 /\ handIndex < HAND_SIZE /\
     ((sender = player0 g /\ hasPlayed0 g = true /\ hasPlayed1 g = false) \/
      (sender = player1 g /\ hasPlayed1 g = true /\ hasPlayed0 g = false))).
Proof.
  apply (single_showdown (run init sample_run) 0).
  apply run_reachable; [apply reachable_init|reflexivity].
Defined.

(** After both slots of the sample session have played, a third play by
    slot 0 fails with [GameAlreadyFinished], not with [AlreadyPlayed]. *)
Lemma third_play_not_AlreadyPlayed :
  let s := run init sample_run in
  hasPlayed0 (game_at s 0) = true /\ hasPlayed1 (game_at s 0) = true /\
  playCard alice 0 1 s = Err (GameAlreadyFinished 0) /\
  playCard alice 0 1 s <> Err (AlreadyPlayed 0).
Proof.
  vm_compute. repeat split; try reflexivity. discriminate.
Qed.

(** C5. [joinGame] fails with [GameNotFound] when the id is unknown, else
    with [GameAlreadyStarted] when the game has started, else with
    [GameFull] when slot 1 is occupied, else with [GameNotOpen] (the
    self-join error) when the caller is slot 0; otherwise it succeeds, sets
    slot 1 to the caller and removes the id from the open index. *)
Theorem joinGame_spec (s : Contract) (sender gid : Z) :
  reachable s ->
  let g := game_at s gid in
  (player0 g = 0 -> joinGame sender gid s = Err (GameNotFound gid)) /\
  (player0 g <> 0 -> started g = true ->
   joinGame sender gid s = Err (GameAlreadyStarted gid)) /\
  (player0 g <> 0 -> started g = false -> player1 g <> 0 ->
   joinGame sender gid s = Err (GameFull gid)) /\
  (player0 g <> 0 -> started g = false -> player1 g = 0 -> sender = player0 g ->
   joinGame sender gid s = Err (GameNotOpen gid)) /\
  (player0 g <> 0 -> started g = false -> player1 g = 0 -> sender <> player0 g ->
   exists s', joinGame sender gid s = Ok s') /\
  (forall s', joinGame sender gid s = Ok s' ->
     player1 (game_at s' gid) = sender /\
     open_index_at s' gid = 0 /\ gid ∉ getOpenGameIds s').
Proof.
  intros Hreach g. pose proof (reachable_inv s Hreach) as Hinv.
  pose proof (join_removeOpen s sender gid Hinv) as Hrem. fold g in Hrem.
  split; [|split; [|split; [|split; [|split]]]].
  - intros Hp0. unfold joinGame. rewrite (getGame_err s gid Hp0). reflexivity.
  - intros Hp0 Hs. unfold joinGame. rewrite (getGame_found s gid Hp0).
    cbn [mbind Result_bind]. fold g. rewrite Hs. reflexivity.
  - intros Hp0 Hs Hp1. unfold joinGame. rewrite (getGame_found s gid Hp0).
    cbn [mbind Result_bind]. fold g. rewrite Hs.
    destruct (Z.eqb_spec (player1 g) 0); [contradiction|]. reflexivity.
  - intros Hp0 Hs Hp1 Hself. unfold joinGame. rewrite (getGame_found s gid Hp0).
    cbn [mbind Result_bind]. fold g. rewrite Hs, Hp1. cbn [Z.eqb negb].
    destruct (Z.eqb_spec (player0 g) 0); [contradiction|].
    destruct (Z.eqb_spec (player0 g) sender); [reflexivity|congruence].
  - intros Hp0 Hs Hp1 Hother. destruct Hrem as (s' & Hr & _). exists s'.
    unfold joinGame. rewrite (getGame_found s gid Hp0).
    cbn [mbind Result_bind]. fold g. rewrite Hs, Hp1. cbn [Z.eqb negb].
    destruct (Z.eqb_spec (player0 g) 0); [contradiction|].
    destruct (Z.eqb_spec (player0 g) sender); [congruence|]. exact Hr.
  - intros s' Hjoin. apply (joinGame_after s s' sender gid Hinv Hjoin).
Qed.

Lemma joinGame_spec_witness :
  let s := run init [mkTx alice 1 CreateGame] in
  let g := game_at s 0 in
  (player0 g = 0 -> joinGame bob 0 s = Err (GameNotFound 0)) /\
  (player0 g <> 0 -> started g = true ->
   joinGame bob 0 s = Err (GameAlreadyStarted 0)) /\
  (player0 g <> 0 -> started g = false -> player1 g <> 0 ->
   joinGame bob 0 s = Err (GameFull 0)) /\
  (player0 g <> 0 -> started g = false -> player1 g = 0 -> bob = player0 g ->
   joinGame bob 0 s = Err (GameNotOpen 0)) /\
  (player0 g <> 0 -> started g = false -> player1 g = 0 -> bob <> player0 g ->
   exists s', joinGame bob 0 s = Ok s') /\
  (forall s', joinGame bob 0 s = Ok s' ->
     player1 (game_at s' 0) = bob /\
     open_index_at s' 0 = 0 /\ 0 ∉ getOpenGameIds s').
Proof.
  apply (joinGame_spec (run init [mkTx alice 1 CreateGame]) bob 0).
  apply run_reachable; [apply reachable_init|reflexivity].
Defined.

(** What [getHand] does for an existing game of a reachable state, in
    terms of the two stored slot values: the stored hand of slot 0 for the
    address of slot 0, the stored hand of slot 1 for the address of slot 1,
    and [NotAPlayer] for every address that is neither of the two slot
    values.  An empty slot 1 holds the zero address, so that the second
    case covers the zero address on a game nobody has joined. *)
Lemma getHand_spec (s : Contract) (gid player : Z) :
  reachable s ->
  let g := game_at s gid in
  player0 g <> 0 ->
  (player = player0 g -> getHand gid player s = Ok (hand0 g)) /\
  (player = player1 g -> getHand gid player s = Ok (hand1 g)) /\
  (player <> player0 g -> player <> player1 g ->
   getHand gid player s = Err (NotAPlayer gid)).
Proof.
  intros Hreach g Hp0. pose proof (reachable_inv s Hreach) as Hinv.
  pose proof (gi_players g (ci_games s Hinv gid) Hp0) as Hne.
  unfold getHand. rewrite (getGame_found s gid Hp0). cbn [mbind Result_bind]. fold g.
  split; [|split].
  - intros ->. rewrite Z.eqb_refl. reflexivity.
  - intros ->. destruct (Z.eqb_spec (player1 g) (player0 g)); [congruence|].
    rewrite Z.eqb_refl. reflexivity.
  - intros H0 H1. destruct (Z.eqb_spec player (player0 g)); [contradiction|].
    destruct (Z.eqb_spec player (player1 g)); [contradiction|]. reflexivity.
Qed.

Lemma getHand_spec_witness :
  let s := run init sample_run in
  let g := game_at s 0 in
  (carol = player0 g -> getHand 0 carol s = Ok (hand0 g)) /\
  (carol = player1 g -> getHand 0 carol s = Ok (hand1 g)) /\
  (carol <> player0 g -> carol <> player1 g ->
   getHand 0 carol s = Err (NotAPlayer 0)).
Proof.
  apply (getHand_spec (run init sample_run) 0 carol).
  - apply run_reachable; [apply reachable_init|reflexivity].
  - vm_compute. discriminate.
Defined.

(** C6. The claim fails in the code for the zero address on a game that
    nobody has joined.  In every reachable state, for an existing game
    whose slot 1 is empty (it holds the zero address): the game has one
    participant, the creator, who is not the zero address, and [getHand]
    gives the creator the hand of slot 0; yet [getHand] for the zero
    address does not fail with [NotAPlayer], it returns the stored hand of
    slot 1.  The other functions do not take the zero address for a
    participant of such a game: [joinGame] takes slot 1 for empty and
    accepts any caller other than the creator into it, and [startGame],
    [dealRound] and [playCard] fail with [GameNotReady] for every caller
    before they reach their participant test. *)
Theorem getHand_zero_address_unjoined (s : Contract) (gid : Z) :
  reachable s ->
  let g := game_at s gid in
  player0 g <> 0 -> player1 g = 0 ->
  getHand gid (player0 g) s = Ok (hand0 g) /\
  getHand gid 0 s = Ok (hand1 g) /\
  getHand gid 0 s <> Err (NotAPlayer gid) /\
  (forall sender, sender <> player0 g ->
     exists s', joinGame sender gid s = Ok s' /\ player1 (game_at s' gid) = sender) /\
  (forall sender, startGame sender gid s = Err (GameNotReady gid)) /\
  (forall sender start0 start1,
     dealRound sender gid start0 start1 s = Err (GameNotReady gid)) /\
  (forall sender handIndex,
     playCard sender gid handIndex s = Err (GameNotReady gid)).
Proof.
  intros Hreach g Hp0 Hp1. pose proof (reachable_inv s Hreach) as Hinv.
  pose proof (ci_games s Hinv gid) as Hg. fold g in Hg.
  assert (Hs : started g = false).
  { destruct (started g) eqn:E; [|reflexivity].
    destruct (gi_started g Hg E) as [_ Hn]. contradiction. }
  assert (Hhand : getHand gid 0 s = Ok (hand1 g)).
  { unfold getHand. rewrite (getGame_found s gid Hp0).
    cbn [mbind Result_bind]. fold g. rewrite Hp1.
    destruct (Z.eqb_spec 0 (player0 g)); [congruence|]. reflexivity. }
  split; [|split; [|split; [|split; [|split; [|split]]]]].
  - unfold getHand. rewrite (getGame_found s gid Hp0).
    cbn [mbind Result_bind]. fold g. rewrite Z.eqb_refl. reflexivity.
  - exact Hhand.
  - rewrite Hhand. discriminate.
  - intros sender Hother.
    destruct (join_removeOpen s sender gid Hinv) as (s' & Hr & _). fold g in Hr.
    assert (Hjoin : joinGame sender gid s = Ok s').
    { unfold joinGame. rewrite (getGame_found s gid Hp0).
      cbn [mbind Result_bind]. fold g. rewrite Hs, Hp1. cbn [Z.eqb negb].
      destruct (Z.eqb_spec (player0 g) 0); [contradiction|].
      destruct (Z.eqb_spec (player0 g) sender); [congruence|]. exact Hr. }
    exists s'. split; [exact Hjoin|].
    apply (joinGame_after s s' sender gid Hinv Hjoin).
  - intros sender. unfold startGame. rewrite (getGame_found s gid Hp0).
    cbn [mbind Result_bind]. fold g. rewrite Hs, Hp1. cbn [Z.eqb].
    rewrite orb_true_r. reflexivity.
  - intros sender start0 start1. unfold dealRound. rewrite (getGame_found s gid Hp0).
    cbn [mbind Result_bind]. fold g. rewrite Hs. reflexivity.
  - intros sender handIndex. unfold playCard. rewrite (getGame_found s gid Hp0).
    cbn [mbind Result_bind]. fold g. rewrite Hs. reflexivity.
Qed.

Lemma getHand_zero_address_unjoined_witness :
  let s := run init [mkTx alice 1 CreateGame] in
  let g := game_at s 0 in
  getHand 0 (player0 g) s = Ok (hand0 g) /\
  getHand 0 0 s = Ok (hand1 g) /\
  getHand 0 0 s <> Err (NotAPlayer 0) /\
  (forall sender, sender <> player0 g ->
     exists s', joinGame sender 0 s = Ok s' /\ player1 (game_at s' 0) = sender) /\
  (forall sender, startGame sender 0 s = Err (GameNotReady 0)) /\
  (forall sender start0 start1,
     dealRound sender 0 start0 start1 s = Err (GameNotReady 0)) /\
  (forall sender handIndex,
     playCard sender 0 handIndex s = Err (GameNotReady 0)).
Proof.
  apply (getHand_zero_address_unjoined (run init [mkTx alice 1 CreateGame]) 0).
  - apply run_reachable; [apply reachable_init|reflexivity].
  - vm_compute. discriminate.
  - vm_compute. reflexivity.
Defined.

(** C9. Open index integrity: in every reachable state [createGame]
    succeeds for every caller as long as the id counter is below its
    maximum, returns the current counter as the new id, and that id is in
    the open-game list afterwards (as is the id of any successful
    [createGame]); the id of a successful [joinGame] is not in the list
    afterwards; and [_removeOpen] on an id that is not in the list succeeds
    and leaves the state as it is. *)
Theorem open_index_integrity (s : Contract) :
  reachable s ->
  (forall sender timestamp, nextGameId s < MAX_UINT256 ->
     exists s', createGame sender timestamp s = Ok (s', nextGameId s) /\
                nextGameId s ∈ getOpenGameIds s') /\
  (forall sender timestamp s' gid,
     createGame sender timestamp s = Ok (s', gid) -> gid ∈ getOpenGameIds s') /\
  (forall sender gid s',
     joinGame sender gid s = Ok s' -> gid ∉ getOpenGameIds s') /\
  (forall gid, gid ∉ getOpenGameIds s -> _removeOpen gid s = Ok s).
Proof.
  intros Hreach. pose proof (reachable_inv s Hreach) as Hinv.
  split; [|split; [|split]].
  - intros sender timestamp Hmax.
    destruct (createGame_inv sender timestamp s Hinv) as (s' & Hcr & _ & Hids); [lia|].
    exists s'. split; [exact Hcr|].
    unfold getOpenGameIds. rewrite Hids. apply elem_of_app. right.
    apply list_elem_of_singleton. reflexivity.
  - intros sender timestamp s' gid Hcr.
    apply createGame_ok in Hcr as (_ & _ & Hpush).
    apply pushOpen_frame in Hpush as (_ & _ & Hids & _).
    unfold getOpenGameIds. rewrite Hids. apply elem_of_app. right.
    apply list_elem_of_singleton. reflexivity.
  - intros sender gid s' Hjoin.
    apply (joinGame_after s s' sender gid Hinv Hjoin).
  - intros gid Hnot. apply removeOpen_absent.
    apply (open_absent_iff gid s (ci_open s Hinv)). exact Hnot.
Qed.

Lemma open_index_integrity_witness :
  let s := run init [mkTx alice 1 CreateGame] in
  (forall sender timestamp, nextGameId s < MAX_UINT256 ->
     exists s', createGame sender timestamp s = Ok (s', nextGameId s) /\
                nextGameId s ∈ getOpenGameIds s') /\
  (forall sender timestamp s' gid,
     createGame sender timestamp s = Ok (s', gid) -> gid ∈ getOpenGameIds s') /\
  (forall sender gid s',
     joinGame sender gid s = Ok s' -> gid ∉ getOpenGameIds s') /\
  (forall gid, gid ∉ getOpenGameIds s -> _removeOpen gid s = Ok s).
Proof.
  apply (open_index_integrity (run init [mkTx alice 1 CreateGame])).
  apply run_reachable; [apply reachable_init|reflexivity].
Defined.

(** * Further properties of the code *)

(** ** The comparison *)

(** X1. The comparison of [_finishGame] is a strict total order on card
    values: no card beats itself, of two different cards exactly one beats
    the other (there is no draw), and beating is transitive. *)
Theorem showdown_strict_total_order (a b c : Z) :
  showdown a a = false /\
  (a <> b -> showdown a b = negb (showdown b a)) /\
  (showdown a b = true -> showdown b c = true -> showdown a c = true).
Proof.
  unfold showdown, FHE.or_, FHE.and_, FHE.gt, FHE.eq, FHE.rem8, FHE.div8, RANKS.
  pose proof (Z.div_mod a 13 ltac:(lia)) as Ha.
  pose proof (Z.div_mod b 13 ltac:(lia)) as Hb.
  pose proof (Z.div_mod c 13 ltac:(lia)) as Hc.
  set (ra := a mod 13) in *. set (sa := a / 13) in *.
  set (rb := b mod 13) in *. set (sb := b / 13) in *.
  set (rc := c mod 13) in *. set (sc := c / 13) in *.
  split; [|split].
  - rewrite !Z.ltb_irrefl. rewrite andb_false_r. reflexivity.
  - intros Hne.
    destruct (Z.ltb_spec rb ra), (Z.ltb_spec ra rb), (Z.eqb_spec ra rb),
      (Z.eqb_spec rb ra), (Z.ltb_spec sb sa), (Z.ltb_spec sa sb);
      cbn; try reflexivity; lia.
  - rewrite !orb_true_iff, !andb_true_iff, !Z.ltb_lt, !Z.eqb_eq. lia.
Qed.

(** X2. The reference comparison of the test suite agrees with the
    comparison of the contract on all non-negative card values. *)
Theorem computeWinner_agrees (card0 card1 : Z) :
  0 <= card0 -> 0 <= card1 ->
  computeWinner card0 card1 = showdown card0 card1.
Proof.
  intros H0 H1.
  unfold computeWinner, showdown, FHE.or_, FHE.and_, FHE.gt, FHE.eq, FHE.rem8,
    FHE.div8, RANKS.
  rewrite !Z.rem_mod_nonneg by lia.
  destruct (Z.eqb_spec (card0 mod 13) (card1 mod 13)) as [E|E]; cbn [negb].
  - rewrite E, Z.ltb_irrefl. reflexivity.
  - rewrite andb_false_l, orb_false_r. reflexivity.
Qed.

Lemma computeWinner_agrees_witness : computeWinner 5 17 = showdown 5 17.
Proof. apply (computeWinner_agrees 5 17); lia. Defined.

(** ** The draw *)

(** X3. The draw takes the first free slot of the 64-slot ring at or after
    [start]: every slot [(start + d) mod 64] before the returned one is a
    used card or a sentinel, the returned slot is not; so a free [start]
    below 52 is returned itself. *)
Theorem drawUniqueCard_first_free (used start : Z) :
  0 <= used < 2 ^ 64 ->
  (exists i, 0 <= i < 52 /\ Z.testbit used i = false) ->
  0 <= start < 64 ->
  let taken := Z.lor used _DUMMY_USED_MASK in
  let card := fst (_drawUniqueCard used start) in
  (exists p, 0 <= p < 64 /\ card = (start + p) mod 64 /\
     forall d, 0 <= d < p -> Z.testbit taken ((start + d) mod 64) = true) /\
  Z.testbit taken card = false /\
  (Z.testbit taken start = false -> card = start).
Proof.
  intros Hused Hfree Hstart taken card.
  pose proof (rotated_has_zero used start Hused Hstart Hfree) as Hzero.
  apply lowest_zero_bit_spec in Hzero as [Hlow Hp].
  destruct (drawUniqueCard_at used start _ Hused Hstart Hlow Hp) as (Hd & Hdeck & Hbit).
  set (p := lowest_zero_bit _) in *.
  assert (Hcard : card = (p + start) mod 64) by (subst card; rewrite Hd; reflexivity).
  assert (Hhigh : forall j, 64 <= j ->
            Z.testbit (FHE.or64 used (FHE.asEuint64 _DUMMY_USED_MASK)) j = false).
  { intros j Hj. rewrite with_dummies_testbit by lia.
    rewrite (testbit_high used j) by lia.
    destruct (Z.ltb_spec j 64); [lia|]. apply andb_false_r. }
  destruct Hlow as (Hp0 & Hz & Hones).
  assert (Hbefore : forall d, 0 <= d < p -> Z.testbit taken ((start + d) mod 64) = true).
  { intros d Hdp. specialize (Hones d Hdp).
    rewrite rotr64_testbit in Hones by (try exact Hhigh; lia).
    rewrite (Z.add_comm start d). exact Hones. }
  assert (Hfreecard : Z.testbit taken card = false).
  { rewrite rotr64_testbit in Hz by (try exact Hhigh; lia). rewrite Hcard. exact Hz. }
  split; [|split].
  - exists p. split; [lia|]. split; [rewrite Hcard; f_equal; lia|exact Hbefore].
  - exact Hfreecard.
  - intros Hs. destruct (Z.eq_dec p 0) as [E|E].
    + rewrite Hcard, E. apply Z.mod_small. lia.
    + specialize (Hbefore 0 ltac:(lia)).
      rewrite Z.add_0_r, Z.mod_small in Hbefore by lia. congruence.
Qed.

Lemma drawUniqueCard_first_free_witness :
  let taken := Z.lor 11 _DUMMY_USED_MASK in
  let card := fst (_drawUniqueCard 11 62) in
  (exists p, 0 <= p < 64 /\ card = (62 + p) mod 64 /\
     forall d, 0 <= d < p -> Z.testbit taken ((62 + d) mod 64) = true) /\
  Z.testbit taken card = false /\
  (Z.testbit taken 62 = false -> card = 62).
Proof.
  apply (drawUniqueCard_first_free 11 62).
  - lia.
  - exists 2. split; [lia|reflexivity].
  - lia.
Defined.

(** ** The stored used-mask *)

(** X4. The used-mask kept in storage never holds a sentinel bit: in every
    reachable state it is below [2 ^ 52], disjoint from the sentinel mask
    (which [_drawUniqueCard] only ORs in for the search), and its set bits
    are exactly the cards dealt so far. *)
Theorem stored_mask_without_sentinels (s : Contract) (gid : Z) :
  reachable s ->
  let g := game_at s gid in
  0 <= usedMask g < 2 ^ 52 /\
  Z.land (usedMask g) _DUMMY_USED_MASK = 0 /\
  (forall j, 0 <= j -> (Z.testbit (usedMask g) j = true <-> j ∈ dealt g)).
Proof.
  intros Hreach g.
  pose proof (ci_games s (reachable_inv s Hreach) gid) as Hg. fold g in Hg.
  destruct (gi_mask g Hg) as [Hrange Hbits].
  assert (Hhigh : forall j, 52 <= j -> Z.testbit (usedMask g) j = false).
  { intros j Hj. destruct (Z.testbit (usedMask g) j) eqn:E; [|reflexivity].
    apply Hbits in E; [|lia].
    pose proof (gi_deck g Hg) as Hdeck. rewrite Forall_forall in Hdeck.
    apply Hdeck in E. unfold in_deck in E. lia. }
  split; [|split; [|exact Hbits]].
  - assert (Hmod : usedMask g = usedMask g mod 2 ^ 52).
    { apply Z.bits_inj'. intros n Hn.
      destruct (Z_lt_ge_dec n 52) as [Hlt|Hge].
      - rewrite Z.mod_pow2_bits_low by lia. reflexivity.
      - rewrite Z.mod_pow2_bits_high by lia. apply Hhigh. lia. }
    rewrite Hmod. apply Z.mod_pos_bound. lia.
  - apply Z.bits_inj'. intros n Hn. rewrite Z.land_spec, Z.bits_0, dummy_testbit by lia.
    destruct (Z.leb_spec 52 n) as [H52|H52].
    + rewrite Hhigh by lia. reflexivity.
    + apply andb_false_r.
Qed.

Lemma stored_mask_without_sentinels_witness :
  let g := game_at (run init sample_run) 0 in
  0 <= usedMask g < 2 ^ 52 /\
  Z.land (usedMask g) _DUMMY_USED_MASK = 0 /\
  (forall j, 0 <= j -> (Z.testbit (usedMask g) j = true <-> j ∈ dealt g)).
Proof.
  apply (stored_mask_without_sentinels (run init sample_run) 0).
  apply run_reachable; [apply reachable_init|reflexivity].
Defined.

(** ** Views and unknown ids *)

Section Views.

Lemma started_facts (g : Game) :
  game_inv g -> started g = true ->
  player0 g <> 0 /\ player1 g <> 0 /\ player0 g <> player1 g.
Proof.
  intros Hg Hs. destruct (gi_started g Hg Hs) as [Hp0 Hp1].
  pose proof (gi_players g Hg Hp0). auto.
Qed.

Lemma finished_dealt (g : Game) :
  game_inv g -> finished g = true -> dealIndex g = HAND_SIZE.
Proof.
  intros Hg Hf. destruct (finished_facts g Hg Hf) as (_ & _ & H0 & _).
  apply (gi_played g Hg). auto.
Qed.

End Views.

(** X5. What [getGameInfo] reports in a reachable state is consistent with
    the lifecycle: [bothPlayed] equals [finished]; the deal counter lies in
    [0..HAND_SIZE] and is 0 before the start; a started game has two
    different non-zero players; a finished game is started and fully dealt. *)
Theorem getGameInfo_consistent (s : Contract) (gid : Z) (info : GameInfo) :
  reachable s ->
  getGameInfo gid s = Ok info ->
  info_bothPlayed info = info_finished info /\
  0 <= info_dealIndex info <= HAND_SIZE /\
  (info_started info = false -> info_dealIndex info = 0) /\
  (info_started info = true ->
   info_player0 info <> 0 /\ info_player1 info <> 0 /\
   info_player0 info <> info_player1 info) /\
  (info_finished info = true ->
   info_started info = true /\ info_dealIndex info = HAND_SIZE).
Proof.
  intros Hreach Hinfo. unfold getGameInfo in Hinfo.
  destruct (_getGame s gid) as [g|] eqn:Eg; [|discriminate].
  apply getGame_ok in Eg as [-> Hp0]. cbn [mbind Result_bind] in Hinfo.
  injection Hinfo as <-. cbn.
  pose proof (ci_games s (reachable_inv s Hreach) gid) as Hg.
  split; [symmetry; apply (gi_finished _ Hg)|].
  split; [apply (gi_deal _ Hg)|].
  split; [intros Hs; apply (gi_unstarted _ Hg Hs)|].
  split; [apply (started_facts _ Hg)|].
  intros Hf. split; [apply (finished_facts _ Hg Hf)|apply (finished_dealt _ Hg Hf)].
Qed.

Lemma getGameInfo_consistent_witness :
  let info := mkGameInfo alice bob true true true 6 1 in
  info_bothPlayed info = info_finished info /\
  0 <= info_dealIndex info <= HAND_SIZE /\
  (info_started info = false -> info_dealIndex info = 0) /\
  (info_started info = true ->
   info_player0 info <> 0 /\ info_player1 info <> 0 /\
   info_player0 info <> info_player1 info) /\
  (info_finished info = true ->
   info_started info = true /\ info_dealIndex info = HAND_SIZE).
Proof.
  apply (getGameInfo_consistent (run init sample_run) 0).
  - apply run_reachable; [apply reachable_init|reflexivity].
  - vm_compute. reflexivity.
Defined.

(** X6. An id that [createGame] has not given out yet is unknown to every
    entry point: in a reachable state the four operations and the four
    game views all fail with [GameNotFound] on an id at or above
    [nextGameId]. *)
Theorem unknown_id_not_found (s : Contract) (gid : Z) :
  reachable s -> nextGameId s <= gid ->
  (forall sender, joinGame sender gid s = Err (GameNotFound gid)) /\
  (forall sender, startGame sender gid s = Err (GameNotFound gid)) /\
  (forall sender start0 start1,
     dealRound sender gid start0 start1 s = Err (GameNotFound gid)) /\
  (forall sender handIndex, playCard sender gid handIndex s = Err (GameNotFound gid)) /\
  getGameInfo gid s = Err (GameNotFound gid) /\
  (forall player, getHand gid player s = Err (GameNotFound gid)) /\
  getPlayedIndexes gid s = Err (GameNotFound gid) /\
  getResult gid s = Err (GameNotFound gid).
Proof.
  intros Hreach Hgid.
  assert (Hget : _getGame s gid = Err (GameNotFound gid)).
  { apply getGame_err. rewrite game_at_fresh; [reflexivity|].
    apply (ci_fresh s (reachable_inv s Hreach)). exact Hgid. }
  unfold joinGame, startGame, dealRound, playCard, getGameInfo, getHand,
    getPlayedIndexes, getResult.
  rewrite Hget. cbn [mbind Result_bind]. repeat split; reflexivity.
Qed.

Lemma unknown_id_not_found_witness :
  let s := run init sample_run in
  (forall sender, joinGame sender 1 s = Err (GameNotFound 1)) /\
  (forall sender, startGame sender 1 s = Err (GameNotFound 1)) /\
  (forall sender start0 start1,
     dealRound sender 1 start0 start1 s = Err (GameNotFound 1)) /\
  (forall sender handIndex, playCard sender 1 handIndex s = Err (GameNotFound 1)) /\
  getGameInfo 1 s = Err (GameNotFound 1) /\
  (forall player, getHand 1 player s = Err (GameNotFound 1)) /\
  getPlayedIndexes 1 s = Err (GameNotFound 1) /\
  getResult 1 s = Err (GameNotFound 1).
Proof.
  apply (unknown_id_not_found (run init sample_run) 1).
  - apply run_reachable; [apply reachable_init|reflexivity].
  - vm_compute. discriminate.
Defined.

(** ** What a game has recorded stays recorded *)

Section Extends.

Lemma game_extends_refl (g : Game) : game_extends g g.
Proof. unfold game_extends. repeat split; auto; lia. Qed.

Lemma game_extends_trans (g1 g2 g3 : Game) :
  game_extends g1 g2 -> game_extends g2 g3 -> game_extends g1 g3.
Proof.
  intros (As & Af & Ad & Ap0 & Ap1 & Ah & Apl0 & Apl1)
         (Bs & Bf & Bd & Bp0 & Bp1 & Bh & Bpl0 & Bpl1).
  unfold game_extends. repeat split; try (intros; auto; fail); try lia.
  - destruct (Ah i H) as [E _]. destruct (Bh i ltac:(lia)) as [E' _]. congruence.
  - destruct (Ah i H) as [_ E]. destruct (Bh i ltac:(lia)) as [_ E']. congruence.
  - destruct (Apl0 H) as [E _]. apply Bpl0. exact E.
  - destruct (Apl0 H) as [E F]. destruct (Bpl0 E) as [_ F']. congruence.
  - destruct (Apl1 H) as [E _]. apply Bpl1. exact E.
  - destruct (Apl1 H) as [E F]. destruct (Bpl1 E) as [_ F']. congruence.
Qed.

Lemma game_step_extends (gid : Z) (tx : Tx) (g g' : Game) :
  game_inv g -> game_step gid tx g g' -> game_extends g g'.
Proof.
  intros Hg Hstep. pose proof (game_step_flags gid tx g g' Hstep) as [Hs' Hf'].
  unfold game_extends. split; [exact Hs'|]. split; [exact Hf'|].
  destruct Hstep as [Hc -> | Hc Hp0 Hs Hp1 Hne | Hc Hp0 Hp1 Hs
                    | start0 start1 Hc Hp0 Hs Hf Hk d0 d1
                    | handIndex g2 Hc Hp0 Hs Hf Hk Hsender isP0 g1 Hnot Hfin].
  - cbn. repeat split; intros; try congruence; try lia.
  - cbn. repeat split; intros; try congruence; try lia.
  - destruct (gi_unstarted g Hg Hs) as (Hk0 & Hh0 & Hh1).
    cbn. repeat split; intros; try congruence; try lia.
  - clearbody d0 d1. cbn.
    repeat split; intros; try congruence; try lia;
      apply list_lookup_insert_ne; lia.
  - assert (Hg1 : game_extends g g1 /\ dealIndex g1 = dealIndex g).
    { subst g1. unfold record_play, game_extends. destruct isP0; cbn;
        repeat split; intros; try congruence; try lia. }
    destruct Hg1 as [(_ & _ & Ad & Ap0 & Ap1 & Ah & Apl0 & Apl1) Hk1].
    destruct (hasPlayed0 g1 && hasPlayed1 g1).
    + apply finishGame_ok in Hfin as (c0 & c1 & _ & _ & ->). cbn.
      repeat split; intros; try lia;
        try (apply Ap0; assumption); try (apply Ap1; assumption);
        try (apply Ah; assumption); try (apply Apl0; assumption);
        try (apply Apl1; assumption).
    + subst g2. repeat split; intros; try lia;
        try (apply Ap0; assumption); try (apply Ap1; assumption);
        try (apply Ah; assumption); try (apply Apl0; assumption);
        try (apply Apl1; assumption).
Qed.

Lemma exec_extends (s s' : Contract) (tx : Tx) (gid : Z) :
  contract_inv s -> exec s tx = Ok s' ->
  game_extends (game_at s gid) (game_at s' gid).
Proof.
  intros Hinv Hexec.
  destruct (exec_game_step s s' tx gid (ci_fresh s Hinv) Hexec) as [->|Hstep].
  - apply game_extends_refl.
  - apply (game_step_extends gid tx); [apply (ci_games s Hinv)|exact Hstep].
Qed.

Lemma run_extends (txs : list Tx) (gid : Z) :
  forall s, reachable s -> forallb valid_tx txs = true ->
    game_extends (game_at s gid) (game_at (run s txs) gid).
Proof.
  induction txs as [|tx txs IH]; intros s Hs Hvalid.
  - apply game_extends_refl.
  - cbn [forallb] in Hvalid. apply andb_true_iff in Hvalid as [Hv Hvs].
    change (run s (tx :: txs)) with (run (apply_tx s tx) txs).
    unfold apply_tx. destruct (exec s tx) as [s'|e] eqn:He.
    + eapply game_extends_trans.
      * apply (exec_extends s s' tx gid (reachable_inv s Hs) He).
      * apply IH; [eapply reachable_step; eassumption|exact Hvs].
    + apply IH; assumption.
Qed.

End Extends.

(** X7. A dealt card is written once: whatever valid transactions follow a
    reachable state, the entries of both hands below the deal counter keep
    their values (and the deal counter does not go down). *)
Theorem dealt_cards_write_once (s : Contract) (txs : list Tx) (gid : Z) :
  reachable s -> forallb valid_tx txs = true ->
  let g := game_at s gid in
  let g' := game_at (run s txs) gid in
  dealIndex g <= dealIndex g' /\
  forall i, 0 <= i < dealIndex g ->
    hand0 g' !! Z.to_nat i = hand0 g !! Z.to_nat i /\
    hand1 g' !! Z.to_nat i = hand1 g !! Z.to_nat i.
Proof.
  intros Hreach Hvalid g g'.
  destruct (run_extends txs gid s Hreach Hvalid) as (_ & _ & Hd & _ & _ & Hh & _).
  split; [exact Hd|]. intros i Hi. apply Hh. subst g. lia.
Qed.

Lemma dealt_cards_write_once_witness :
  let s := run init (sample_setup ++ sample_deals) in
  let g := game_at s 0 in
  let g' := game_at (run s sample_plays) 0 in
  dealIndex g <= dealIndex g' /\
  forall i, 0 <= i < dealIndex g ->
    hand0 g' !! Z.to_nat i = hand0 g !! Z.to_nat i /\
    hand1 g' !! Z.to_nat i = hand1 g !! Z.to_nat i.
Proof.
  apply (dealt_cards_write_once (run init (sample_setup ++ sample_deals)) sample_plays 0).
  - apply run_reachable; [apply reachable_init|reflexivity].
  - reflexivity.
Defined.

(** X8. The participants of a game are fixed: whatever valid transactions
    follow a reachable state, slot 0 and the creation time of an existing
    game, and slot 1 once it is occupied, keep their values. *)
Theorem participants_fixed (s : Contract) (txs : list Tx) (gid : Z) :
  reachable s -> forallb valid_tx txs = true ->
  let g := game_at s gid in
  let g' := game_at (run s txs) gid in
  (player0 g <> 0 -> player0 g' = player0 g /\ createdAt g' = createdAt g) /\
  (player1 g <> 0 -> player1 g' = player1 g).
Proof.
  intros Hreach Hvalid g g'.
  destruct (run_extends txs gid s Hreach Hvalid) as (_ & _ & _ & Hp0 & Hp1 & _).
  auto.
Qed.

Lemma participants_fixed_witness :
  let s := run init sample_setup in
  let g := game_at s 0 in
  let g' := game_at (run s (sample_deals ++ sample_plays)) 0 in
  (player0 g <> 0 -> player0 g' = player0 g /\ createdAt g' = createdAt g) /\
  (player1 g <> 0 -> player1 g' = player1 g).
Proof.
  apply (participants_fixed (run init sample_setup) (sample_deals ++ sample_plays) 0).
  - apply run_reachable; [apply reachable_init|reflexivity].
  - reflexivity.
Defined.

(** X9. A recorded play is final: whatever valid transactions follow a
    reachable state, a slot that has played stays played with the same hand
    index. *)
Theorem plays_write_once (s : Contract) (txs : list Tx) (gid : Z) :
  reachable s -> forallb valid_tx txs = true ->
  let g := game_at s gid in
  let g' := game_at (run s txs) gid in
  (hasPlayed0 g = true -> hasPlayed0 g' = true /\ playedIndex0 g' = playedIndex0 g) /\
  (hasPlayed1 g = true -> hasPlayed1 g' = true /\ playedIndex1 g' = playedIndex1 g).
Proof.
  intros Hreach Hvalid g g'.
  destruct (run_extends txs gid s Hreach Hvalid) as (_ & _ & _ & _ & _ & _ & H0 & H1).
  auto.
Qed.

Lemma plays_write_once_witness :
  let s := run init (sample_setup ++ sample_deals ++ [mkTx alice 10 (PlayCard 0 0)]) in
  let g := game_at s 0 in
  let g' := game_at (run s [mkTx alice 11 (PlayCard 0 4); mkTx bob 12 (PlayCard 0 3)]) 0 in
  (hasPlayed0 g = true -> hasPlayed0 g' = true /\ playedIndex0 g' = playedIndex0 g) /\
  (hasPlayed1 g = true -> hasPlayed1 g' = true /\ playedIndex1 g' = playedIndex1 g).
Proof.
  apply (plays_write_once
           (run init (sample_setup ++ sample_deals ++ [mkTx alice 10 (PlayCard 0 0)]))
           [mkTx alice 11 (PlayCard 0 4); mkTx bob 12 (PlayCard 0 3)] 0).
  - apply run_reachable; [apply reachable_init|reflexivity].
  - reflexivity.
Defined.

(** ** Sessions do not interfere *)

(** X10. A successful transaction writes the record of one game only: the
    game named in the call, or for [createGame] the game at [nextGameId];
    every other record is unchanged.  [startGame], [dealRound] and
    [playCard] also leave the id counter and the open list as they are. *)
Theorem exec_touches_one_game (s s' : Contract) (tx : Tx) :
  exec s tx = Ok s' ->
  (forall gid, gid <> touched s (call tx) -> game_at s' gid = game_at s gid) /\
  ((forall gid, call tx <> JoinGame gid) -> call tx <> CreateGame ->
   nextGameId s' = nextGameId s /\ getOpenGameIds s' = getOpenGameIds s).
Proof.
  intros Hexec. unfold exec in Hexec.
  destruct (call tx) as [|id|id|id start0 start1|id handIndex] eqn:Hc; cbn [touched].
  - destruct (createGame (sender tx) (timestamp tx) s) as [[s1 id]|] eqn:Hcr; [|discriminate].
    cbn in Hexec. injection Hexec as ->.
    apply createGame_ok in Hcr as (-> & _ & Hpush).
    apply pushOpen_frame in Hpush as (Hg & _).
    split; [|congruence].
    intros gid Hne. unfold game_at at 1. rewrite Hg.
    change (game_at (set_game (nextGameId s)
              (set_createdAt (timestamp tx)
                 (set_player0 (sender tx) (game_at s (nextGameId s))))
              (set_nextGameId (nextGameId s + 1) s)) gid = game_at s gid).
    rewrite game_at_set_game_ne by congruence. reflexivity.
  - apply joinGame_ok in Hexec as (_ & _ & _ & _ & Hrem).
    split; [|intros H; exfalso; apply (H id); reflexivity].
    intros gid Hne. rewrite (removeOpen_game_at _ gid _ _ Hrem).
    apply game_at_set_game_ne. congruence.
  - apply startGame_ok in Hexec as (_ & _ & _ & _ & ->).
    split; [|intros _ _; split; reflexivity].
    intros gid Hne. apply game_at_set_game_ne. congruence.
  - apply dealRound_ok in Hexec as (_ & _ & _ & _ & _ & _ & _ & ->).
    split; [|intros _ _; split; reflexivity].
    intros gid Hne. apply game_at_set_game_ne. congruence.
  - apply playCard_ok in Hexec as (_ & _ & _ & _ & _ & _ & _ & g2 & _ & ->).
    split; [|intros _ _; split; reflexivity].
    intros gid Hne. apply game_at_set_game_ne. congruence.
Qed.

Lemma exec_touches_one_game_witness :
  let s := run init [mkTx alice 1 CreateGame; mkTx carol 2 CreateGame;
                     mkTx bob 3 (JoinGame 0)] in
  let tx := mkTx alice 4 (StartGame 0) in
  let s' := apply_tx s tx in
  (forall gid, gid <> touched s (call tx) -> game_at s' gid = game_at s gid) /\
  ((forall gid, call tx <> JoinGame gid) -> call tx <> CreateGame ->
   nextGameId s' = nextGameId s /\ getOpenGameIds s' = getOpenGameIds s).
Proof.
  apply (exec_touches_one_game
           (run init [mkTx alice 1 CreateGame; mkTx carol 2 CreateGame;
                      mkTx bob 3 (JoinGame 0)])
           (apply_tx (run init [mkTx alice 1 CreateGame; mkTx carol 2 CreateGame;
                                mkTx bob 3 (JoinGame 0)]) (mkTx alice 4 (StartGame 0)))
           (mkTx alice 4 (StartGame 0))).
  vm_compute. reflexivity.
Defined.

(** ** The result of a finished game *)

Section Result.

Lemma game_step_result_of_played (gid : Z) (tx : Tx) (g g' : Game) :
  game_inv g -> game_step gid tx g g' -> result_of_played g'.
Proof.
  intros Hg Hstep Hf'.
  pose proof (game_step_not_finished gid tx g g' Hg Hstep) as Hf.
  destruct Hstep as [Hc -> | Hc Hp0 Hs Hp1 Hne | Hc Hp0 Hp1 Hs
                    | start0 start1 Hc Hp0 Hs Hf0 Hk d0 d1
                    | handIndex g2 Hc Hp0 Hs Hf0 Hk Hsender isP0 g1 Hnot Hfin];
    try (cbn in Hf'; congruence).
  assert (Hf1 : finished g1 = false)
    by (subst g1; unfold record_play; destruct isP0; exact Hf).
  destruct (hasPlayed0 g1 && hasPlayed1 g1).
  - apply finishGame_ok in Hfin as (c0 & c1 & H0 & H1 & ->).
    exists c0, c1. cbn. auto.
  - subst g2. congruence.
Qed.

Lemma reachable_result_of_played (s : Contract) :
  reachable s -> forall gid, result_of_played (game_at s gid).
Proof.
  induction 1 as [|s tx s' Hreach IH Hvalid Hexec]; intros gid.
  - intros Hf. cbn in Hf. discriminate.
  - pose proof (reachable_inv s Hreach) as Hinv.
    destruct (exec_game_step s s' tx gid (ci_fresh s Hinv) Hexec) as [->|Hstep].
    + apply IH.
    + apply (game_step_result_of_played gid tx (game_at s gid));
        [apply (ci_games s Hinv)|exact Hstep].
Qed.

End Result.

(** X11. In every reachable state the result of a finished game is the
    comparison of the two cards at the played hand positions, and these are
    two different cards of the deck; an existing game that is not finished
    has no result yet. *)
Theorem finished_result_compares_played_cards (s : Contract) (gid : Z) :
  reachable s ->
  let g := game_at s gid in
  player0 g <> 0 ->
  (finished g = false -> getResult gid s = Ok None) /\
  (finished g = true ->
   exists c0 c1,
     hand0 g !! Z.to_nat (playedIndex0 g) = Some c0 /\
     hand1 g !! Z.to_nat (playedIndex1 g) = Some c1 /\
     getResult gid s = Ok (Some (showdown c0 c1)) /\
     in_deck c0 /\ in_deck c1 /\ c0 <> c1).
Proof.
  intros Hreach g Hp0.
  pose proof (ci_games s (reachable_inv s Hreach) gid) as Hg. fold g in Hg.
  unfold getResult. rewrite (getGame_found s gid Hp0). cbn [mbind Result_bind]. fold g.
  split.
  - intros Hf. destruct (p0Wins g) eqn:E; [|reflexivity].
    assert (finished g = true) by (apply (gi_result g Hg); rewrite E; eauto).
    congruence.
  - intros Hf.
    destruct (reachable_result_of_played s Hreach gid Hf) as (c0 & c1 & H0 & H1 & Hr).
    fold g in H0, H1, Hr.
    exists c0, c1. split; [exact H0|]. split; [exact H1|]. split; [rewrite Hr; reflexivity|].
    pose proof (finished_dealt g Hg Hf) as Hk.
    assert (Hd0 : dealt0 g = hand0 g).
    { unfold dealt0. apply take_ge. rewrite (gi_len0 g Hg), Hk. unfold HAND_SIZE. lia. }
    assert (Hd1 : dealt1 g = hand1 g).
    { unfold dealt1. apply take_ge. rewrite (gi_len1 g Hg), Hk. unfold HAND_SIZE. lia. }
    assert (Hin0 : c0 ∈ dealt0 g) by (rewrite Hd0; eapply list_elem_of_lookup_2; exact H0).
    assert (Hin1 : c1 ∈ dealt1 g) by (rewrite Hd1; eapply list_elem_of_lookup_2; exact H1).
    pose proof (gi_deck g Hg) as Hdeck. unfold dealt in Hdeck.
    rewrite Forall_forall in Hdeck.
    split; [apply Hdeck, elem_of_app; auto|]. split; [apply Hdeck, elem_of_app; auto|].
    pose proof (gi_nodup g Hg) as Hnd. unfold dealt in Hnd.
    apply NoDup_app in Hnd as (_ & Hdisj & _).
    intros ->. apply (Hdisj c1 Hin0 Hin1).
Qed.

Lemma finished_result_compares_played_cards_witness :
  let s := run init sample_run in
  let g := game_at s 0 in
  (finished g = false -> getResult 0 s = Ok None) /\
  (finished g = true ->
   exists c0 c1,
     hand0 g !! Z.to_nat (playedIndex0 g) = Some c0 /\
     hand1 g !! Z.to_nat (playedIndex1 g) = Some c1 /\
     getResult 0 s = Ok (Some (showdown c0 c1)) /\
     in_deck c0 /\ in_deck c1 /\ c0 <> c1).
Proof.
  apply (finished_result_compares_played_cards (run init sample_run) 0).
  - apply run_reachable; [apply reachable_init|reflexivity].
  - vm_compute. discriminate.
Defined.

(** ** Counting the calls that succeed *)

Section Counting.

(** A quantity that every successful transaction changes by the weight of
    its call grows along a run by the sum of the weights of the successes. *)
Lemma successes_telescope (weight : Call -> Z) (F : Contract -> Z) :
  (forall s tx s', reachable s -> exec s tx = Ok s' -> F s' = F s + weight (call tx)) ->
  forall txs s, reachable s -> forallb valid_tx txs = true ->
    successes weight s txs = F (run s txs) - F s.
Proof.
  intros Hstep. induction txs as [|tx txs IH]; intros s Hs Hvalid.
  - cbn. lia.
  - cbn [forallb] in Hvalid. apply andb_true_iff in Hvalid as [Hv Hvs].
    change (run s (tx :: txs)) with (run (apply_tx s tx) txs).
    cbn [successes]. unfold apply_tx.
    destruct (exec s tx) as [s'|e] eqn:He.
    + rewrite (IH s' (reachable_step s tx s' Hs Hv He) Hvs).
      rewrite (Hstep s tx s' Hs He). lia.
    + rewrite (IH s Hs Hvs). lia.
Qed.

Lemma exec_nextGameId (s s' : Contract) (tx : Tx) :
  exec s tx = Ok s' -> nextGameId s' = nextGameId s + create_on (call tx).
Proof.
  intros Hexec. unfold exec in Hexec.
  destruct (call tx) as [|id|id|id start0 start1|id handIndex] eqn:Hc; cbn [create_on].
  - destruct (createGame (sender tx) (timestamp tx) s) as [[s1 id]|] eqn:Hcr; [|discriminate].
    cbn in Hexec. injection Hexec as ->.
    apply createGame_ok in Hcr as (-> & _ & Hpush).
    apply pushOpen_frame in Hpush as (_ & Hn & _). rewrite Hn. reflexivity.
  - apply joinGame_ok in Hexec as (_ & _ & _ & _ & Hrem).
    apply removeOpen_frame in Hrem as [_ Hn]. rewrite Hn. cbn. lia.
  - apply startGame_ok in Hexec as (_ & _ & _ & _ & ->). cbn. lia.
  - apply dealRound_ok in Hexec as (_ & _ & _ & _ & _ & _ & _ & ->). cbn. lia.
  - apply playCard_ok in Hexec as (_ & _ & _ & _ & _ & _ & _ & g2 & _ & ->). cbn. lia.
Qed.

Lemma exec_started (s s' : Contract) (tx : Tx) (gid : Z) :
  contract_inv s -> exec s tx = Ok s' ->
  Z.b2z (started (game_at s' gid)) =
  Z.b2z (started (game_at s gid)) + start_on gid (call tx).
Proof.
  intros Hinv Hexec.
  destruct (exec_game_step s s' tx gid (ci_fresh s Hinv) Hexec) as [Heq|Hstep].
  - rewrite Heq. unfold exec in Hexec.
    destruct (call tx) as [|id|id|id start0 start1|id handIndex] eqn:Hc;
      cbn [start_on]; try lia.
    destruct (Z.eqb_spec id gid) as [->|Hne]; [|lia].
    apply startGame_ok in Hexec as (_ & _ & Hs & _ & ->).
    rewrite game_at_set_game_eq in Heq.
    apply (f_equal started) in Heq. cbn in Heq. congruence.
  - destruct Hstep as [Hc -> | Hc Hp0 Hs Hp1 Hne | Hc Hp0 Hp1 Hs
                      | start0 start1 Hc Hp0 Hs Hf Hk d0 d1
                      | handIndex g2 Hc Hp0 Hs Hf Hk Hsender isP0 g1 Hnot Hfin];
      rewrite Hc; cbn [start_on].
    + cbn. lia.
    + cbn. lia.
    + rewrite Z.eqb_refl, Hs. cbn. lia.
    + cbn. lia.
    + assert (Hs1 : started g1 = started (game_at s gid))
        by (subst g1; unfold record_play; destruct isP0; reflexivity).
      destruct (hasPlayed0 g1 && hasPlayed1 g1).
      * apply finishGame_ok in Hfin as (c0 & c1 & _ & _ & ->). cbn. rewrite Hs1. lia.
      * subst g2. rewrite Hs1. lia.
Qed.

Lemma record_play_count (isP0 : bool) (handIndex : Z) (g : Game) :
  (if isP0 then hasPlayed0 g = false else hasPlayed1 g = false) ->
  plays_recorded (record_play isP0 handIndex g) = plays_recorded g + 1.
Proof.
  intros Hnot. unfold plays_recorded, record_play.
  destruct isP0; cbn; rewrite Hnot; cbn; lia.
Qed.

Lemma exec_plays (s s' : Contract) (tx : Tx) (gid : Z) :
  contract_inv s -> exec s tx = Ok s' ->
  plays_recorded (game_at s' gid) = plays_recorded (game_at s gid) + play_on gid (call tx).
Proof.
  intros Hinv Hexec.
  destruct (exec_game_step s s' tx gid (ci_fresh s Hinv) Hexec) as [Heq|Hstep].
  - rewrite Heq. unfold exec in Hexec.
    destruct (call tx) as [|id|id|id start0 start1|id handIndex] eqn:Hc;
      cbn [play_on]; try lia.
    destruct (Z.eqb_spec id gid) as [->|Hne]; [|lia].
    apply playCard_ok in Hexec as (_ & _ & _ & _ & _ & _ & Hnot & g2 & Hfin & ->).
    rewrite game_at_set_game_eq in Heq.
    pose proof (record_play_count _ handIndex _ Hnot) as Hcount.
    assert (Hg2 : plays_recorded g2 =
                  plays_recorded (record_play (sender tx =? player0 (game_at s gid))
                                    handIndex (game_at s gid))).
    { destruct (hasPlayed0 _ && hasPlayed1 _).
      - apply finishGame_ok in Hfin as (c0 & c1 & _ & _ & ->). reflexivity.
      - subst g2. reflexivity. }
    rewrite Heq in Hg2. lia.
  - destruct Hstep as [Hc -> | Hc Hp0 Hs Hp1 Hne | Hc Hp0 Hp1 Hs
                      | start0 start1 Hc Hp0 Hs Hf Hk d0 d1
                      | handIndex g2 Hc Hp0 Hs Hf Hk Hsender isP0 g1 Hnot Hfin];
      rewrite Hc; cbn [play_on]; try (unfold plays_recorded; cbn; lia).
    rewrite Z.eqb_refl.
    pose proof (record_play_count isP0 handIndex _ Hnot) as Hcount. fold g1 in Hcount.
    destruct (hasPlayed0 g1 && hasPlayed1 g1).
    + apply finishGame_ok in Hfin as (c0 & c1 & _ & _ & ->).
      unfold plays_recorded in *. cbn. lia.
    + subst g2. exact Hcount.
Qed.

End Counting.

(** X12. Game ids are handed out in sequence: along every run from the
    deployed contract [nextGameId] is the number of [createGame] calls that
    have succeeded, every existing game has an id below it, and the next
    successful [createGame] returns that number and increments the counter. *)
Theorem game_ids_sequential (txs : list Tx) :
  forallb valid_tx txs = true ->
  let s := run init txs in
  let n := successes create_on init txs in
  nextGameId s = n /\
  (forall gid, player0 (game_at s gid) <> 0 -> gid < n) /\
  (forall sender timestamp s' gid,
     createGame sender timestamp s = Ok (s', gid) -> gid = n /\ nextGameId s' = n + 1).
Proof.
  intros Hvalid s n.
  pose proof (run_reachable txs init reachable_init Hvalid) as Hreach. fold s in Hreach.
  assert (Hn : nextGameId s = n).
  { subst n s.
    rewrite (successes_telescope create_on nextGameId
               (fun s tx s' _ He => exec_nextGameId s s' tx He) txs init reachable_init Hvalid).
    cbn. lia. }
  split; [exact Hn|]. split.
  - intros gid Hp0. rewrite <- Hn.
    apply (existing_lt_next s gid (reachable_inv s Hreach) Hp0).
  - intros sender timestamp s' gid Hcr.
    apply createGame_ok in Hcr as (-> & _ & Hpush).
    apply pushOpen_frame in Hpush as (_ & Hn' & _).
    split; [exact Hn|]. rewrite Hn'. cbn. lia.
Qed.

Lemma game_ids_sequential_witness :
  let s := run init sample_run in
  let n := successes create_on init sample_run in
  nextGameId s = n /\
  (forall gid, player0 (game_at s gid) <> 0 -> gid < n) /\
  (forall sender timestamp s' gid,
     createGame sender timestamp s = Ok (s', gid) -> gid = n /\ nextGameId s' = n + 1).
Proof.
  apply (game_ids_sequential sample_run). reflexivity.
Defined.

(** X13. Along every run from the deployed contract, [startGame] succeeds
    at most once on a game (exactly once if and only if the game is
    started) and [playCard] at most twice: the number of successful plays
    is the number of slots that have played, and the game is finished
    exactly when it is 2. *)
Theorem starts_and_plays_counted (txs : list Tx) (gid : Z) :
  forallb valid_tx txs = true ->
  let g := game_at (run init txs) gid in
  successes (start_on gid) init txs = Z.b2z (started g) /\
  successes (play_on gid) init txs = plays_recorded g /\
  0 <= successes (play_on gid) init txs <= 2 /\
  (finished g = true <-> successes (play_on gid) init txs = 2).
Proof.
  intros Hvalid g.
  pose proof (run_reachable txs init reachable_init Hvalid) as Hreach.
  pose proof (ci_games _ (reachable_inv _ Hreach) gid) as Hg. fold g in Hg.
  assert (Hstarts : successes (start_on gid) init txs = Z.b2z (started g)).
  { rewrite (successes_telescope (start_on gid)
               (fun s => Z.b2z (started (game_at s gid)))
               (fun s tx s' Hs He => exec_started s s' tx gid (reachable_inv s Hs) He)
               txs init reachable_init Hvalid).
    change (started (game_at init gid)) with false. subst g. cbn [Z.b2z]. lia. }
  assert (Hplays : successes (play_on gid) init txs = plays_recorded g).
  { rewrite (successes_telescope (play_on gid)
               (fun s => plays_recorded (game_at s gid))
               (fun s tx s' Hs He => exec_plays s s' tx gid (reachable_inv s Hs) He)
               txs init reachable_init Hvalid).
    change (plays_recorded (game_at init gid)) with 0. subst g. lia. }
  split; [exact Hstarts|]. split; [exact Hplays|].
  rewrite Hplays, (gi_finished g Hg). unfold plays_recorded.
  destruct (hasPlayed0 g), (hasPlayed1 g); cbn; split; try lia; split; intros; try lia;
    try reflexivity; discriminate.
Qed.

Lemma starts_and_plays_counted_witness :
  let g := game_at (run init sample_run) 0 in
  successes (start_on 0) init sample_run = Z.b2z (started g) /\
  successes (play_on 0) init sample_run = plays_recorded g /\
  0 <= successes (play_on 0) init sample_run <= 2 /\
  (finished g = true <-> successes (play_on 0) init sample_run = 2).
Proof.
  apply (starts_and_plays_counted sample_run 0). reflexivity.
Defined.

(** ** States reached by transactions of the chain *)

Section WellFormed.

Lemma wf_tx_valid (tx : Tx) : wf_tx tx = true -> valid_tx tx = true.
Proof.
  unfold wf_tx. intros H. apply andb_true_iff in H as [H _].
  apply andb_true_iff in H as [H _]. exact H.
Qed.

Lemma wf_tx_sender (tx : Tx) : wf_tx tx = true -> sender tx <> 0.
Proof.
  unfold wf_tx. intros H. apply andb_true_iff in H as [H _].
  apply andb_true_iff in H as [_ H]. zbool. exact H.
Qed.

Lemma reachable_wf_reachable (s : Contract) : reachable_wf s -> reachable s.
Proof.
  induction 1 as [|s tx s' _ IH Hwf Hexec].
  - apply reachable_init.
  - eapply reachable_step; [exact IH|apply wf_tx_valid; exact Hwf|exact Hexec].
Qed.

Lemma run_reachable_wf (txs : list Tx) :
  forall s, reachable_wf s -> forallb wf_tx txs = true -> reachable_wf (run s txs).
Proof.
  induction txs as [|tx txs IH]; intros s Hs Hwf; cbn in *; [exact Hs|].
  apply andb_true_iff in Hwf as [Hv Hvs].
  apply IH; [|exact Hvs]. unfold apply_tx.
  destruct (exec s tx) as [s'|e] eqn:He; [|exact Hs].
  eapply reachable_wf_step; eassumption.
Qed.

(** Removing an id leaves the other ids indexed or not as they were. *)
Lemma removeOpen_index_other (gid x : Z) (s s' : Contract) :
  open_index_ok s -> _removeOpen gid s = Ok s' -> x <> gid ->
  (open_index_at s' x = 0 <-> open_index_at s x = 0).
Proof.
  intros [Hfwd Hbwd] Hrem Hne. unfold _removeOpen in Hrem.
  destruct (Z.eqb_spec (open_index_at s gid) 0) as [Hz|Hnz].
  { injection Hrem as <-. reflexivity. }
  destruct (Hbwd gid Hnz) as [Hp _].
  destruct (checked_sub (open_index_at s gid) 1) as [idx|] eqn:E1; [|discriminate].
  apply checked_sub_ok in E1 as [_ ->]. cbn [mbind Result_bind] in Hrem.
  destruct (checked_sub (Z.of_nat (length (_openGameIds s))) 1) as [lastIdx|] eqn:E2;
    [|discriminate].
  apply checked_sub_ok in E2 as [Hlen ->]. cbn [mbind Result_bind] in Hrem.
  destruct (negb (open_index_at s gid - 1 =? Z.of_nat (length (_openGameIds s)) - 1)).
  - destruct (array_get (_openGameIds s) (Z.of_nat (length (_openGameIds s)) - 1))
      as [moved|] eqn:E3; [|discriminate].
    apply array_get_ok in E3 as [_ E3]. cbn [mbind Result_bind] in Hrem.
    destruct (array_set (_openGameIds s) (open_index_at s gid - 1) moved)
      as [ids|] eqn:E4; [|discriminate].
    cbn [mbind Result_bind] in Hrem.
    destruct (checked_add MAX_UINT256 (open_index_at s gid - 1) 1) as [idx1|] eqn:E5;
      [|discriminate].
    apply checked_add_ok in E5 as [_ ->]. cbn [mbind Result_bind] in Hrem.
    destruct (array_pop _) as [ids2|] eqn:E6; [|discriminate].
    cbn [mbind Result_bind] in Hrem. injection Hrem as <-.
    rewrite open_index_at_set. destruct (decide (gid = x)); [congruence|].
    change (open_index_at (set_openGameIds ?l ?t) x) with (open_index_at t x).
    rewrite open_index_at_set. destruct (decide (moved = x)) as [<-|]; [|reflexivity].
    apply Hfwd in E3. split; lia.
  - cbn [mbind Result_bind] in Hrem.
    destruct (array_pop _) as [ids2|] eqn:E6; [|discriminate].
    cbn [mbind Result_bind] in Hrem. injection Hrem as <-.
    rewrite open_index_at_set. destruct (decide (gid = x)); [congruence|]. reflexivity.
Qed.

(** Removing an id removes that id from the open list and nothing else. *)
Lemma removeOpen_members (gid : Z) (s s' : Contract) :
  open_index_ok s -> Z.of_nat (length (_openGameIds s)) <= MAX_UINT256 ->
  _removeOpen gid s = Ok s' ->
  forall x, x ∈ _openGameIds s' <-> x ∈ _openGameIds s /\ x <> gid.
Proof.
  intros Hok Hmax Hrem x.
  destruct (removeOpen_ok gid s Hok Hmax) as (s2 & Hrem2 & Hok' & Hz & _).
  rewrite Hrem in Hrem2. injection Hrem2 as <-.
  destruct (Z.eq_dec x gid) as [->|Hne].
  - split; [|tauto]. intros Hin. exfalso.
    apply (proj1 (open_absent_iff gid s' Hok') Hz Hin).
  - pose proof (removeOpen_index_other gid x s s' Hok Hrem Hne) as Hidx.
    pose proof (open_absent_iff x s Hok) as H1.
    pose proof (open_absent_iff x s' Hok') as H2.
    split.
    + intros Hin. split; [|exact Hne].
      destruct (decide (x ∈ _openGameIds s)) as [|Hnot]; [assumption|].
      exfalso. apply H1 in Hnot. apply Hidx in Hnot. apply H2 in Hnot. contradiction.
    + intros [Hin _].
      destruct (decide (x ∈ _openGameIds s')) as [|Hnot]; [assumption|].
      exfalso. apply H2 in Hnot. apply Hidx in Hnot. apply H1 in Hnot. contradiction.
Qed.

Lemma wf_inv_init : wf_inv init.
Proof.
  split.
  - cbn. intros gid H. lia.
  - intros gid. cbn. split; [intros H; inversion H|intros [H _]; lia].
  - intros gid. split; intros H; cbn in H; discriminate.
Qed.

Lemma set_game_wf_inv (s : Contract) (id : Z) (g' : Game) :
  wf_inv s ->
  player0 g' = player0 (game_at s id) -> player1 g' = player1 (game_at s id) ->
  played_in_hand g' ->
  wf_inv (set_game id g' s).
Proof.
  intros [Hex Hopen Hpl] Hp0 Hp1 Hpl'. split.
  - intros gid Hgid. cbn [nextGameId set_game] in Hgid. rewrite game_at_set_game.
    destruct (decide (id = gid)) as [<-|]; [rewrite Hp0|]; apply Hex; exact Hgid.
  - intros gid. cbn [nextGameId _openGameIds set_game]. rewrite game_at_set_game.
    destruct (decide (id = gid)) as [<-|]; [rewrite Hp1|]; apply Hopen.
  - intros gid. rewrite game_at_set_game.
    destruct (decide (id = gid)); [exact Hpl'|apply Hpl].
Qed.

Lemma exec_wf_inv (s s' : Contract) (tx : Tx) :
  contract_inv s -> wf_inv s -> wf_tx tx = true -> exec s tx = Ok s' -> wf_inv s'.
Proof.
  intros Hinv Hwi Hwf Hexec. pose proof (wf_tx_sender tx Hwf) as Hsender.
  unfold exec in Hexec.
  destruct (call tx) as [|id|id|id start0 start1|id handIndex] eqn:Hc.
  - (* createGame *)
    destruct (createGame (sender tx) (timestamp tx) s) as [[s1 id]|] eqn:Hcr; [|discriminate].
    cbn in Hexec. injection Hexec as ->.
    apply createGame_ok in Hcr as (-> & _ & Hpush).
    apply pushOpen_frame in Hpush as (Hg & Hn & Hids & _).
    cbn [nextGameId _games set_game set_nextGameId] in Hg, Hn.
    cbn [_openGameIds set_game set_nextGameId] in Hids.
    change (game_at (set_nextGameId (nextGameId s + 1) s) (nextGameId s))
      with (game_at s (nextGameId s)) in Hg.
    rewrite (game_at_fresh s (nextGameId s)) in Hg by (apply (ci_fresh s Hinv); lia).
    assert (Hat : forall x, game_at s' x =
              if decide (nextGameId s = x)
              then set_createdAt (timestamp tx) (set_player0 (sender tx) empty_game)
              else game_at s x).
    { intros x. unfold game_at at 1. rewrite Hg, lookup_insert.
      destruct (decide (nextGameId s = x)); reflexivity. }
    pose proof (ci_next s Hinv) as Hnext.
    destruct Hwi as [Hex Hopen Hpl]. split.
    + intros gid Hgid. rewrite Hn in Hgid. rewrite Hat.
      destruct (decide (nextGameId s = gid)); [exact Hsender|]. apply Hex. lia.
    + intros gid. rewrite Hids, Hn, Hat, elem_of_app, list_elem_of_singleton, Hopen.
      destruct (decide (nextGameId s = gid)) as [<-|Hne]; cbn; split; intros; lia.
    + intros gid. rewrite Hat. destruct (decide (nextGameId s = gid)); [|apply Hpl].
      split; intros H; cbn in H; discriminate.
  - (* joinGame *)
    apply joinGame_ok in Hexec as (Hp0 & Hs & Hp1 & Hne & Hrem).
    pose proof (removeOpen_frame _ _ _ Hrem) as [Hg Hn].
    cbn [nextGameId set_game] in Hn.
    assert (Hat : forall x, game_at s' x =
              if decide (id = x) then set_player1 (sender tx) (game_at s id)
              else game_at s x).
    { intros x. rewrite (removeOpen_game_at _ x _ _ Hrem). apply game_at_set_game. }
    pose proof (removeOpen_members id
                  (set_game id (set_player1 (sender tx) (game_at s id)) s) s'
                  (ci_open s Hinv)
                  ltac:(cbn; pose proof (ci_open_len s Hinv);
                        pose proof (ci_next s Hinv); lia) Hrem) as Hmem.
    cbn [_openGameIds set_game] in Hmem.
    destruct Hwi as [Hex Hopen Hpl]. split.
    + intros gid Hgid. rewrite Hn in Hgid. rewrite Hat.
      destruct (decide (id = gid)) as [<-|]; [exact Hp0|]. apply Hex. exact Hgid.
    + intros gid. rewrite Hmem, Hn, Hat, Hopen.
      destruct (decide (id = gid)) as [<-|Hneq]; cbn; split; intros H; try tauto.
      split; [exact H|congruence].
    + intros gid. rewrite Hat. destruct (decide (id = gid)) as [<-|]; [|apply Hpl].
      apply (Hpl id).
  - (* startGame *)
    apply startGame_ok in Hexec as (_ & _ & _ & _ & ->).
    apply set_game_wf_inv; [exact Hwi|reflexivity|reflexivity|].
    apply (wi_played s Hwi id).
  - (* dealRound *)
    apply dealRound_ok in Hexec as (_ & _ & _ & _ & _ & _ & _ & ->).
    apply set_game_wf_inv; [exact Hwi|reflexivity|reflexivity|].
    apply (wi_played s Hwi id).
  - (* playCard *)
    apply playCard_ok in Hexec
      as (_ & _ & _ & _ & Hidx & _ & Hnot & g2 & Hfin & ->).
    assert (Hh : 0 <= handIndex).
    { unfold wf_tx in Hwf. rewrite Hc in Hwf. zbool. assumption. }
    set (g := game_at s id) in *. set (isP0 := sender tx =? player0 g) in *.
    destruct (wi_played s Hwi id) as [Hq0 Hq1]. fold g in Hq0, Hq1.
    assert (Hg1 : player0 (record_play isP0 handIndex g) = player0 g /\
                  player1 (record_play isP0 handIndex g) = player1 g /\
                  played_in_hand (record_play isP0 handIndex g)).
    { unfold record_play, played_in_hand, HAND_SIZE in *.
      destruct isP0; cbn; repeat split; auto;
        first [lia | destruct (Hq0 ltac:(assumption)); lia
              | destruct (Hq1 ltac:(assumption)); lia]. }
    destruct Hg1 as (E0 & E1 & Hq).
    destruct (hasPlayed0 _ && hasPlayed1 _).
    + apply finishGame_ok in Hfin as (c0 & c1 & _ & _ & ->).
      apply set_game_wf_inv; [exact Hwi|exact E0|exact E1|exact Hq].
    + subst g2. apply set_game_wf_inv; [exact Hwi|exact E0|exact E1|exact Hq].
Qed.

Lemma reachable_wf_inv (s : Contract) : reachable_wf s -> wf_inv s.
Proof.
  induction 1 as [|s tx s' Hreach IH Hwf Hexec].
  - apply wf_inv_init.
  - apply (exec_wf_inv s s' tx); try assumption.
    apply reachable_inv, reachable_wf_reachable. exact Hreach.
Qed.

End WellFormed.

(** ** The open list *)

(** X14. In every reachable state the open list has no duplicates and the
    index mapping is its inverse: position [i] of the list holds [gid]
    exactly when [_openIndexPlusOne] maps [gid] to [i + 1]. *)
Theorem open_list_indexed (s : Contract) :
  reachable s ->
  NoDup (getOpenGameIds s) /\
  (forall (i : nat) gid,
     getOpenGameIds s !! i = Some gid <-> open_index_at s gid = Z.of_nat i + 1).
Proof.
  intros Hreach. destruct (ci_open s (reachable_inv s Hreach)) as [Hfwd Hbwd].
  unfold getOpenGameIds. split.
  - apply NoDup_alt. intros i j x Hi Hj.
    apply Hfwd in Hi. apply Hfwd in Hj. lia.
  - intros i gid. split; [apply Hfwd|].
    intros Hidx. destruct (Hbwd gid ltac:(lia)) as [_ Hl].
    rewrite Hidx in Hl. replace (Z.to_nat (Z.of_nat i + 1 - 1)) with i in Hl by lia.
    exact Hl.
Qed.

Lemma open_list_indexed_witness :
  let s := run init [mkTx alice 1 CreateGame; mkTx carol 2 CreateGame;
                     mkTx bob 3 (JoinGame 0)] in
  NoDup (getOpenGameIds s) /\
  (forall (i : nat) gid,
     getOpenGameIds s !! i = Some gid <-> open_index_at s gid = Z.of_nat i + 1).
Proof.
  apply (open_list_indexed
           (run init [mkTx alice 1 CreateGame; mkTx carol 2 CreateGame;
                      mkTx bob 3 (JoinGame 0)])).
  apply run_reachable; [apply reachable_init|reflexivity].
Defined.

(** X15. In every state reached by transactions with non-zero senders,
    [getOpenGameIds] lists exactly the created games whose slot 1 is empty;
    each listed game exists, is not started, and can be joined by every
    address other than its creator. *)
Theorem open_list_exact (s : Contract) :
  reachable_wf s ->
  (forall gid,
     gid ∈ getOpenGameIds s <->
     0 <= gid < nextGameId s /\ player1 (game_at s gid) = 0) /\
  (forall gid,
     gid ∈ getOpenGameIds s ->
     player0 (game_at s gid) <> 0 /\ started (game_at s gid) = false /\
     forall sender, sender <> player0 (game_at s gid) ->
       exists s', joinGame sender gid s = Ok s').
Proof.
  intros Hwf. pose proof (reachable_wf_reachable s Hwf) as Hreach.
  pose proof (reachable_inv s Hreach) as Hinv.
  pose proof (reachable_wf_inv s Hwf) as [Hex Hopen Hpl].
  unfold getOpenGameIds. split; [exact Hopen|].
  intros gid Hin. apply Hopen in Hin as [Hgid Hp1].
  pose proof (Hex gid Hgid) as Hp0.
  assert (Hs : started (game_at s gid) = false).
  { destruct (started (game_at s gid)) eqn:E; [|reflexivity].
    destruct (gi_started _ (ci_games s Hinv gid) E) as [_ H]. contradiction. }
  split; [exact Hp0|]. split; [exact Hs|].
  intros sender Hne.
  destruct (join_removeOpen s sender gid Hinv) as (s' & Hrem & _).
  exists s'. unfold joinGame. rewrite (getGame_found s gid Hp0).
  cbn [mbind Result_bind]. rewrite Hs, Hp1. cbn [Z.eqb negb].
  destruct (Z.eqb_spec (player0 (game_at s gid)) 0); [contradiction|].
  destruct (Z.eqb_spec (player0 (game_at s gid)) sender); [congruence|]. exact Hrem.
Qed.

Lemma open_list_exact_witness :
  let s := run init [mkTx alice 1 CreateGame; mkTx carol 2 CreateGame;
                     mkTx bob 3 (JoinGame 0)] in
  (forall gid,
     gid ∈ getOpenGameIds s <->
     0 <= gid < nextGameId s /\ player1 (game_at s gid) = 0) /\
  (forall gid,
     gid ∈ getOpenGameIds s ->
     player0 (game_at s gid) <> 0 /\ started (game_at s gid) = false /\
     forall sender, sender <> player0 (game_at s gid) ->
       exists s', joinGame sender gid s = Ok s').
Proof.
  apply (open_list_exact
           (run init [mkTx alice 1 CreateGame; mkTx carol 2 CreateGame;
                      mkTx bob 3 (JoinGame 0)])).
  apply run_reachable_wf; [apply reachable_wf_init|reflexivity].
Defined.

(** ** When the operations succeed *)

Section Operations.

Lemma startGame_result (s : Contract) (sender gid : Z) :
  let g := game_at s gid in
  player0 g <> 0 -> started g = false -> player1 g <> 0 ->
  sender = player0 g \/ sender = player1 g ->
  startGame sender gid s =
  Ok (set_game gid (set_usedMask 0 (set_dealIndex 0 (set_started true g))) s).
Proof.
  intros g Hp0 Hs Hp1 Hsender. unfold startGame.
  rewrite (getGame_found s gid Hp0). cbn [mbind Result_bind]. fold g. rewrite Hs.
  destruct (Z.eqb_spec (player0 g) 0); [contradiction|].
  destruct (Z.eqb_spec (player1 g) 0); [contradiction|]. cbn [orb].
  destruct (Z.eqb_spec sender (player0 g)), (Z.eqb_spec sender (player1 g));
    cbn [negb andb]; try reflexivity.
  destruct Hsender; contradiction.
Qed.

Lemma dealRound_result (s : Contract) (sender gid start0 start1 : Z) :
  let g := game_at s gid in
  game_inv g ->
  player0 g <> 0 -> started g = true -> finished g = false ->
  dealIndex g < HAND_SIZE ->
  sender = player0 g \/ sender = player1 g ->
  dealRound sender gid start0 start1 s = Ok (set_game gid (dealt_round start0 start1 g) s).
Proof.
  intros g Hg Hp0 Hs Hf Hk Hsender. unfold dealRound.
  rewrite (getGame_found s gid Hp0). cbn [mbind Result_bind]. fold g. rewrite Hs, Hf.
  cbn [negb]. destruct (Z.leb_spec HAND_SIZE (dealIndex g)); [lia|].
  assert (Hnp : negb (sender =? player0 g) && negb (sender =? player1 g) = false).
  { destruct (Z.eqb_spec sender (player0 g)), (Z.eqb_spec sender (player1 g));
      cbn; try reflexivity. destruct Hsender; contradiction. }
  rewrite Hnp. pose proof (gi_deal g Hg) as Hd.
  unfold dealt_round.
  destruct (_drawUniqueCard (usedMask g) start0) as [c0 used0]. cbn [fst snd].
  rewrite (proj2 (array_set_ok (hand0 g) _ (dealIndex g) c0))
    by (split; [rewrite (gi_len0 g Hg); unfold HAND_SIZE in *; lia|reflexivity]).
  cbn [mbind Result_bind].
  destruct (_drawUniqueCard used0 start1) as [c1 used1]. cbn [fst snd].
  cbn [hand1 set_hand0].
  rewrite (proj2 (array_set_ok (hand1 g) _ (dealIndex g) c1))
    by (split; [rewrite (gi_len1 g Hg); unfold HAND_SIZE in *; lia|reflexivity]).
  cbn [mbind Result_bind].
  rewrite (proj2 (checked_add_ok MAX_UINT8 (dealIndex g) 1 _))
    by (split; [unfold MAX_UINT8, HAND_SIZE in *; lia|reflexivity]).
  reflexivity.
Qed.

Lemma finishGame_result (gid : Z) (g : Game) :
  length (hand0 g) = 6%nat -> length (hand1 g) = 6%nat ->
  0 <= playedIndex0 g < HAND_SIZE -> 0 <= playedIndex1 g < HAND_SIZE ->
  exists c0 c1,
    hand0 g !! Z.to_nat (playedIndex0 g) = Some c0 /\
    hand1 g !! Z.to_nat (playedIndex1 g) = Some c1 /\
    _finishGame gid g = Ok (set_finished true (set_p0Wins (Some (showdown c0 c1)) g)).
Proof.
  intros Hl0 Hl1 Hi0 Hi1. unfold HAND_SIZE in *.
  destruct (lookup_lt_is_Some_2 (hand0 g) (Z.to_nat (playedIndex0 g)) ltac:(lia)) as [c0 H0].
  destruct (lookup_lt_is_Some_2 (hand1 g) (Z.to_nat (playedIndex1 g)) ltac:(lia)) as [c1 H1].
  exists c0, c1. split; [exact H0|]. split; [exact H1|].
  unfold _finishGame.
  rewrite (proj2 (array_get_ok (hand0 g) (playedIndex0 g) c0)) by (split; [lia|exact H0]).
  cbn [mbind Result_bind].
  rewrite (proj2 (array_get_ok (hand1 g) (playedIndex1 g) c1)) by (split; [lia|exact H1]).
  reflexivity.
Qed.

Lemma playCard_result (s : Contract) (sender gid handIndex : Z) :
  let g := game_at s gid in
  let isP0 := sender =? player0 g in
  game_inv g -> played_in_hand g ->
  player0 g <> 0 -> started g = true -> finished g = false ->
  dealIndex g = HAND_SIZE -> 0 <= handIndex < HAND_SIZE ->
  sender = player0 g \/ sender = player1 g ->
  (if isP0 then hasPlayed0 g = false else hasPlayed1 g = false) ->
  exists g2,
    playCard sender gid handIndex s = Ok (set_game gid g2 s) /\
    after_play (record_play isP0 handIndex g) g2.
Proof.
  intros g isP0 Hg Hpl Hp0 Hs Hf Hk Hh Hsender Hnot. unfold playCard.
  rewrite (getGame_found s gid Hp0). cbn [mbind Result_bind]. fold g. rewrite Hs, Hf, Hk.
  cbn [negb]. rewrite Z.ltb_irrefl.
  destruct (Z.leb_spec HAND_SIZE handIndex); [lia|].
  assert (Hnp : negb (sender =? player0 g) && negb (sender =? player1 g) = false).
  { destruct (Z.eqb_spec sender (player0 g)), (Z.eqb_spec sender (player1 g));
      cbn; try reflexivity. destruct Hsender; contradiction. }
  rewrite Hnp. fold isP0.
  assert (Hrec : (if isP0
                  then if hasPlayed0 g then Err (AlreadyPlayed gid)
                       else Ok (set_playedIndex0 handIndex (set_hasPlayed0 true g))
                  else if hasPlayed1 g then Err (AlreadyPlayed gid)
                       else Ok (set_playedIndex1 handIndex (set_hasPlayed1 true g)))
                 = Ok (record_play isP0 handIndex g)).
  { unfold record_play. destruct isP0; rewrite Hnot; reflexivity. }
  rewrite Hrec. cbn [mbind Result_bind].
  set (g1 := record_play isP0 handIndex g).
  assert (Hg1 : length (hand0 g1) = 6%nat /\ length (hand1 g1) = 6%nat /\
                played_in_hand g1).
  { destruct Hpl as [Hq0 Hq1]. subst g1. unfold record_play, played_in_hand.
    destruct isP0; cbn; (split; [apply (gi_len0 g Hg)|split; [apply (gi_len1 g Hg)|]]);
      split; intros; auto. }
  destruct Hg1 as (Hl0 & Hl1 & [Hq0 Hq1]).
  unfold after_play. destruct (hasPlayed0 g1 && hasPlayed1 g1) eqn:Hboth.
  - apply andb_true_iff in Hboth as [Hb0 Hb1].
    destruct (finishGame_result gid g1 Hl0 Hl1 (Hq0 Hb0) (Hq1 Hb1))
      as (c0 & c1 & H0 & H1 & Hfin).
    rewrite Hfin. cbn [mbind Result_bind]. eexists. split; [reflexivity|].
    exists c0, c1. auto.
  - cbn [mbind Result_bind]. exists g1. auto.
Qed.

End Operations.

(** X16. In a reachable state [createGame] fails only when the id counter
    cannot be incremented (arithmetic panic at [2 ^ 256 - 1]); otherwise it
    returns [nextGameId], increments it, appends the id to the open list,
    and the new game has the caller in slot 0, the block time as creation
    time and every other field zero. *)
Theorem createGame_spec (s : Contract) (sender timestamp : Z) :
  reachable s ->
  (nextGameId s = MAX_UINT256 -> createGame sender timestamp s = Err (Panic 0x11)) /\
  (nextGameId s < MAX_UINT256 ->
   exists s',
     createGame sender timestamp s = Ok (s', nextGameId s) /\
     nextGameId s' = nextGameId s + 1 /\
     getOpenGameIds s' = getOpenGameIds s ++ [nextGameId s] /\
     game_at s' (nextGameId s) =
       set_createdAt timestamp (set_player0 sender empty_game)).
Proof.
  intros Hreach. pose proof (reachable_inv s Hreach) as Hinv. split.
  - intros Hmax. unfold createGame, checked_add. rewrite Hmax. reflexivity.
  - intros Hlt.
    destruct (createGame_inv sender timestamp s Hinv ltac:(lia)) as (s' & Hcr & _ & Hids).
    exists s'. split; [exact Hcr|].
    apply createGame_ok in Hcr as (_ & _ & Hpush).
    apply pushOpen_frame in Hpush as (Hg & Hn & _).
    split; [rewrite Hn; reflexivity|]. split; [exact Hids|].
    unfold game_at at 1. rewrite Hg. cbn [_games set_game].
    rewrite lookup_insert_eq. cbn [default].
    change (game_at (set_nextGameId (nextGameId s + 1) s) (nextGameId s))
      with (game_at s (nextGameId s)).
    rewrite (game_at_fresh s (nextGameId s)) by (apply (ci_fresh s Hinv); lia).
    reflexivity.
Qed.

Lemma createGame_spec_witness :
  let s := run init sample_run in
  (nextGameId s = MAX_UINT256 -> createGame carol 13 s = Err (Panic 0x11)) /\
  (nextGameId s < MAX_UINT256 ->
   exists s',
     createGame carol 13 s = Ok (s', nextGameId s) /\
     nextGameId s' = nextGameId s + 1 /\
     getOpenGameIds s' = getOpenGameIds s ++ [nextGameId s] /\
     game_at s' (nextGameId s) = set_createdAt 13 (set_player0 carol empty_game)).
Proof.
  apply (createGame_spec (run init sample_run) carol 13).
  apply run_reachable; [apply reachable_init|reflexivity].
Defined.

(** X17. [startGame] fails with [GameNotFound] on an unknown id, else with
    [GameAlreadyStarted] on a started game, else with [GameNotReady] while
    slot 1 is empty, else with [NotAPlayer] for a caller that is neither
    slot; otherwise it succeeds, and in a reachable state all it changes is
    the [started] flag of that game (its resets of the deal counter and of
    the used-mask find them already zero). *)
Theorem startGame_spec (s : Contract) (sender gid : Z) :
  reachable s ->
  let g := game_at s gid in
  (player0 g = 0 -> startGame sender gid s = Err (GameNotFound gid)) /\
  (player0 g <> 0 -> started g = true ->
   startGame sender gid s = Err (GameAlreadyStarted gid)) /\
  (player0 g <> 0 -> started g = false -> player1 g = 0 ->
   startGame sender gid s = Err (GameNotReady gid)) /\
  (player0 g <> 0 -> started g = false -> player1 g <> 0 ->
   sender <> player0 g -> sender <> player1 g ->
   startGame sender gid s = Err (NotAPlayer gid)) /\
  (player0 g <> 0 -> started g = false -> player1 g <> 0 ->
   sender = player0 g \/ sender = player1 g ->
   startGame sender gid s = Ok (set_game gid (set_started true g) s)).
Proof.
  intros Hreach g.
  pose proof (ci_games s (reachable_inv s Hreach) gid) as Hg. fold g in Hg.
  split; [|split; [|split; [|split]]].
  - intros Hp0. unfold startGame. rewrite (getGame_err s gid Hp0). reflexivity.
  - intros Hp0 Hs. unfold startGame. rewrite (getGame_found s gid Hp0).
    cbn [mbind Result_bind]. fold g. rewrite Hs. reflexivity.
  - intros Hp0 Hs Hp1. unfold startGame. rewrite (getGame_found s gid Hp0).
    cbn [mbind Result_bind]. fold g. rewrite Hs, Hp1. cbn [Z.eqb].
    rewrite orb_true_r. reflexivity.
  - intros Hp0 Hs Hp1 H0 H1. unfold startGame. rewrite (getGame_found s gid Hp0).
    cbn [mbind Result_bind]. fold g. rewrite Hs.
    destruct (Z.eqb_spec (player0 g) 0); [contradiction|].
    destruct (Z.eqb_spec (player1 g) 0); [contradiction|]. cbn [orb].
    destruct (Z.eqb_spec sender (player0 g)); [contradiction|].
    destruct (Z.eqb_spec sender (player1 g)); [contradiction|]. reflexivity.
  - intros Hp0 Hs Hp1 Hsender.
    rewrite (startGame_result s sender gid Hp0 Hs Hp1 Hsender). fold g.
    do 2 f_equal.
    destruct (gi_unstarted g Hg Hs) as (Hk & _).
    assert (Hmask : usedMask g = 0).
    { destruct (gi_mask g Hg) as [_ Hbits]. apply Z.bits_inj'. intros n Hn.
      rewrite Z.bits_0. destruct (Z.testbit (usedMask g) n) eqn:E; [|reflexivity].
      apply Hbits in E; [|exact Hn]. unfold dealt, dealt0, dealt1 in E.
      rewrite Hk in E. cbn in E. inversion E. }
    unfold set_usedMask, set_dealIndex, set_started. cbn.
    rewrite Hk, Hmask. reflexivity.
Qed.

Lemma startGame_spec_witness :
  let s := run init [mkTx alice 1 CreateGame; mkTx bob 2 (JoinGame 0)] in
  let g := game_at s 0 in
  (player0 g = 0 -> startGame bob 0 s = Err (GameNotFound 0)) /\
  (player0 g <> 0 -> started g = true ->
   startGame bob 0 s = Err (GameAlreadyStarted 0)) /\
  (player0 g <> 0 -> started g = false -> player1 g = 0 ->
   startGame bob 0 s = Err (GameNotReady 0)) /\
  (player0 g <> 0 -> started g = false -> player1 g <> 0 ->
   bob <> player0 g -> bob <> player1 g ->
   startGame bob 0 s = Err (NotAPlayer 0)) /\
  (player0 g <> 0 -> started g = false -> player1 g <> 0 ->
   bob = player0 g \/ bob = player1 g ->
   startGame bob 0 s = Ok (set_game 0 (set_started true g) s)).
Proof.
  apply (startGame_spec (run init [mkTx alice 1 CreateGame; mkTx bob 2 (JoinGame 0)]) bob 0).
  apply run_reachable; [apply reachable_init|reflexivity].
Defined.

(** X18. [dealRound] fails with [GameNotFound] on an unknown id, else with
    [GameNotReady] before the start, else with [GameAlreadyFinished], else
    with [HandsAlreadyDealt] after [HAND_SIZE] rounds, else with
    [NotAPlayer] for a caller that is neither slot.  Otherwise it succeeds
    in every reachable state, with the same effect whichever participant
    calls; and with random values in [0..63] the two cards it stores at
    position [dealIndex] are different cards of the deck that were not
    dealt before. *)
Theorem dealRound_spec (s : Contract) (sender gid start0 start1 : Z) :
  reachable s ->
  let g := game_at s gid in
  (player0 g = 0 -> dealRound sender gid start0 start1 s = Err (GameNotFound gid)) /\
  (player0 g <> 0 -> started g = false ->
   dealRound sender gid start0 start1 s = Err (GameNotReady gid)) /\
  (started g = true -> finished g = true ->
   dealRound sender gid start0 start1 s = Err (GameAlreadyFinished gid)) /\
  (started g = true -> finished g = false -> dealIndex g = HAND_SIZE ->
   dealRound sender gid start0 start1 s = Err (HandsAlreadyDealt gid)) /\
  (started g = true -> finished g = false -> dealIndex g < HAND_SIZE ->
   sender <> player0 g -> sender <> player1 g ->
   dealRound sender gid start0 start1 s = Err (NotAPlayer gid)) /\
  (started g = true -> finished g = false -> dealIndex g < HAND_SIZE ->
   sender = player0 g \/ sender = player1 g ->
   let g' := dealt_round start0 start1 g in
   dealRound sender gid start0 start1 s = Ok (set_game gid g' s) /\
   (0 <= start0 < 64 -> 0 <= start1 < 64 ->
    exists c0 c1,
      hand0 g' !! Z.to_nat (dealIndex g) = Some c0 /\
      hand1 g' !! Z.to_nat (dealIndex g) = Some c1 /\
      in_deck c0 /\ in_deck c1 /\ c0 <> c1 /\ (c0 ∉ dealt g) /\ (c1 ∉ dealt g))).
Proof.
  intros Hreach g.
  pose proof (ci_games s (reachable_inv s Hreach) gid) as Hg. fold g in Hg.
  assert (Hex : started g = true -> player0 g <> 0)
    by (intros Hs; apply (gi_started g Hg Hs)).
  split; [|split; [|split; [|split; [|split]]]].
  - intros Hp0. unfold dealRound. rewrite (getGame_err s gid Hp0). reflexivity.
  - intros Hp0 Hs. unfold dealRound. rewrite (getGame_found s gid Hp0).
    cbn [mbind Result_bind]. fold g. rewrite Hs. reflexivity.
  - intros Hs Hf. unfold dealRound. rewrite (getGame_found s gid (Hex Hs)).
    cbn [mbind Result_bind]. fold g. rewrite Hs, Hf. reflexivity.
  - intros Hs Hf Hk. unfold dealRound. rewrite (getGame_found s gid (Hex Hs)).
    cbn [mbind Result_bind]. fold g. rewrite Hs, Hf, Hk, Z.leb_refl. reflexivity.
  - intros Hs Hf Hk H0 H1. unfold dealRound. rewrite (getGame_found s gid (Hex Hs)).
    cbn [mbind Result_bind]. fold g. rewrite Hs, Hf. cbn [negb].
    destruct (Z.leb_spec HAND_SIZE (dealIndex g)); [lia|].
    destruct (Z.eqb_spec sender (player0 g)); [contradiction|].
    destruct (Z.eqb_spec sender (player1 g)); [contradiction|]. reflexivity.
  - intros Hs Hf Hk Hsender g'. split.
    + apply (dealRound_result s sender gid start0 start1 Hg (Hex Hs) Hs Hf Hk Hsender).
    + intros Hr0 Hr1. pose proof (length_dealt g Hg) as Hlen.
      pose proof (gi_deal g Hg) as Hd. unfold HAND_SIZE in *.
      destruct (draw_fresh (usedMask g) (dealt g) start0 (gi_mask g Hg)
                  ltac:(lia) Hr0) as (Hdeck0 & Hnew0 & Htracks0).
      destruct (draw_fresh _ _ start1 Htracks0 ltac:(cbn [length]; lia) Hr1)
        as (Hdeck1 & Hnew1 & _).
      set (d0 := _drawUniqueCard (usedMask g) start0) in *.
      set (d1 := _drawUniqueCard (snd d0) start1) in *.
      exists (fst d0), (fst d1).
      subst g'. unfold dealt_round. fold d0 d1. cbn [hand0 hand1 set_dealIndex
        set_usedMask set_hand1 set_hand0].
      rewrite !list_lookup_insert_eq
        by (rewrite ?(gi_len0 g Hg), ?(gi_len1 g Hg); lia).
      apply not_elem_of_cons in Hnew1 as [Hne Hnew1].
      split; [reflexivity|]. split; [reflexivity|].
      split; [exact Hdeck0|]. split; [exact Hdeck1|]. auto.
Qed.

Lemma dealRound_spec_witness :
  let s := run init sample_setup in
  let g := game_at s 0 in
  (player0 g = 0 -> dealRound bob 0 5 17 s = Err (GameNotFound 0)) /\
  (player0 g <> 0 -> started g = false ->
   dealRound bob 0 5 17 s = Err (GameNotReady 0)) /\
  (started g = true -> finished g = true ->
   dealRound bob 0 5 17 s = Err (GameAlreadyFinished 0)) /\
  (started g = true -> finished g = false -> dealIndex g = HAND_SIZE ->
   dealRound bob 0 5 17 s = Err (HandsAlreadyDealt 0)) /\
  (started g = true -> finished g = false -> dealIndex g < HAND_SIZE ->
   bob <> player0 g -> bob <> player1 g ->
   dealRound bob 0 5 17 s = Err (NotAPlayer 0)) /\
  (started g = true -> finished g = false -> dealIndex g < HAND_SIZE ->
   bob = player0 g \/ bob = player1 g ->
   let g' := dealt_round 5 17 g in
   dealRound bob 0 5 17 s = Ok (set_game 0 g' s) /\
   (0 <= 5 < 64 -> 0 <= 17 < 64 ->
    exists c0 c1,
      hand0 g' !! Z.to_nat (dealIndex g) = Some c0 /\
      hand1 g' !! Z.to_nat (dealIndex g) = Some c1 /\
      in_deck c0 /\ in_deck c1 /\ c0 <> c1 /\ (c0 ∉ dealt g) /\ (c1 ∉ dealt g))).
Proof.
  apply (dealRound_spec (run init sample_setup) bob 0 5 17).
  apply run_reachable; [apply reachable_init|reflexivity].
Defined.

(** X19. [playCard] fails with [GameNotFound] on an unknown id, else with
    [GameNotReady] before the start, else with [GameAlreadyFinished], else
    with [HandsNotDealt] while fewer than [HAND_SIZE] rounds are dealt,
    else with [InvalidHandIndex] for a hand index of [HAND_SIZE] or more,
    else with [NotAPlayer] for a caller that is neither slot, else with
    [AlreadyPlayed] for a slot that has played.  Otherwise it succeeds in
    every state reached by transactions of the chain: the move is recorded,
    and when the other slot has played too the game is finished with the
    comparison of the two played cards as result. *)
Theorem playCard_spec (s : Contract) (sender gid handIndex : Z) :
  reachable_wf s -> 0 <= handIndex ->
  let g := game_at s gid in
  let isP0 := sender =? player0 g in
  (player0 g = 0 -> playCard sender gid handIndex s = Err (GameNotFound gid)) /\
  (player0 g <> 0 -> started g = false ->
   playCard sender gid handIndex s = Err (GameNotReady gid)) /\
  (started g = true -> finished g = true ->
   playCard sender gid handIndex s = Err (GameAlreadyFinished gid)) /\
  (started g = true -> finished g = false -> dealIndex g < HAND_SIZE ->
   playCard sender gid handIndex s = Err (HandsNotDealt gid)) /\
  (started g = true -> finished g = false -> dealIndex g = HAND_SIZE ->
   (HAND_SIZE <= handIndex ->
    playCard sender gid handIndex s = Err (InvalidHandIndex handIndex)) /\
   (handIndex < HAND_SIZE -> sender <> player0 g -> sender <> player1 g ->
    playCard sender gid handIndex s = Err (NotAPlayer gid)) /\
   (handIndex < HAND_SIZE -> sender = player0 g \/ sender = player1 g ->
    (if isP0 then hasPlayed0 g = true else hasPlayed1 g = true) ->
    playCard sender gid handIndex s = Err (AlreadyPlayed gid)) /\
   (handIndex < HAND_SIZE -> sender = player0 g \/ sender = player1 g ->
    (if isP0 then hasPlayed0 g = false else hasPlayed1 g = false) ->
    exists g2,
      playCard sender gid handIndex s = Ok (set_game gid g2 s) /\
      after_play (record_play isP0 handIndex g) g2)).
Proof.
  intros Hwf Hh g isP0. pose proof (reachable_wf_reachable s Hwf) as Hreach.
  pose proof (ci_games s (reachable_inv s Hreach) gid) as Hg. fold g in Hg.
  pose proof (wi_played s (reachable_wf_inv s Hwf) gid) as Hpl. fold g in Hpl.
  assert (Hex : started g = true -> player0 g <> 0)
    by (intros Hs; apply (gi_started g Hg Hs)).
  split; [|split; [|split; [|split]]].
  - intros Hp0. unfold playCard. rewrite (getGame_err s gid Hp0). reflexivity.
  - intros Hp0 Hs. unfold playCard. rewrite (getGame_found s gid Hp0).
    cbn [mbind Result_bind]. fold g. rewrite Hs. reflexivity.
  - intros Hs Hf. unfold playCard. rewrite (getGame_found s gid (Hex Hs)).
    cbn [mbind Result_bind]. fold g. rewrite Hs, Hf. reflexivity.
  - intros Hs Hf Hk. unfold playCard. rewrite (getGame_found s gid (Hex Hs)).
    cbn [mbind Result_bind]. fold g. rewrite Hs, Hf. cbn [negb].
    destruct (Z.ltb_spec (dealIndex g) HAND_SIZE); [reflexivity|lia].
  - intros Hs Hf Hk.
    assert (Hpre : forall k : Game -> Result Contract,
              (g0 ← _getGame s gid;
               if negb (started g0) then Err (GameNotReady gid) else
               if finished g0 then Err (GameAlreadyFinished gid) else
               if dealIndex g0 <? HAND_SIZE then Err (HandsNotDealt gid) else k g0)
              = k g).
    { intros k. rewrite (getGame_found s gid (Hex Hs)). cbn [mbind Result_bind].
      fold g. rewrite Hs, Hf, Hk, Z.ltb_irrefl. reflexivity. }
    split; [|split; [|split]].
    + intros Hbig. unfold playCard. rewrite Hpre.
      destruct (Z.leb_spec HAND_SIZE handIndex); [reflexivity|lia].
    + intros Hsmall H0 H1. unfold playCard. rewrite Hpre.
      destruct (Z.leb_spec HAND_SIZE handIndex); [lia|].
      destruct (Z.eqb_spec sender (player0 g)); [contradiction|].
      destruct (Z.eqb_spec sender (player1 g)); [contradiction|]. reflexivity.
    + intros Hsmall Hsender Hplayed. unfold playCard. rewrite Hpre.
      destruct (Z.leb_spec HAND_SIZE handIndex); [lia|].
      assert (Hnp : negb (sender =? player0 g) && negb (sender =? player1 g) = false).
      { destruct (Z.eqb_spec sender (player0 g)), (Z.eqb_spec sender (player1 g));
          cbn; try reflexivity. destruct Hsender; contradiction. }
      rewrite Hnp. fold isP0. destruct isP0; rewrite Hplayed; reflexivity.
    + intros Hsmall Hsender Hnot.
      apply (playCard_result s sender gid handIndex Hg Hpl (Hex Hs) Hs Hf Hk
               ltac:(lia) Hsender Hnot).
Qed.

Lemma playCard_spec_witness :
  let s := run init (sample_setup ++ sample_deals ++ [mkTx alice 10 (PlayCard 0 0)]) in
  let g := game_at s 0 in
  let isP0 := bob =? player0 g in
  (player0 g = 0 -> playCard bob 0 3 s = Err (GameNotFound 0)) /\
  (player0 g <> 0 -> started g = false ->
   playCard bob 0 3 s = Err (GameNotReady 0)) /\
  (started g = true -> finished g = true ->
   playCard bob 0 3 s = Err (GameAlreadyFinished 0)) /\
  (started g = true -> finished g = false -> dealIndex g < HAND_SIZE ->
   playCard bob 0 3 s = Err (HandsNotDealt 0)) /\
  (started g = true -> finished g = false -> dealIndex g = HAND_SIZE ->
   (HAND_SIZE <= 3 ->
    playCard bob 0 3 s = Err (InvalidHandIndex 3)) /\
   (3 < HAND_SIZE -> bob <> player0 g -> bob <> player1 g ->
    playCard bob 0 3 s = Err (NotAPlayer 0)) /\
   (3 < HAND_SIZE -> bob = player0 g \/ bob = player1 g ->
    (if isP0 then hasPlayed0 g = true else hasPlayed1 g = true) ->
    playCard bob 0 3 s = Err (AlreadyPlayed 0)) /\
   (3 < HAND_SIZE -> bob = player0 g \/ bob = player1 g ->
    (if isP0 then hasPlayed0 g = false else hasPlayed1 g = false) ->
    exists g2,
      playCard bob 0 3 s = Ok (set_game 0 g2 s) /\
      after_play (record_play isP0 3 g) g2)).
Proof.
  apply (playCard_spec
           (run init (sample_setup ++ sample_deals ++ [mkTx alice 10 (PlayCard 0 0)]))
           bob 0 3).
  - apply run_reachable_wf; [apply reachable_wf_init|reflexivity].
  - lia.
Defined.

(** ** A whole session *)

Section Session.

Lemma apply_tx_ok (s s' : Contract) (tx : Tx) :
  exec s tx = Ok s' -> apply_tx s tx = s'.
Proof. intros H. unfold apply_tx. rewrite H. reflexivity. Qed.

Lemma run_app (s : Contract) (l1 l2 : list Tx) :
  run s (l1 ++ l2) = run (run s l1) l2.
Proof. unfold run. apply fold_left_app. Qed.

Lemma createGame_game (s s' : Contract) (sender timestamp : Z) :
  contract_inv s ->
  createGame sender timestamp s = Ok (s', nextGameId s) ->
  game_at s' (nextGameId s) = set_createdAt timestamp (set_player0 sender empty_game).
Proof.
  intros Hinv Hcr. apply createGame_ok in Hcr as (_ & _ & Hpush).
  apply pushOpen_frame in Hpush as (Hg & _).
  unfold game_at at 1. rewrite Hg. cbn [_games set_game].
  rewrite lookup_insert_eq. cbn [default].
  change (game_at (set_nextGameId (nextGameId s + 1) s) (nextGameId s))
    with (game_at s (nextGameId s)).
  rewrite (game_at_fresh s (nextGameId s)) by (apply (ci_fresh s Hinv); lia).
  reflexivity.
Qed.

Lemma joinGame_result (s : Contract) (sender gid : Z) :
  let g := game_at s gid in
  contract_inv s ->
  player0 g <> 0 -> started g = false -> player1 g = 0 -> sender <> player0 g ->
  exists s', joinGame sender gid s = Ok s' /\ game_at s' gid = set_player1 sender g.
Proof.
  intros g Hinv Hp0 Hs Hp1 Hne.
  destruct (join_removeOpen s sender gid Hinv) as (s' & Hrem & _).
  exists s'. split.
  - unfold joinGame. rewrite (getGame_found s gid Hp0).
    cbn [mbind Result_bind]. fold g. rewrite Hs, Hp1. cbn [Z.eqb negb].
    destruct (Z.eqb_spec (player0 g) 0); [contradiction|].
    destruct (Z.eqb_spec (player0 g) sender); [congruence|]. exact Hrem.
  - rewrite (removeOpen_game_at _ gid _ _ Hrem). apply game_at_set_game_eq.
Qed.

Lemma deal_dealing (s : Contract) (a b gid k : Z) (r : Z * Z) :
  reachable_wf s -> dealing a b k (game_at s gid) -> a <> 0 -> k < HAND_SIZE ->
  valid_starts [r] = true ->
  let s' := apply_tx s (mkTx a 0 (DealRound gid (fst r) (snd r))) in
  reachable_wf s' /\ dealing a b (k + 1) (game_at s' gid).
Proof.
  intros Hwf (Hp0 & Hp1 & Hs & Hf & Hk & Hh0 & Hh1) Ha Hlt Hr s'.
  pose proof (reachable_inv s (reachable_wf_reachable s Hwf)) as Hinv.
  assert (Hexec : exec s (mkTx a 0 (DealRound gid (fst r) (snd r))) =
                  Ok (set_game gid (dealt_round (fst r) (snd r) (game_at s gid)) s)).
  { unfold exec. cbn [call sender].
    apply dealRound_result;
      first [assumption | congruence | lia | apply (ci_games s Hinv) | left; congruence]. }
  subst s'. rewrite (apply_tx_ok _ _ _ Hexec). split.
  - eapply reachable_wf_step; [exact Hwf| |exact Hexec].
    unfold wf_tx, valid_tx. cbn [call sender].
    cbn [valid_starts forallb] in Hr. rewrite andb_true_r in Hr. rewrite Hr.
    destruct (Z.eqb_spec a 0); [contradiction|]. reflexivity.
  - rewrite game_at_set_game_eq. unfold dealing, dealt_round. cbn.
    repeat split; try assumption. lia.
Qed.

Lemma deals_dealing (a b gid : Z) (starts : list (Z * Z)) :
  forall s k,
    reachable_wf s -> dealing a b k (game_at s gid) -> a <> 0 ->
    k + Z.of_nat (length starts) <= HAND_SIZE ->
    valid_starts starts = true ->
    let s' := run s (deal_txs a gid starts) in
    reachable_wf s' /\ dealing a b (k + Z.of_nat (length starts)) (game_at s' gid).
Proof.
  induction starts as [|r starts IH]; intros s k Hwf Hd Ha Hlen Hv s'.
  - subst s'. cbn. rewrite Z.add_0_r. auto.
  - cbn [valid_starts forallb] in Hv. apply andb_true_iff in Hv as [Hr Hv].
    cbn [length] in Hlen.
    destruct (deal_dealing s a b gid k r Hwf Hd Ha ltac:(lia)
                ltac:(cbn [valid_starts forallb]; rewrite Hr; reflexivity))
      as [Hwf1 Hd1].
    destruct (IH _ (k + 1) Hwf1 Hd1 Ha ltac:(lia) Hv) as [Hwf2 Hd2].
    subst s'. cbn [deal_txs map]. change (run s (?tx :: ?l)) with (run (apply_tx s tx) l).
    split; [exact Hwf2|].
    replace (k + Z.of_nat (length (r :: starts)))
      with (k + 1 + Z.of_nat (length starts)) by (cbn [length]; lia).
    exact Hd2.
Qed.

Lemma played_cards_distinct (g : Game) (c0 c1 : Z) :
  game_inv g -> finished g = true ->
  hand0 g !! Z.to_nat (playedIndex0 g) = Some c0 ->
  hand1 g !! Z.to_nat (playedIndex1 g) = Some c1 ->
  in_deck c0 /\ in_deck c1 /\ c0 <> c1.
Proof.
  intros Hg Hf H0 H1.
  pose proof (finished_dealt g Hg Hf) as Hk.
  assert (Hd0 : dealt0 g = hand0 g).
  { unfold dealt0. apply take_ge. rewrite (gi_len0 g Hg), Hk. unfold HAND_SIZE. lia. }
  assert (Hd1 : dealt1 g = hand1 g).
  { unfold dealt1. apply take_ge. rewrite (gi_len1 g Hg), Hk. unfold HAND_SIZE. lia. }
  assert (Hin0 : c0 ∈ dealt0 g) by (rewrite Hd0; eapply list_elem_of_lookup_2; exact H0).
  assert (Hin1 : c1 ∈ dealt1 g) by (rewrite Hd1; eapply list_elem_of_lookup_2; exact H1).
  pose proof (gi_deck g Hg) as Hdeck. unfold dealt in Hdeck.
  rewrite Forall_forall in Hdeck.
  split; [apply Hdeck, elem_of_app; auto|]. split; [apply Hdeck, elem_of_app; auto|].
  pose proof (gi_nodup g Hg) as Hnd. unfold dealt in Hnd.
  apply NoDup_app in Hnd as (_ & Hdisj & _).
  intros ->. apply (Hdisj c1 Hin0 Hin1).
Qed.

End Session.

(** X20. A whole session always goes through: from every state reached by
    transactions of the chain in which an id is left, for all different
    non-zero players [a] and [b], all six pairs of random values in
    [0..63] and all hand positions [i0], [i1] below [HAND_SIZE], the
    sequence create by [a], join by [b], start, six deals, play by [a],
    play by [b] ends with the new game finished, and its result is the
    comparison of card [i0] of hand 0 with card [i1] of hand 1, two
    different cards of the deck. *)
Theorem full_session_completes (s : Contract) (a b : Z) (starts : list (Z * Z))
    (i0 i1 : Z) :
  reachable_wf s -> nextGameId s < MAX_UINT256 ->
  a <> 0 -> b <> 0 -> a <> b ->
  length starts = 6%nat -> valid_starts starts = true ->
  0 <= i0 < HAND_SIZE -> 0 <= i1 < HAND_SIZE ->
  let gid := nextGameId s in
  let s' := run s (session_txs a b gid starts i0 i1) in
  let g := game_at s' gid in
  player0 g = a /\ player1 g = b /\ finished g = true /\
  playedIndex0 g = i0 /\ playedIndex1 g = i1 /\
  exists c0 c1,
    hand0 g !! Z.to_nat i0 = Some c0 /\ hand1 g !! Z.to_nat i1 = Some c1 /\
    in_deck c0 /\ in_deck c1 /\ c0 <> c1 /\
    getResult gid s' = Ok (Some (showdown c0 c1)).
Proof.
  intros Hwf Hnext Ha Hb Hab Hlen Hstarts Hi0 Hi1 gid s' g.
  assert (Hsender : forall x c, x <> 0 ->
            (match c with PlayCard _ h => (0 <=? h) && (h <? 256) | _ => true end) = true ->
            valid_tx (mkTx x 0 c) = true -> wf_tx (mkTx x 0 c) = true).
  { intros x c Hx Hc Hv. unfold wf_tx. cbn [call sender]. rewrite Hv, Hc.
    destruct (Z.eqb_spec x 0); [contradiction|]. reflexivity. }
  (* create *)
  pose proof (reachable_inv s (reachable_wf_reachable s Hwf)) as Hinv.
  destruct (createGame_inv a 0 s Hinv ltac:(lia)) as (s1 & Hcr & Hinv1 & _).
  pose proof (createGame_game s s1 a 0 Hinv Hcr) as Hg1. fold gid in Hg1.
  assert (Hex1 : exec s (mkTx a 0 CreateGame) = Ok s1).
  { unfold exec. cbn [call sender timestamp]. rewrite Hcr. reflexivity. }
  assert (Hwf1 : reachable_wf s1).
  { eapply reachable_wf_step; [exact Hwf| |exact Hex1]. apply Hsender; auto. }
  (* join *)
  destruct (joinGame_result s1 b gid Hinv1) as (s2 & Hjoin & Hg2);
    try (rewrite Hg1; cbn; congruence).
  rewrite Hg1 in Hg2.
  assert (Hex2 : exec s1 (mkTx b 0 (JoinGame gid)) = Ok s2) by exact Hjoin.
  assert (Hwf2 : reachable_wf s2).
  { eapply reachable_wf_step; [exact Hwf1| |exact Hex2]. apply Hsender; auto. }
  (* start *)
  assert (Hex3 : exec s2 (mkTx a 0 (StartGame gid)) =
                 Ok (set_game gid
                       (set_usedMask 0 (set_dealIndex 0 (set_started true (game_at s2 gid))))
                       s2)).
  { unfold exec. cbn [call sender].
    apply startGame_result; rewrite Hg2; cbn; auto. }
  set (s3 := set_game gid _ s2) in Hex3.
  assert (Hwf3 : reachable_wf s3).
  { eapply reachable_wf_step; [exact Hwf2| |exact Hex3]. apply Hsender; auto. }
  assert (Hd3 : dealing a b 0 (game_at s3 gid)).
  { subst s3. rewrite game_at_set_game_eq, Hg2. unfold dealing. cbn. auto 10. }
  (* six deals *)
  destruct (deals_dealing a b gid starts s3 0 Hwf3 Hd3 Ha
              ltac:(rewrite Hlen; unfold HAND_SIZE; lia) Hstarts) as [Hwf4 Hd4].
  set (s4 := run s3 (deal_txs a gid starts)) in *.
  rewrite Hlen in Hd4. change (0 + Z.of_nat 6) with 6 in Hd4.
  destruct Hd4 as (Hp0 & Hp1 & Hs & Hf & Hk & Hh0 & Hh1).
  (* play by a *)
  pose proof (ci_games s4 (reachable_inv s4 (reachable_wf_reachable s4 Hwf4)) gid) as Hgi4.
  pose proof (wi_played s4 (reachable_wf_inv s4 Hwf4) gid) as Hpl4.
  destruct (playCard_result s4 a gid i0 Hgi4 Hpl4) as (g5 & Hplay5 & Hafter5);
    try assumption; try congruence.
  { left. congruence. }
  { rewrite Hp0, Z.eqb_refl. exact Hh0. }
  rewrite Hp0, Z.eqb_refl in Hafter5. unfold after_play, record_play in Hafter5.
  cbn [hasPlayed0 hasPlayed1 set_playedIndex0 set_hasPlayed0] in Hafter5.
  rewrite Hh1 in Hafter5. cbn [andb] in Hafter5.
  set (s5 := set_game gid g5 s4) in *.
  assert (Hex5 : exec s4 (mkTx a 0 (PlayCard gid i0)) = Ok s5) by exact Hplay5.
  assert (Hwf5 : reachable_wf s5).
  { eapply reachable_wf_step; [exact Hwf4| |exact Hex5]. apply Hsender; auto.
    unfold HAND_SIZE in *. destruct (Z.leb_spec 0 i0), (Z.ltb_spec i0 256); auto; lia. }
  assert (Hg5 : game_at s5 gid = g5) by (subst s5; apply game_at_set_game_eq).
  (* play by b *)
  pose proof (ci_games s5 (reachable_inv s5 (reachable_wf_reachable s5 Hwf5)) gid) as Hgi5.
  pose proof (wi_played s5 (reachable_wf_inv s5 Hwf5) gid) as Hpl5.
  assert (Hba : (b =? player0 (game_at s5 gid)) = false).
  { rewrite Hg5, Hafter5. cbn. rewrite Hp0. apply Z.eqb_neq. congruence. }
  destruct (playCard_result s5 b gid i1 Hgi5 Hpl5) as (g6 & Hplay6 & Hafter6);
    try (rewrite Hg5, Hafter5; cbn; congruence); try assumption.
  { rewrite Hg5, Hafter5. cbn. exact Hk. }
  { rewrite Hg5, Hafter5. cbn. right. congruence. }
  { rewrite Hba, Hg5, Hafter5. cbn. exact Hh1. }
  rewrite Hba in Hafter6. unfold after_play, record_play in Hafter6.
  rewrite Hg5, Hafter5 in Hafter6.
  cbn [hasPlayed0 hasPlayed1 set_playedIndex0 set_hasPlayed0 set_playedIndex1
       set_hasPlayed1 andb playedIndex0 playedIndex1 hand0 hand1] in Hafter6.
  destruct Hafter6 as (c0 & c1 & H0 & H1 & Hg6).
  set (s6 := set_game gid g6 s5) in *.
  assert (Hex6 : exec s5 (mkTx b 0 (PlayCard gid i1)) = Ok s6) by exact Hplay6.
  assert (Hwf6 : reachable_wf s6).
  { eapply reachable_wf_step; [exact Hwf5| |exact Hex6]. apply Hsender; auto.
    unfold HAND_SIZE in *. destruct (Z.leb_spec 0 i1), (Z.ltb_spec i1 256); auto; lia. }
  (* the run *)
  assert (Hrun : s' = s6).
  { subst s'. unfold session_txs. rewrite !run_app.
    change (run s [?t1; ?t2; ?t3])
      with (apply_tx (apply_tx (apply_tx s t1) t2) t3).
    rewrite (apply_tx_ok _ _ _ Hex1), (apply_tx_ok _ _ _ Hex2), (apply_tx_ok _ _ _ Hex3).
    fold s4.
    change (run s4 [?t1; ?t2]) with (apply_tx (apply_tx s4 t1) t2).
    rewrite (apply_tx_ok _ _ _ Hex5), (apply_tx_ok _ _ _ Hex6). reflexivity. }
  assert (Hgfin : g = g6) by (subst g; rewrite Hrun; subst s6; apply game_at_set_game_eq).
  pose proof (ci_games s6 (reachable_inv s6 (reachable_wf_reachable s6 Hwf6)) gid) as Hgi6.
  rewrite <- Hrun in Hgi6. fold g in Hgi6.
  assert (Hfields : player0 g = a /\ player1 g = b /\ finished g = true /\
                    playedIndex0 g = i0 /\ playedIndex1 g = i1 /\
                    hand0 g = hand0 (game_at s4 gid) /\ hand1 g = hand1 (game_at s4 gid) /\
                    p0Wins g = Some (showdown c0 c1)).
  { rewrite Hgfin, Hg6. cbn. auto 10. }
  destruct Hfields as (E0 & E1 & Ef & Ei0 & Ei1 & Eh0 & Eh1 & Er).
  split; [exact E0|]. split; [exact E1|]. split; [exact Ef|].
  split; [exact Ei0|]. split; [exact Ei1|].
  exists c0, c1. rewrite Eh0, Eh1. split; [exact H0|]. split; [exact H1|].
  destruct (played_cards_distinct g c0 c1 Hgi6 Ef) as (D0 & D1 & Dne).
  { rewrite Ei0, Eh0. exact H0. }
  { rewrite Ei1, Eh1. exact H1. }
  split; [exact D0|]. split; [exact D1|]. split; [exact Dne|].
  unfold getResult. rewrite getGame_found by (fold g; congruence).
  cbn [mbind Result_bind]. fold g. rewrite Er. reflexivity.
Qed.

Lemma full_session_completes_witness :
  let gid := nextGameId init in
  let s' := run init (session_txs alice bob gid sample_starts 0 3) in
  let g := game_at s' gid in
  player0 g = alice /\ player1 g = bob /\ finished g = true /\
  playedIndex0 g = 0 /\ playedIndex1 g = 3 /\
  exists c0 c1,
    hand0 g !! Z.to_nat 0 = Some c0 /\ hand1 g !! Z.to_nat 3 = Some c1 /\
    in_deck c0 /\ in_deck c1 /\ c0 <> c1 /\
    getResult gid s' = Ok (Some (showdown c0 c1)).
Proof.
  apply (full_session_completes init alice bob sample_starts 0 3).
  - apply reachable_wf_init.
  - vm_compute. reflexivity.
  - vm_compute. discriminate.
  - vm_compute. discriminate.
  - vm_compute. discriminate.
  - reflexivity.
  - reflexivity.
  - unfold HAND_SIZE. lia.
  - unfold HAND_SIZE. lia.
Defined.

(** ** The card labels of the front end *)

Module FrontendFacts.

Import Stdlib.Strings.String.
Import Frontend.

Lemma deck_member (a : Z) : 0 <= a < 52 -> In a (seqZ 0 52).
Proof. intros Ha. apply list_elem_of_In, elem_of_seqZ. lia. Qed.

Lemma deck_labels_known : labels_known (seqZ 0 52) = true.
Proof. vm_compute. reflexivity. Qed.

Lemma deck_labels_distinct : labels_distinct (seqZ 0 52) = true.
Proof. vm_compute. reflexivity. Qed.

Lemma suit_outside_deck (a : Z) : ~ 0 <= a < 52 -> suit (formatCard a) = unknown.
Proof.
  intros Hout. unfold formatCard, js_index. cbn [suit].
  destruct (Z.ltb_spec (a / 13) 0) as [Hneg|Hpos]; [reflexivity|].
  assert (Hbig : 52 <= a).
  { destruct (Z_lt_ge_dec a 0) as [Hlt|Hge]; [|lia].
    assert (a / 13 < 0) by (apply Z.div_lt_upper_bound; lia). lia. }
  assert (4 <= a / 13) by (apply Z.div_le_lower_bound; lia).
  rewrite (lookup_ge_None_2 SUITS (Z.to_nat (a / 13))) by (cbn; lia).
  reflexivity.
Qed.

(** X21. [formatCard] gives every card value of the deck a known rank and
    suit and a label of its own; a value shows the unknown suit ["?"]
    exactly when it is outside [0..51]. *)
Theorem formatCard_deck (a b : Z) :
  (suit (formatCard a) = unknown <-> ~ 0 <= a < 52) /\
  (0 <= a < 52 -> rank (formatCard a) <> unknown) /\
  (0 <= a < 52 -> 0 <= b < 52 ->
   label (formatCard a) = label (formatCard b) -> a = b).
Proof.
  assert (Hknown : forall x, 0 <= x < 52 ->
            rank (formatCard x) <> unknown /\ suit (formatCard x) <> unknown).
  { intros x Hx. pose proof deck_labels_known as H. unfold labels_known in H.
    rewrite forallb_forall in H. specialize (H x (deck_member x Hx)).
    apply andb_true_iff in H as [Hr Hs].
    apply negb_true_iff in Hr, Hs. apply String.eqb_neq in Hr, Hs. auto. }
  split; [|split].
  - split; [|apply suit_outside_deck].
    intros Hs Hin. apply (Hknown a Hin). exact Hs.
  - intros Ha. apply (Hknown a Ha).
  - intros Ha Hb Hlabel. pose proof deck_labels_distinct as H.
    unfold labels_distinct in H. rewrite forallb_forall in H.
    specialize (H a (deck_member a Ha)). rewrite forallb_forall in H.
    specialize (H b (deck_member b Hb)).
    rewrite Hlabel, String.eqb_refl in H. cbn [implb] in H.
    apply Z.eqb_eq in H. exact H.
Qed.

Lemma formatCard_deck_witness :
  (suit (formatCard 51) = unknown <-> ~ 0 <= 51 < 52) /\
  (0 <= 51 < 52 -> rank (formatCard 51) <> unknown) /\
  (0 <= 51 < 52 -> 0 <= 12 < 52 ->
   label (formatCard 51) = label (formatCard 12) -> 51 = 12).
Proof. apply (formatCard_deck 51 12). Defined.

End FrontendFacts.
